(** * final-unit: the runtime capture decoder and the type-to-value synthesizer

    A shallow embedding of two Go packages:
    - package [runtime] (the capture decoder: [ParseLine], [AssertStmts],
      [CreateAssertStmts]);
    - package [gen] (the generator: [SetIsValid], [FuncDeclToExprStmt],
      [TypeExprToValExpr] and the functions it dispatches to).

    Go strings are byte strings ([string]); Go slices are lists; Go maps are
    [gmap]s; [int] values are in [Z]. *)

From Stdlib Require Import ZArith Ascii String List Lia.
Set Warnings "-register-all".
From stdpp Require Import base option list gmap strings.

Local Open Scope string_scope.
Local Open Scope list_scope.

(** ** Package runtime *)

Module Runtime.

(** Output JSON structure for runtime output. *)
Inductive Output : Type := mkOutput {
  Typ : string;          (* json: type *)
  VarName : string;      (* json: var_name *)
  MapKeyType : string;   (* json: map_key_type *)
  Val : string;          (* json: val *)
  ArrIdent : string;     (* json: arr_ident *)
  Child : option Output  (* json: child *)
}.

(** The zero value [Output{}]. *)
Definition emptyOutput : Output := mkOutput "" "" "" "" "" None.

(** Replacement struct which contains keys and replacement values. *)
Record Replacement := mkReplacement { Key : string; RVal : string }.

(** TypeCorrections: prefix and suffix for printing corrections in types. *)
Record TypeCorrections := mkTypeCorrections { Prefix : string; Suffix : string }.

Inductive AssignStmtType := AssignStmtTypeDefine | AssignSTmtTypeAssign.

Inductive AssertStmtType :=
| AssertStmtTypeEqualValues
| AssertStmtTypeTrue
| AssertStmtTypeFalse
| AssertStmtTypeNil
| AssertStmtTypeNoError
| AssertStmtTypeError.

(** The two implementations of the [Stmt] interface. A field that the source
    leaves out of a literal holds the empty string. *)
Inductive Stmt :=
| AssignStmt (ty : AssignStmtType) (LeftHand RightHand : string)
| AssertStmt (ty : AssertStmtType) (Expected Value : string).

(** What the logger receives. *)
Inductive LogEntry :=
| LogParseError (err line : string)
| LogExpectedChild
| LogUnknownType (ty val : string).

Definition quote : string := String (ascii_of_nat 34) EmptyString.

(** The head of a declaring assignment of [name], as the decoder records it
    in [mem]: [fmt.Sprintf("%s :=", name)]. *)
Definition declHead (name : string) : string := name +:+ " :=".

(** [fmt.Sprintf("%s := *%s", child, ptr)]. *)
Definition pointerStmtText (child ptr : string) : string :=
  child +:+ " := *" +:+ ptr.

(** Modelled from the spec: [Contains], the membership test on the decoder's
    [mem], is not among the sources. The spec has [mem] hold the variable
    names for which a first declaration has already been emitted, and a later
    encounter of the same target name find it there; the decoder records
    [declHead name] and asks for the full text [name := *ptr], so the test
    succeeds when a recorded head starts the text asked for. *)
Definition Contains (mem : list string) (s : string) : bool :=
  existsb (fun m => String.prefix m s) mem.

(** An identifier text without a blank. *)
Fixpoint spaceFree (s : string) : bool :=
  match s with
  | EmptyString => true
  | String a s' => negb (Ascii.eqb a " "%char) && spaceFree s'
  end.

Section Decoder.

(** [strings.ReplaceAll] of the Go standard library. *)
Variable strings_ReplaceAll : string -> string -> string -> string.

(** [json.Unmarshal([]byte(line), &data)] of the Go standard library: the
    record after the call and the error, if any. *)
Variable json_Unmarshal : string -> Output -> Output * option string.

(** The printer held by [Info]. *)
Record Info := { Printer_PrintStmt : Stmt -> string }.

(** Modelled from the spec: [Stmt.Replace] is not among the sources; the
    spec has the replacement applied by textual substitution to every
    operand of the statement. *)
Definition Replace (s : Stmt) (key val : string) : Stmt :=
  match s with
  | AssignStmt ty l r =>
      AssignStmt ty (strings_ReplaceAll l key val) (strings_ReplaceAll r key val)
  | AssertStmt ty e v =>
      AssertStmt ty (strings_ReplaceAll e key val) (strings_ReplaceAll v key val)
  end.

(** The first loop of [CreateAssertStmts]. *)
Definition replaceVarName (replacements : list Replacement) (name : string) : string :=
  fold_left (fun n r => strings_ReplaceAll n (Key r) (RVal r)) replacements name.

(** The second loop of [CreateAssertStmts]. *)
Definition replaceStmts (replacements : list Replacement) (resStmts : list Stmt) : list Stmt :=
  map (fun s => fold_left (fun s r => Replace s (Key r) (RVal r)) replacements s) resStmts.

Definition isNumericType (t : string) : bool :=
  existsb (String.eqb t)
    ["int"; "float32"; "float64"; "byte"; "rune"; "uintptr"; "uint"; "uint8";
     "uint16"; "uint32"; "uint64"; "int8"; "int16"; "int32"; "int64"].

(** CreateAssertStmts creates the eventual assert statement based on runtime
    output and corrections. *)
Definition CreateAssertStmts (runtimeOutput : Output) (replacements : list Replacement)
    (typeCorrection : TypeCorrections) (resStmts : list Stmt) : list Stmt * list LogEntry :=
  let varName := replaceVarName replacements (VarName runtimeOutput) in
  let resStmts := replaceStmts replacements resStmts in
  let ty := Typ runtimeOutput in
  let val := Val runtimeOutput in
  if isNumericType ty then
    (resStmts ++ [AssertStmt AssertStmtTypeEqualValues
                    (Prefix typeCorrection +:+ ty +:+ "(" +:+ val +:+ ")" +:+ Suffix typeCorrection)
                    varName], [])
  else if ty =? "string" then
    (resStmts ++ [AssertStmt AssertStmtTypeEqualValues
                    (Prefix typeCorrection +:+ ty +:+ "(`" +:+ val +:+ "`)" +:+ Suffix typeCorrection)
                    varName], [])
  else if ty =? "bool" then
    if val =? "true" then
      (resStmts ++ [AssertStmt AssertStmtTypeTrue varName ""], [])
    else
      (resStmts ++ [AssertStmt AssertStmtTypeFalse varName ""], [])
  else if (ty =? "complex64") || (ty =? "complex128") then
    (resStmts ++ [AssertStmt AssertStmtTypeEqualValues
                    (Prefix typeCorrection +:+ ty +:+ val +:+ Suffix typeCorrection)
                    varName], [])
  else if ty =? "pointer" then
    (resStmts ++ [AssertStmt AssertStmtTypeNil varName ""], [])
  else if ty =? "error" then
    if val =? "nil" then
      (resStmts ++ [AssertStmt AssertStmtTypeNoError varName ""], [])
    else
      (resStmts ++ [AssertStmt AssertStmtTypeError varName ""], [])
  else
    ([], [LogUnknownType ty val]).

(** AssertStmts: new assert statements from runtime output. The result is
    the statement list, the [mem] the caller's pointer refers to afterwards,
    and what was logged. *)
Fixpoint AssertStmts (data : Output) (replacements : list Replacement)
    (typeCorrection : TypeCorrections) (resStmts : list Stmt) (mem : list string)
    {struct data} : list Stmt * list string * list LogEntry :=
  match Child data with
  | None =>
      let '(stmts, log) := CreateAssertStmts data replacements typeCorrection resStmts in
      (stmts, mem, log)
  | Some child =>
      if Typ data =? "arr" then
        AssertStmts child
          (replacements ++ [mkReplacement (ArrIdent data) (Val data)])
          typeCorrection resStmts mem
      else if Typ data =? "custom" then
        AssertStmts child replacements typeCorrection resStmts mem
      else if Typ data =? "map" then
        let x := if MapKeyType data =? "string"
                 then quote +:+ Val data +:+ quote else Val data in
        AssertStmts child
          (replacements ++ [mkReplacement (ArrIdent data) x])
          typeCorrection resStmts mem
      else if Typ data =? "pointer" then
        if negb (Val data =? "nil") then
          (* sanity check *)
          match Child data with
          | None => ([], mem, [LogExpectedChild])
          | Some dataChild =>
              let pointerStmt := pointerStmtText (VarName dataChild) (VarName data) in
              if negb (Contains mem pointerStmt) then
                AssertStmts child replacements typeCorrection
                  (resStmts ++ [AssignStmt AssignStmtTypeDefine
                                  (VarName dataChild) ("*" +:+ VarName data)])
                  (mem ++ [declHead (VarName dataChild)])
              else
                AssertStmts child replacements typeCorrection
                  (resStmts ++ [AssignStmt AssignSTmtTypeAssign
                                  (VarName dataChild) ("*" +:+ VarName data)])
                  mem
          end
        else
          (* If nil just continue recursion *)
          AssertStmts child replacements typeCorrection resStmts mem
      else
        AssertStmts child replacements typeCorrection resStmts mem
  end.

(** ParseLine parses a line of output. *)
Definition ParseLine (info : Info) (jsonString : string) (mem : list string)
    : list string * list string * list LogEntry :=
  let '(data, err) := json_Unmarshal jsonString emptyOutput in
  let errLog := match err with
                | Some e => [LogParseError e jsonString]
                | None => []
                end in
  let '(stmts, mem', log) :=
    AssertStmts data [] (mkTypeCorrections "" "") [] mem in
  (map (Printer_PrintStmt info) stmts, mem', errLog ++ log).

End Decoder.

(** *** The chain of a capture

    A capture is a chain of nodes, each the [Child] of the one before; the
    definitions below read off a chain what [AssertStmts] gathers on its way
    down to the node that has no child. *)

(** The node at the end of the chain. *)
Fixpoint leaf (data : Output) : Output :=
  match Child data with
  | None => data
  | Some child => leaf child
  end.

(** The replacement that a node with a child adds: the loop identifier of an
    array node by its index, that of a map node by its key, quoted when the
    key type is string. *)
Definition replacementOf (data : Output) : list Replacement :=
  if Typ data =? "arr" then [mkReplacement (ArrIdent data) (Val data)]
  else if Typ data =? "custom" then []
  else if Typ data =? "map" then
    [mkReplacement (ArrIdent data)
       (if MapKeyType data =? "string" then quote +:+ Val data +:+ quote else Val data)]
  else [].

(** The replacements of the nodes above the leaf, outermost first. *)
Fixpoint replacementsOf (data : Output) : list Replacement :=
  match Child data with
  | None => []
  | Some child => replacementOf data ++ replacementsOf child
  end.

(** A pointer node whose value is not the nil sentinel. *)
Definition isDeref (data : Output) : bool :=
  (Typ data =? "pointer") && negb (Val data =? "nil").

(** The number of nodes above the leaf that are dereferenced. *)
Fixpoint derefs (data : Output) : nat :=
  match Child data with
  | None => 0
  | Some child => (if isDeref data then 1 else 0) + derefs child
  end.

(** The dereferencing assignments of the nodes above the leaf, outermost
    first, and [mem] after them. *)
Fixpoint pointerStmts (data : Output) (mem : list string) : list Stmt * list string :=
  match Child data with
  | None => ([], mem)
  | Some child =>
      if isDeref data then
        if Contains mem (pointerStmtText (VarName child) (VarName data)) then
          let '(stmts, mem') := pointerStmts child mem in
          (AssignStmt AssignSTmtTypeAssign (VarName child) ("*" +:+ VarName data) :: stmts,
           mem')
        else
          let '(stmts, mem') := pointerStmts child (mem ++ [declHead (VarName child)]) in
          (AssignStmt AssignStmtTypeDefine (VarName child) ("*" +:+ VarName data) :: stmts,
           mem')
      else pointerStmts child mem
  end.

(** The types for which [CreateAssertStmts] has a case. *)
Definition knownType (ty : string) : bool :=
  isNumericType ty || (ty =? "string") || (ty =? "bool") || (ty =? "complex64") ||
  (ty =? "complex128") || (ty =? "pointer") || (ty =? "error").

Definition isAssign (s : Stmt) : bool :=
  match s with AssignStmt _ _ _ => true | AssertStmt _ _ _ => false end.

(** A declaring assignment [x := v]. *)
Definition isDeclaring (s : Stmt) : bool :=
  match s with AssignStmt AssignStmtTypeDefine _ _ => true | _ => false end.

(** *** Concrete runs *)

(** A byte-level [strings.ReplaceAll] for a non-empty [old] (for an empty
    [old] the text is returned as it is); enough for the runs below. *)
Fixpoint replaceAllFrom (fuel : nat) (s old new : string) : string :=
  match fuel with
  | O => s
  | S fuel' =>
      match s with
      | EmptyString => EmptyString
      | String a s' =>
          if String.prefix old s
          then new +:+ replaceAllFrom fuel' (String.substring (String.length old)
                                               (String.length s) s) old new
          else String a (replaceAllFrom fuel' s' old new)
      end
  end.

Definition replaceAll (s old new : string) : string :=
  if old =? "" then s else replaceAllFrom (S (String.length s)) s old new.

(** The capture of scenario A and its line. *)
Definition captureA : Output := mkOutput "int" "x" "" "42" "" None.

Definition lineA : string :=
  "{" +:+ quote +:+ "type" +:+ quote +:+ ":" +:+ quote +:+ "int" +:+ quote +:+ ","
  +:+ quote +:+ "var_name" +:+ quote +:+ ":" +:+ quote +:+ "x" +:+ quote +:+ ","
  +:+ quote +:+ "val" +:+ quote +:+ ":" +:+ quote +:+ "42" +:+ quote +:+ "}".

(** A stand-in for [json.Unmarshal] that knows the line of scenario A and
    reports a syntax error, storing nothing, on any other line. *)
Definition unmarshalA (line : string) (data : Output) : Output * option string :=
  if line =? lineA then (captureA, None)
  else (data, Some "invalid character").

(** A line that is valid JSON but does not fit the record: [val] is a number
    where the field is a string. *)
Definition lineMistyped : string :=
  "{" +:+ quote +:+ "type" +:+ quote +:+ ":" +:+ quote +:+ "int" +:+ quote +:+ ","
  +:+ quote +:+ "var_name" +:+ quote +:+ ":" +:+ quote +:+ "x" +:+ quote +:+ ","
  +:+ quote +:+ "val" +:+ quote +:+ ":42}".

(** A stand-in for [json.Unmarshal] that also knows [lineMistyped]. On a
    value that does not fit its target, [json.Unmarshal] skips that field,
    completes the decoding of the others and returns the type error: here
    [type] and [var_name] are stored and [val] is left as it was. *)
Definition unmarshalMistyped (line : string) (data : Output) : Output * option string :=
  if line =? lineMistyped then
    (mkOutput "int" "x" (MapKeyType data) (Val data) (ArrIdent data) (Child data),
     Some "json: cannot unmarshal number into Go struct field Output.val of type string")
  else unmarshalA line data.

(** A printer for the runs: an assertion of equal values as [assert v == e],
    an assignment as written. *)
Definition printSample (s : Stmt) : string :=
  match s with
  | AssignStmt AssignStmtTypeDefine l r => l +:+ " := " +:+ r
  | AssignStmt AssignSTmtTypeAssign l r => l +:+ " = " +:+ r
  | AssertStmt AssertStmtTypeEqualValues e v => "assert " +:+ v +:+ " == " +:+ e
  | AssertStmt _ e _ => "assert " +:+ e
  end.

(** The capture of scenario B. *)
Definition captureB : Output :=
  mkOutput "pointer" "p" "" "0xdead" "" (Some (mkOutput "int" "y" "" "7" "" None)).

Definition noCorrection : TypeCorrections := mkTypeCorrections "" "".

(** The capture of a pointer to a pointer to an int. *)
Definition captureC : Output :=
  mkOutput "pointer" "pp" "" "0xc000" ""
    (Some (mkOutput "pointer" "p" "" "0xc008" ""
             (Some (mkOutput "int" "v" "" "7" "" None)))).

End Runtime.

(** ** Package gen *)

Module Gen.

(** The default of [Options.MaxRecursion]: cycles are detected by counting
    the times a struct is created. *)
Definition DefaultAmountRecursion : Z := 3.

(** *** The syntax trees of go/ast that the generator reads and builds *)

Inductive Token := DEFINE | ASSIGN | AND | TYPE.

Inductive ChanDir := SEND | RECV | SENDRECV.

(** What [Ident.Obj.Decl] is: a type specification, given by its index in the
    table of the parsed package, or some other declaration. *)
Inductive ObjDecl := TypeSpecDecl (k : nat) | OtherDecl.

(** [InterfaceType] and [StructType] nodes carry their address [addr]: the
    cycle memos are keyed by node pointer. [NilExpr] is the nil [ast.Expr]. *)
Inductive Expr : Type :=
| NilExpr
| Ident (Name : string) (Obj : option ObjDecl)
| BasicLit (Value : string)
| StarExpr (X : Expr)
| ArrayType (Len Elt : Expr)
| MapType (Key Value : Expr)
| ChanType (Dir : ChanDir) (Value : Expr)
| FuncType (Params Results : option (list Field))
| InterfaceType (addr : nat) (Methods : list Field) (Incomplete : bool)
| StructType (addr : nat) (Fields : list Field) (Incomplete : bool)
| SelectorExpr (X : Expr) (Sel : string)
| Ellipsis (Elt : Expr)
| CompositeLit (CType : Expr) (Elts : list Expr)
| KeyValueExpr (Key Value : Expr)
| CallExpr (Fun : Expr) (Args : list Expr)
| FuncLit (LType : Expr) (Body : list Stmt)
| UnaryExpr (Op : Token) (X : Expr)
| OtherExpr
with Field : Type :=
| mkField (Names : list string) (FType : Expr)
with Stmt : Type :=
| AssignStmt (Lhs : list Expr) (Tok : Token) (Rhs : list Expr)
| ReturnStmt (Results : list Expr)
| ExprStmt (X : Expr).

Definition Names (f : Field) : list string := let '(mkField ns _) := f in ns.
Definition FType (f : Field) : Expr := let '(mkField _ t) := f in t.

Record TypeSpec := mkTypeSpec { SpecName : string; SpecType : Expr }.

Inductive Spec := TypeSpecS (ts : TypeSpec) | OtherSpec.

Record FuncDecl := mkFuncDecl {
  Recv : option (list Field);
  FuncName : string;
  FuncTyp : Expr;
  FuncBody : list Stmt
}.

Inductive Decl :=
| GenDecl (Tok : Token) (Specs : list Spec)
| FuncDeclD (f : FuncDecl).

(** *** The determinism validator *)

(** RunTimeInfo: information about values on runtime. *)
Record RunTimeInfo := mkRunTimeInfo {
  IsValid : bool;
  Panics : bool;
  AssertStmts : list string;
  SecondRun : list string
}.

Definition setValid (r : RunTimeInfo) (b : bool) : RunTimeInfo :=
  mkRunTimeInfo b (Panics r) (AssertStmts r) (SecondRun r).

(** The loop of [SetIsValid], from index [i] for [n] more rounds: whether a
    pair of unequal statements is met. *)
Fixpoint mismatchFrom (a b : list string) (i n : nat) : bool :=
  match n with
  | O => false
  | S n' =>
      if negb (nth i a "" =? nth i b "") then true
      else mismatchFrom a b (S i) n'
  end.

(** SetIsValid verifies that created runtime info is valid: the returned
    value and the receiver after the call. *)
Definition SetIsValid (r : RunTimeInfo) : bool * RunTimeInfo :=
  if negb (length (AssertStmts r) =? length (SecondRun r))%nat then
    (false, setValid r false)
  else if mismatchFrom (AssertStmts r) (SecondRun r) 0 (length (AssertStmts r)) then
    (false, setValid r false)
  else
    (true, setValid r true).

(** *** The call statement of a test case *)

(** The loop over [printIdents] in [FuncDeclToExprStmt]. *)
Definition shouldUseAssign (printIdents : list Expr) : bool :=
  fold_left
    (fun should e =>
       match e with
       | Ident name _ => if negb (name =? "_") then false else should
       | _ => should
       end)
    printIdents true.

(** The call expression of [FuncDeclToExprStmt]; [None] is the run-time panic
    of [recvIdent[0]] on an empty slice. *)
Definition callExprOf (f : FuncDecl) (recvIdent paramIdent : list string) : option Expr :=
  let args := map (fun x => Ident x None) paramIdent in
  match Recv f with
  | Some [mkField [_] _] =>
      match recvIdent with
      | [] => None
      | r :: _ => Some (CallExpr (SelectorExpr (Ident r None) (FuncName f)) args)
      end
  | _ => Some (CallExpr (Ident (FuncName f) None) args)
  end.

(** FuncDeclToExprStmt converts func declaration to expression statement. The
    second component is [None] for the nil statement. *)
Definition FuncDeclToExprStmt (f : FuncDecl) (recvIdent paramIdent : list string)
    (printIdents : list Expr) : option (Stmt * option Stmt) :=
  match callExprOf f recvIdent paramIdent with
  | None => None
  | Some callExpr =>
      let assignToken := if shouldUseAssign printIdents then ASSIGN else DEFINE in
      let resPrint :=
        if (length printIdents =? 0)%nat then None
        else Some (AssignStmt printIdents assignToken [callExpr]) in
      Some (ExprStmt callExpr, resPrint)
  end.

(** The [FuncPrintStmt] field of the test case that [FuncDeclToTestCase]
    builds: set from the print statement when that is not nil, the zero value
    otherwise. [print] is [MustPrettyPrintElement]. *)
Definition FuncPrintStmtOf (print : Stmt -> string) (funcPrintStmt : option Stmt) : string :=
  match funcPrintStmt with
  | Some s => print s
  | None => ""
  end.

(** *** The synthesizer: state, results and collaborators *)

Section Synthesizer.

(** [Ptr] is [*importer.PkgResolverPointer]; [G] is the state of the value and
    variable-name generators. *)
Context {Ptr G : Type}.

(** RecursionInput: input object for traversing the AST. Its [counter] field
    holds Go maps, which every copy of an input shares; it is the [counter] of
    the state threaded through a synthesis. *)
Record RecursionInput := mkInput {
  e : Expr;
  varName : string;
  pkgPointer : Ptr
}.

(** CycleInfo stores information about possible cycles in parsed code. *)
Record CycleInfo := mkCycleInfo {
  Structs : gmap string Z;
  StructByStruct : gmap nat Z;
  Interfaces : gmap nat Z;
  StructMem : gmap nat Expr;
  InterfaceMem : gmap nat Decl
}.

(** FreshCycleInfo creates a fresh cycle info struct. *)
Definition FreshCycleInfo : CycleInfo := mkCycleInfo ∅ ∅ ∅ ∅ ∅.

(** TypeExprToValExprRes: result for converting input to value expressions. *)
Record TypeExprToValExprRes := mkRes {
  ResExpr : Expr;
  Statements : list Stmt;
  Declarations : list Decl;
  ChanIdents : list string;
  ChanStmts : list Stmt;
  ChanDecls : list Stmt
}.

(** The zero value [&TypeExprToValExprRes{}]. *)
Definition zeroRes : TypeExprToValExprRes := mkRes NilExpr [] [] [] [] [].

Definition withExpr (t : TypeExprToValExprRes) (x : Expr) : TypeExprToValExprRes :=
  mkRes x (Statements t) (Declarations t) (ChanIdents t) (ChanStmts t) (ChanDecls t).

Definition withStatements (t : TypeExprToValExprRes) (l : list Stmt) : TypeExprToValExprRes :=
  mkRes (ResExpr t) l (Declarations t) (ChanIdents t) (ChanStmts t) (ChanDecls t).

Definition withDeclarations (t : TypeExprToValExprRes) (l : list Decl) : TypeExprToValExprRes :=
  mkRes (ResExpr t) (Statements t) l (ChanIdents t) (ChanStmts t) (ChanDecls t).

(** Merge merges two type expr to val expr without using the expression. *)
Definition Merge (t other : TypeExprToValExprRes) : TypeExprToValExprRes :=
  mkRes (ResExpr t)
    (Statements t ++ Statements other)
    (Declarations t ++ Declarations other)
    (ChanIdents t ++ ChanIdents other)
    (ChanStmts t ++ ChanStmts other)
    (ChanDecls t ++ ChanDecls other).

(** EmptyResult creates empty result. *)
Definition EmptyResult : TypeExprToValExprRes := mkRes (BasicLit "") [] [] [] [] [].

Definition assignStmt (variable value : Expr) : Stmt :=
  AssignStmt [variable] DEFINE [value].

(** The generator [g]: its options, the table of type specifications that
    [Ident.Obj.Decl] points into, and the collaborators whose code is in other
    files and packages (the package resolver, the value and name generators,
    the methods of [g] and the helpers of the package that this file calls). *)
Record Generator := mkGenerator {
  MaxRecursion : Z;
  TypeSpecs : list TypeSpec;
  FindInCurrent : Ptr -> string -> bool * Expr * Ptr;
  FindImport : Ptr -> string -> string -> bool * Expr * Ptr;
  IsRoot : Ptr -> bool;
  PkgForPointer_Name : Ptr -> string;
  VarGenerator_Generate : G -> string * G;
  ValGenerator_ArrayLen : Z -> G -> Z * G;
  ValGenerator_MapLen : G -> Z * G;
  ValGenerator_Type : G -> string * G;
  CorrectTypeExpr : Expr -> RecursionInput -> Expr;
  ShouldReturnForInterface : Expr -> RecursionInput -> bool;
  ShouldReturnForFunc : Expr -> RecursionInput -> bool;
  IsBasicLit : string -> bool;
  IsError : string -> bool;
  BasicExprToValExpr : string -> G -> Expr * G;
  ErrExprToValExpr : G -> TypeExprToValExprRes * G;
  GetUnnamedStructIdent : Expr -> RecursionInput -> string;
  InterfaceGenDecl : RecursionInput -> string -> Decl;
  getArrayLen : Expr -> Z;
  lowerCaseFirstLetter : string -> string;
  strings_Title : string -> string;
  PrintExpr : Expr -> string
}.

(** The state of a synthesis: the shared cycle maps, the generators' state,
    and [Expanded], which no code reads: the counter names under which a named
    struct's fields were expanded so far, latest first. *)
Record State := mkState {
  counter : CycleInfo;
  oracle : G;
  Expanded : list string
}.

Inductive Outcome (A : Type) : Type :=
| Ok (a : A) (s : State)
| Panic
| OutOfFuel.

Arguments Ok {A} a s.
Arguments Panic {A}.
Arguments OutOfFuel {A}.

Definition M (A : Type) : Type := State -> Outcome A.

Definition ret {A} (a : A) : M A := fun s => Ok a s.

Definition bind {A B} (m : M A) (k : A -> M B) : M B :=
  fun s => match m s with
           | Ok a s' => k a s'
           | Panic => Panic
           | OutOfFuel => OutOfFuel
           end.

Definition panic {A} : M A := fun _ => Panic.

Notation "'do' x <- m ; k" := (bind m (fun x => k))
  (at level 10, x name, m at level 100, k at level 200).
Notation "'do' ' pat <- m ; k" := (bind m (fun x => match x with pat => k end))
  (at level 10, pat pattern, m at level 100, k at level 200).

(** A call of a generator method: it reads and advances [oracle]. *)
Definition draw {A} (f : G -> A * G) : M A :=
  fun s => let '(a, o) := f (oracle s) in Ok a (mkState (counter s) o (Expanded s)).

Definition count (m : gmap string Z) (name : string) : Z := default 0%Z (m !! name).

Definition countAt (m : gmap nat Z) (addr : nat) : Z := default 0%Z (m !! addr).

Definition withCounter (s : State) (c : CycleInfo) : State :=
  mkState c (oracle s) (Expanded s).

(** [mem, ok := counter.StructMem[t]; if !ok { counter.StructMem[t] = x }]:
    the memo found, if any. *)
Definition memoStruct (addr : nat) (x : Expr) : M (option Expr) :=
  fun s =>
    let c := counter s in
    match StructMem c !! addr with
    | Some m => Ok (Some m) s
    | None =>
        Ok None (withCounter s
                   (mkCycleInfo (Structs c) (StructByStruct c) (Interfaces c)
                      (<[addr := x]> (StructMem c)) (InterfaceMem c)))
    end.

(** [counter.Structs[name]++], and the value then read from the map. *)
Definition countStruct (name : string) : M Z :=
  fun s =>
    let c := counter s in
    let n := (count (Structs c) name + 1)%Z in
    Ok n (withCounter s
            (mkCycleInfo (<[name := n]> (Structs c)) (StructByStruct c) (Interfaces c)
               (StructMem c) (InterfaceMem c))).

(** [counter.Interfaces[t]++], and the value then read from the map. *)
Definition countInterface (addr : nat) : M Z :=
  fun s =>
    let c := counter s in
    let n := (countAt (Interfaces c) addr + 1)%Z in
    Ok n (withCounter s
            (mkCycleInfo (Structs c) (StructByStruct c) (<[addr := n]> (Interfaces c))
               (StructMem c) (InterfaceMem c))).

(** [mem, ok := counter.InterfaceMem[t]; if !ok { counter.InterfaceMem[t] = d }]. *)
Definition memoInterface (addr : nat) (d : Decl) : M (option Decl) :=
  fun s =>
    let c := counter s in
    match InterfaceMem c !! addr with
    | Some m => Ok (Some m) s
    | None =>
        Ok None (withCounter s
                   (mkCycleInfo (Structs c) (StructByStruct c) (Interfaces c)
                      (StructMem c) (<[addr := d]> (InterfaceMem c))))
    end.

Definition noteExpansion (name : string) : M unit :=
  fun s => Ok tt (mkState (counter s) (oracle s) (name :: Expanded s)).

(** A [for] loop over a slice, with the loop's variables in [a]. *)
Fixpoint foldM {X A} (body : A -> X -> M A) (l : list X) (a : A) : M A :=
  match l with
  | [] => ret a
  | x :: l' => do a' <- body a x; foldM body l' a'
  end.

(** [for i := 0; i < n; i++]. *)
Definition forUpTo {A} (n : Z) (body : A -> M A) (a : A) : M A :=
  foldM (fun a (_ : nat) => body a) (seq 0 (Z.to_nat n)) a.

(** *** The functions of the synthesizer

    The functions below recurse into each other through [TypeExprToValExpr]
    and [InterfaceTypeToFuncImpl]; each takes these two as [rec] and
    [recImpl], and the two are tied together, by recursion on a call depth
    [fuel], at the end. *)

Section Functions.

Variable g : Generator.
Variable rec : RecursionInput -> M TypeExprToValExprRes.
Variable recImpl : RecursionInput -> string -> M TypeExprToValExprRes.

(** [unicode.IsLower(rune(b))] for a byte [b]: the lower-case letters of
    Latin-1. *)
Definition isLowerByte (b : ascii) : bool :=
  let n := nat_of_ascii b in
  (((97 <=? n) && (n <=? 122)) || (n =? 181) ||
   ((223 <=? n) && (n <=? 246)) || ((248 <=? n) && (n <=? 255)))%nat.

(** [unicode.IsLower(rune(name[0]))]; indexing the empty string panics. *)
Definition firstIsLower (name : string) : M bool :=
  match name with
  | EmptyString => panic
  | String b _ => ret (isLowerByte b)
  end.

(** The test before the [continue] on an unexported field. *)
Definition skipsUnexported (input : RecursionInput) (name : string) : M bool :=
  if negb (IsRoot g (pkgPointer input)) then firstIsLower name else ret false.

(** The recursion on a kept field and the entry it adds. *)
Definition fieldEntry (input : RecursionInput) (ty : Expr) (name : string)
    (acc : TypeExprToValExprRes * list Expr) : M (TypeExprToValExprRes * list Expr) :=
  do recursionResult <- rec (mkInput ty name (pkgPointer input));
  ret (Merge (fst acc) recursionResult,
       snd acc ++ [KeyValueExpr (Ident name None) (ResExpr recursionResult)]).

(** The body of the loop over [field.Names]. *)
Definition namedField (input : RecursionInput) (field : Field)
    (acc : TypeExprToValExprRes * list Expr) (name : string)
    : M (TypeExprToValExprRes * list Expr) :=
  do isLower <- skipsUnexported input name;
  if isLower then ret acc
  else if ShouldReturnForFunc g (FType field)
            (mkInput (FType field) (varName input) (pkgPointer input))
  then ret acc
  else fieldEntry input (FType field) name acc.

(** The body of the loop over [structExpr.Fields.List]. *)
Definition structField (input : RecursionInput)
    (acc : TypeExprToValExprRes * list Expr) (field : Field)
    : M (TypeExprToValExprRes * list Expr) :=
  if (length (Names field) =? 0)%nat then
    let n := GetUnnamedStructIdent g (FType field) input in
    do isLower <- skipsUnexported input n;
    if isLower then ret acc
    else
      do acc' <- fieldEntry input (FType field) n acc;
      foldM (namedField input field) (Names field) acc'
  else foldM (namedField input field) (Names field) acc.

(** StructFieldsToKeyValExpr converts struct expression to key value
    expressions for initialising the fields of a struct. [resType] is the
    type of the composite literal [res]. *)
Definition StructFieldsToKeyValExpr (resType : Expr) (input : RecursionInput)
    : M TypeExprToValExprRes :=
  match e input with
  | StructType _ fields _ =>
      do '(result, elts) <- foldM (structField input) fields (zeroRes, []);
      ret (withExpr result (CompositeLit resType elts))
  | _ => ret EmptyResult
  end.

(** The key of the occurrence counter of a named struct. *)
Definition counterName (input : RecursionInput) : string :=
  if negb (IsRoot g (pkgPointer input))
  then varName input +:+ PkgForPointer_Name g (pkgPointer input)
  else varName input.

(** StructExprToValExpr create struct expression. *)
Definition StructExprToValExpr (input : RecursionInput) : M TypeExprToValExprRes :=
  match e input with
  | StructType addr _ _ =>
      let ident := CorrectTypeExpr g (Ident (varName input) None) input in
      do mem <- memoStruct addr (CompositeLit ident []);
      let name := counterName input in
      do occurrences <- countStruct name;
      match mem with
      | Some m =>
          if (MaxRecursion g <? occurrences)%Z
          then ret (mkRes m [] [] [] [] [])
          else do _ <- noteExpansion name; StructFieldsToKeyValExpr ident input
      | None => do _ <- noteExpansion name; StructFieldsToKeyValExpr ident input
      end
  | _ => ret EmptyResult
  end.

(** UnnamedStructToValExpr converts unnamed struct to val expression. *)
Definition UnnamedStructToValExpr (t : Expr) (input : RecursionInput)
    : M TypeExprToValExprRes :=
  StructFieldsToKeyValExpr t input.

(** InterfaceNilFunc creates a function returning nil value for expression. *)
Definition InterfaceNilFunc (t : Expr) (input : RecursionInput) : TypeExprToValExprRes :=
  mkRes
    (CallExpr
       (FuncLit (FuncType None (Some [mkField [] (CorrectTypeExpr g t input)]))
                [ReturnStmt [Ident "nil" None]])
       [])
    [] [] [] [] [].

(** FuncNilFunc creates a nil func. *)
Definition FuncNilFunc (t : Expr) (input : RecursionInput) : TypeExprToValExprRes :=
  mkRes (CallExpr (CorrectTypeExpr g t input) [Ident "nil" None]) [] [] [] [] [].

Definition isInterfaceType (x : Expr) : bool :=
  match x with InterfaceType _ _ _ => true | _ => false end.

(** TypeSpecToValExpr converts type spec to val expression. [t] is the
    identifier and [k] the index of [objectDeclType] in the table. *)
Definition TypeSpecToValExpr (t : Expr) (k : nat) (objectDeclType : TypeSpec)
    (input : RecursionInput) : M TypeExprToValExprRes :=
  match SpecType objectDeclType with
  | StructType _ _ _ as oType =>
      StructExprToValExpr (mkInput oType (SpecName objectDeclType) (pkgPointer input))
  | oType =>
      let probe := mkInput oType (varName input) (pkgPointer input) in
      if ShouldReturnForInterface g oType probe then ret (InterfaceNilFunc t input)
      else if ShouldReturnForFunc g oType probe then ret (FuncNilFunc t input)
      else
        do recursionResult <- rec (mkInput oType (varName input) (pkgPointer input));
        if isInterfaceType oType then ret recursionResult
        else
          ret (withExpr (Merge zeroRes recursionResult)
                 (CallExpr
                    (CorrectTypeExpr g
                       (Ident (SpecName objectDeclType) (Some (TypeSpecDecl k))) input)
                    [ResExpr recursionResult]))
  end.

(** IdentWithNilObjectToValExpr converts identifier with nil object to val
    expression. *)
Definition IdentWithNilObjectToValExpr (name : string) (input : RecursionInput)
    : M TypeExprToValExprRes :=
  if IsBasicLit g name then
    do v <- draw (BasicExprToValExpr g name);
    ret (mkRes v [] [] [] [] [])
  else if IsError g name then draw (ErrExprToValExpr g)
  else
    let '(_, expr, newPointer) := FindInCurrent g (pkgPointer input) name in
    rec (mkInput expr name newPointer).

(** The retyping at the end of [SelectorExprToValExpr]. The source assigns
    the [Type] (or [Fun]) field of the node the recursion returned, in place.
    Expressions are values here: the returned expression gets the new type.
    The one node of a result that is reachable from elsewhere is the memo a
    struct's guard returned, whose entry in [StructMem], and whose earlier
    uses, the assignment retypes as well (to the selector the caller wrote);
    an entry of [StructMem] keeps the type it was stored with in this model.
    The guards read only whether an entry is there. *)
Definition retype (t : Expr) (x : Expr) : Expr :=
  match x with
  | CompositeLit _ elts => CompositeLit t elts
  | CallExpr _ args => CallExpr t args
  | _ => x
  end.

(** SelectorExprToValExpr converts a selector expression to a value
    expression. *)
Definition SelectorExprToValExpr (input : RecursionInput) : M TypeExprToValExprRes :=
  match e input with
  | SelectorExpr (Ident selectorIdent _) sel as t =>
      let '(found, expr, newPointer) := FindImport g (pkgPointer input) selectorIdent sel in
      if negb found then ret EmptyResult
      else if ShouldReturnForInterface g expr (mkInput expr (varName input) newPointer)
      then ret (InterfaceNilFunc t input)
      else
        do recursionResult <- rec (mkInput expr (varName input) newPointer);
        ret (withExpr (Merge zeroRes recursionResult) (retype t (ResExpr recursionResult)))
  | _ => ret EmptyResult
  end.

(** ReturnFieldToStmt converts return field to statement and declarations. *)
Definition ReturnFieldToStmt (res : Field) (input : RecursionInput)
    : M TypeExprToValExprRes :=
  do name <- draw (VarGenerator_Generate g);
  let resName := lowerCaseFirstLetter g name in
  let result := mkRes (Ident resName None) [] [] [] [] [] in
  do recursionResult <- rec (mkInput (FType res) resName (pkgPointer input));
  let result := Merge result recursionResult in
  ret (withStatements result
         (Statements result ++ [assignStmt (ResExpr result) (ResExpr recursionResult)])).

(** One [ReturnFieldToStmt] and what the loops of
    [FuncReturnListToBodyStatements] do with it. *)
Definition returnField (res : Field) (input : RecursionInput)
    (acc : TypeExprToValExprRes * list Expr) : M (TypeExprToValExprRes * list Expr) :=
  do recursionResult <- ReturnFieldToStmt res input;
  ret (Merge (fst acc) recursionResult, snd acc ++ [ResExpr recursionResult]).

(** FuncReturnListToBodyStatements converts a return list of function to
    statements return values. *)
Definition FuncReturnListToBodyStatements (input : RecursionInput)
    : M TypeExprToValExprRes :=
  match e input with
  | FuncType _ results =>
      do '(result, retVars) <-
        match results with
        | Some list =>
            foldM (fun acc res =>
                     do acc' <- (if (length (Names res) =? 0)%nat
                                 then returnField res input acc else ret acc);
                     foldM (fun acc (_ : string) => returnField res input acc)
                       (Names res) acc')
              list (zeroRes, [])
        | None => ret (zeroRes, [])
        end;
      ret (withStatements result (Statements result ++ [ReturnStmt retVars]))
  | _ => ret EmptyResult
  end.

(** FuncTypeToValExpr converts a func type to a value expression. *)
Definition FuncTypeToValExpr (input : RecursionInput) : M TypeExprToValExprRes :=
  match CorrectTypeExpr g (e input) input with
  | FuncType _ _ as t =>
      do recursionResult <- FuncReturnListToBodyStatements input;
      let result := withStatements (Merge zeroRes recursionResult) [] in
      ret (withExpr result (FuncLit t (Statements recursionResult)))
  | _ => ret EmptyResult
  end.

(** ChanTypeToValExpr converts a chan type to a value expression. *)
Definition ChanTypeToValExpr (t : Expr) (dir : ChanDir) (input : RecursionInput)
    : M TypeExprToValExprRes :=
  do name <- draw (VarGenerator_Generate g);
  let newIdent := Ident (lowerCaseFirstLetter g name) None in
  let res := CallExpr (Ident "make" None) [t] in
  match dir with
  | RECV => ret (mkRes newIdent [assignStmt newIdent res] [] [] [] [])
  | _ => ret (mkRes newIdent [assignStmt newIdent res] []
                [lowerCaseFirstLetter g name] [] [])
  end.

(** ArrayExprToValExpr convert a array expression to value expression. *)
Definition ArrayExprToValExpr (input : RecursionInput) : M TypeExprToValExprRes :=
  match e input with
  | ArrayType len elt =>
      let arrayLen := getArrayLen g len in
      do arrayLenToUse <- draw (ValGenerator_ArrayLen g arrayLen);
      do '(result, exprRes) <-
        forUpTo arrayLenToUse
          (fun acc =>
             do recursionResult <- rec (mkInput elt (varName input) (pkgPointer input));
             ret (Merge (fst acc) recursionResult, snd acc ++ [ResExpr recursionResult]))
          (zeroRes, []);
      ret (withExpr result
             (CompositeLit
                (ArrayType (CorrectTypeExpr g len input) (CorrectTypeExpr g elt input))
                exprRes))
  | _ => ret EmptyResult
  end.

(** Modelled from the spec: [DuplMapChecker], [NewDuplMapChecker] and
    [IsDuplExpr] are not among the sources. The spec has an entry discarded
    when its key expression exact-matches an already-accepted key: the
    checker holds the texts of the keys accepted so far, and [IsDuplExpr]
    reports whether the text of its argument is among them, accepting it
    when it is not. *)
Definition DuplMapChecker : Type := list string.

Definition NewDuplMapChecker : DuplMapChecker := [].

Definition IsDuplExpr (d : DuplMapChecker) (x : Expr) : bool * DuplMapChecker :=
  if existsb (String.eqb (PrintExpr g x)) d then (true, d)
  else (false, d ++ [PrintExpr g x]).

(** The body of the loop of [MapExprToValExpr]; the loop's variables are the
    result, the entries and the checker. *)
Definition mapEntry (key value : Expr) (input : RecursionInput)
    (acc : TypeExprToValExprRes * list Expr * DuplMapChecker)
    : M (TypeExprToValExprRes * list Expr * DuplMapChecker) :=
  let '(result, elts, duplCheck) := acc in
  do keyRecursionResult <- rec (mkInput key (varName input) (pkgPointer input));
  let '(isDupl, duplCheck) := IsDuplExpr duplCheck (ResExpr keyRecursionResult) in
  if isDupl then ret (result, elts, duplCheck)
  else
    let result := Merge result keyRecursionResult in
    do valRecursionInput <- rec (mkInput value (varName input) (pkgPointer input));
    let result := Merge result valRecursionInput in
    ret (result,
         elts ++ [KeyValueExpr (ResExpr keyRecursionResult) (ResExpr valRecursionInput)],
         duplCheck).

(** MapExprToValExpr convert a map expression to value expression. *)
Definition MapExprToValExpr (input : RecursionInput) : M TypeExprToValExprRes :=
  match e input with
  | MapType key value =>
      do mapLen <- draw (ValGenerator_MapLen g);
      let resType := MapType (CorrectTypeExpr g key input) (CorrectTypeExpr g value input) in
      do '(result, elts, _) <-
        forUpTo mapLen (mapEntry key value input) (zeroRes, [], NewDuplMapChecker);
      ret (withExpr result (CompositeLit resType elts))
  | _ => ret EmptyResult
  end.

(** StarExprToValExpr converts star expression to value expression. *)
Definition StarExprToValExpr (input : RecursionInput) : M TypeExprToValExprRes :=
  match e input with
  | StarExpr x =>
      do name <- draw (VarGenerator_Generate g);
      let tempVarName := lowerCaseFirstLetter g (varName input) +:+ name in
      let identTemp := Ident tempVarName None in
      do recursionResult <- rec (mkInput x tempVarName (pkgPointer input));
      let result := Merge zeroRes recursionResult in
      let tempAssignStmt := assignStmt identTemp (ResExpr recursionResult) in
      ret (withStatements (withExpr result (UnaryExpr AND identTemp))
             (Statements result ++ [tempAssignStmt]))
  | _ => ret EmptyResult
  end.

(** The receiver of a synthesized method: one receiver name for consistency. *)
Definition implReceiver (interfaceImplIdent : string) : option (list Field) :=
  Some [mkField ["s"] (StarExpr (Ident interfaceImplIdent None))].

(** The loop over [t.Methods.List] in [InterfaceTypeToFuncImpl], with its
    early returns. The panics are the dereference of a nil [ident.Obj], the
    use of the nil [selectorIdent] in the warning, and [method.Names[0]] on
    an empty slice. *)
Fixpoint methodsLoop (input : RecursionInput) (interfaceImplIdent : string)
    (methods : list Field) (result : TypeExprToValExprRes) {struct methods}
    : M TypeExprToValExprRes :=
  match methods with
  | [] => ret result
  | method :: rest =>
      match FType method with
      | FuncType _ _ as funcType =>
          do recursionResult <-
            FuncReturnListToBodyStatements
              (mkInput funcType (varName input) (pkgPointer input));
          let result := withStatements (Merge result recursionResult) [] in
          let funcType' :=
            match CorrectTypeExpr g funcType input with
            | FuncType _ _ as x => x
            | _ => funcType
            end in
          match Names method with
          | [] => panic
          | name :: _ =>
              methodsLoop input interfaceImplIdent rest
                (withDeclarations result
                   (Declarations result ++
                      [FuncDeclD (mkFuncDecl (implReceiver interfaceImplIdent) name
                                    funcType' (Statements recursionResult))]))
          end
      | Ident _ obj =>
          match obj with
          | None => panic
          | Some (TypeSpecDecl k) =>
              match TypeSpecs g !! k with
              | Some typeSpec =>
                  match SpecType typeSpec with
                  | InterfaceType _ _ _ as interfaceType =>
                      do recursionResult <-
                        recImpl (mkInput interfaceType (varName input) (pkgPointer input))
                          interfaceImplIdent;
                      methodsLoop input interfaceImplIdent rest (Merge result recursionResult)
                  | _ => methodsLoop input interfaceImplIdent rest result
                  end
              | None => methodsLoop input interfaceImplIdent rest result
              end
          | Some OtherDecl => methodsLoop input interfaceImplIdent rest result
          end
      | SelectorExpr x sel =>
          match x with
          | Ident selectorIdent _ =>
              let '(found, expr, _) := FindImport g (pkgPointer input) selectorIdent sel in
              if negb found then ret EmptyResult
              else
                do recursionResult <-
                  recImpl (mkInput expr (varName input) (pkgPointer input))
                    interfaceImplIdent;
                methodsLoop input interfaceImplIdent rest (Merge result recursionResult)
          | _ => panic
          end
      | _ => methodsLoop input interfaceImplIdent rest result
      end
  end.

(** InterfaceTypeToFuncImpl converts interface type to function
    implementation declarations (one call; the calls it makes to itself go
    through [recImpl]). *)
Definition InterfaceTypeToFuncImpl_body (input : RecursionInput)
    (interfaceImplIdent : string) : M TypeExprToValExprRes :=
  match e input with
  | InterfaceType _ methods _ => methodsLoop input interfaceImplIdent methods zeroRes
  | _ => ret EmptyResult
  end.

(** What [InterfaceTypeToValExpr] does after the cycle check. *)
Definition implementInterface (input : RecursionInput) (interfaceImplIdent : string)
    : M TypeExprToValExprRes :=
  let result := withDeclarations zeroRes [InterfaceGenDecl g input interfaceImplIdent] in
  do implementationResult <- recImpl input interfaceImplIdent;
  ret (withExpr (Merge result implementationResult)
         (UnaryExpr AND (CompositeLit (Ident interfaceImplIdent None) []))).

(** InterfaceTypeToValExpr converts an interface type to val expression and
    declarations. *)
Definition InterfaceTypeToValExpr (input : RecursionInput) : M TypeExprToValExprRes :=
  match e input with
  | InterfaceType _ [] _ =>
      do ty <- draw (ValGenerator_Type g);
      do v <- draw (BasicExprToValExpr g ty);
      ret (mkRes v [] [] [] [] [])
  | InterfaceType addr _ _ =>
      do occurrences <- countInterface addr;
      do name <- draw (VarGenerator_Generate g);
      let interfaceImplIdent := strings_Title g name in
      let interfaceGenDecl := InterfaceGenDecl g input interfaceImplIdent in
      do mem <- memoInterface addr interfaceGenDecl;
      match mem with
      | Some (GenDecl _ specs) =>
          if (MaxRecursion g <? occurrences)%Z then
            match specs with
            | [] => panic
            | TypeSpecS y :: _ =>
                ret (mkRes (UnaryExpr AND (CompositeLit (Ident (SpecName y) None) []))
                       [] [] [] [] [])
            | OtherSpec :: _ => implementInterface input interfaceImplIdent
            end
          else implementInterface input interfaceImplIdent
      | _ => implementInterface input interfaceImplIdent
      end
  | _ => ret EmptyResult
  end.

(** TypeExprToValExpr converts a type expression, the type definition in a
    function parameter, to an expression used in an assignment statement
    (one call). *)
Definition TypeExprToValExpr_body (input : RecursionInput) : M TypeExprToValExprRes :=
  match e input with
  | StructType _ _ _ as t => UnnamedStructToValExpr t input
  | Ident name obj as t =>
      match obj with
      | None => IdentWithNilObjectToValExpr name input
      | Some (TypeSpecDecl k) =>
          match TypeSpecs g !! k with
          | Some objectDeclType => TypeSpecToValExpr t k objectDeclType input
          | None => ret EmptyResult
          end
      | Some OtherDecl => ret EmptyResult
      end
  | StarExpr _ => StarExprToValExpr input
  | ArrayType _ _ => ArrayExprToValExpr input
  | MapType _ _ => MapExprToValExpr input
  | ChanType dir _ as t => ChanTypeToValExpr t dir input
  | FuncType _ _ => FuncTypeToValExpr input
  | InterfaceType _ _ _ => InterfaceTypeToValExpr input
  | SelectorExpr _ _ => SelectorExprToValExpr input
  | Ellipsis elt => rec (mkInput elt (varName input) (pkgPointer input))
  | _ => ret EmptyResult
  end.

End Functions.

(** The two recursive functions, by recursion on the call depth: [fuel]
    bounds the nesting of calls of [TypeExprToValExpr] and
    [InterfaceTypeToFuncImpl], and [OutOfFuel] reports that it was reached. *)
Fixpoint TypeExprToValExpr (g : Generator) (fuel : nat) (input : RecursionInput)
    {struct fuel} : M TypeExprToValExprRes :=
  match fuel with
  | O => fun _ => OutOfFuel
  | S fuel' =>
      TypeExprToValExpr_body g (TypeExprToValExpr g fuel')
        (InterfaceTypeToFuncImpl g fuel') input
  end
with InterfaceTypeToFuncImpl (g : Generator) (fuel : nat) (input : RecursionInput)
    (interfaceImplIdent : string) {struct fuel} : M TypeExprToValExprRes :=
  match fuel with
  | O => fun _ => OutOfFuel
  | S fuel' =>
      InterfaceTypeToFuncImpl_body g (TypeExprToValExpr g fuel')
        (InterfaceTypeToFuncImpl g fuel') input interfaceImplIdent
  end.

(** A synthesis starts on a fresh cycle info. *)
Definition freshState (o : G) : State := mkState FreshCycleInfo o [].

End Synthesizer.

Arguments Ok {G A} a s.
Arguments Panic {G A}.
Arguments OutOfFuel {G A}.


(** *** The driver: from the declarations of a file to test cases *)

Section Driver.

Context {Ptr G : Type}.

Notation "'do' x <- m ; k" := (bind m (fun x => k))
  (at level 10, x name, m at level 100, k at level 200).
Notation "'do' ' pat <- m ; k" := (bind m (fun x => match x with pat => k end))
  (at level 10, pat pattern, m at level 100, k at level 200).

(** FieldToAssignRes: result for converting func fields to assign stmts. An
    identifier is held by its name. *)
Record FieldToAssignRes := mkAssignRes {
  Idents : list string;
  AssignStatements : list Stmt;
  AssignDeclarations : list Decl;
  AssignChanIdents : list string
}.

(** Append appends idents, statements and declarations to a
    fieldToAssignRes. *)
Definition Append (res : FieldToAssignRes) (idents chanIdents : list string)
    (stmts : list Stmt) (decls : list Decl) : FieldToAssignRes :=
  mkAssignRes (Idents res ++ idents) (AssignStatements res ++ stmts)
    (AssignDeclarations res ++ decls) (AssignChanIdents res ++ chanIdents).

(** AppendRes appends other into this. *)
Definition AppendRes (res otherRes : FieldToAssignRes) : FieldToAssignRes :=
  Append res (Idents otherRes) (AssignChanIdents otherRes) (AssignStatements otherRes)
    (AssignDeclarations otherRes).

(** TestCase contains all information for generating a test case. *)
Record TestCase := mkTestCase {
  Pointer : Ptr;
  CaseFuncDecl : FuncDecl;
  Decls : list string;
  Stmts : list string;
  FuncStmt : string;
  CaseChanIdents : list string;
  ResultStmts : list string;
  ResultUsageStmts : list string;
  FuncPrintStmt : string;
  CaseRunTimeInfo : RunTimeInfo
}.

(** HasPrintStmts check if any print statements are generated for current
    test case. *)
Definition HasPrintStmts (t : TestCase) : bool := negb (FuncPrintStmt t =? "").

(** HasChan reports if test case has a channel receiver. *)
Definition HasChan (t : TestCase) : bool := (0 <? length (CaseChanIdents t))%nat.

(** What the driver uses beside the fields of [Generator]: two more options,
    two more methods of the value generator, the decorator store (a value of
    the store is held by its [Call] expression), and the functions of the
    package that are in other files. [fileNameOf pointer] is the file part
    of [pointer.File]. *)
Record Driver := mkDriver {
  TestCasesPerFunc : Z;
  ValGenerator_DecoratorVal : G -> bool * G;
  ValGenerator_DecoratorIndex : Z -> G -> Z * G;
  fileNameOf : Ptr -> string;
  Deco_HasVal : string -> string -> string -> bool;
  Deco_GetVal : string -> string -> string -> list Expr;
  Deco_HasReceiverVal : string -> string -> bool;
  Deco_GetReceiverVal : string -> string -> list Expr;
  Deco_ShouldIgnoreFunc : string -> string -> bool;
  ResultsToPrintStmts :
    option (list Field) -> string -> Ptr -> G -> (list Expr * list Stmt * list Stmt) * G;
  MustPrettyPrintStmt : Stmt -> string;
  MustPrettyPrintDecl : Decl -> string;
  MustPrettyPrintIdent : string -> string
}.

Variable g : @Generator Ptr G.
Variable d : Driver.

(** The call depth given to each synthesis. *)
Variable fuel : nat.

(** Modelled from the spec: [NewRecursionInput] is not among the sources. The
    spec has a synthesis that inherits no ancestor's recursion budget start
    on a fresh cycle info; the maps of that synthesis are dropped when it
    returns. *)
Definition NewRecursionInput {A} (m : @M G A) : @M G A :=
  fun s =>
    match m (mkState FreshCycleInfo (oracle s) []) with
    | Ok a s' => Ok a (mkState (counter s) (oracle s') (Expanded s))
    | Panic => Panic
    | OutOfFuel => OutOfFuel
    end.

(** [values[g.Opts.ValGenerator.DecoratorIndex(len(values))].Call]; an index
    out of range panics. *)
Definition decoratorValue (values : list Expr) : @M G Expr :=
  do idx <- draw (ValGenerator_DecoratorIndex d (Z.of_nat (length values)));
  match (if (0 <=? idx)%Z then values !! Z.to_nat idx else None) with
  | Some v => ret v
  | None => panic
  end.

(** [hasVal && g.Opts.ValGenerator.DecoratorVal()]. *)
Definition useDecorator (hasVal : bool) : @M G bool :=
  if hasVal then draw (ValGenerator_DecoratorVal d) else ret false.

(** The body of the loop over [p.Names] in [FieldToAssignStmt]; the loop's
    variables are the four slices. *)
Definition assignParam (p : Field) (funcName : string) (pointer : Ptr)
    (acc : FieldToAssignRes) (param : string) : @M G FieldToAssignRes :=
  do name <- draw (VarGenerator_Generate g);
  let newIdent := lowerCaseFirstLetter g name in
  let fileName := fileNameOf d pointer in
  do decorated <- useDecorator (Deco_HasVal d fileName funcName param);
  if decorated then
    do value <- decoratorValue (Deco_GetVal d fileName funcName param);
    ret (mkAssignRes (Idents acc ++ [newIdent])
           (AssignStatements acc ++ [assignStmt (Ident newIdent None) value])
           (AssignDeclarations acc) (AssignChanIdents acc))
  else
    do recursionResult <-
      NewRecursionInput (TypeExprToValExpr g fuel (mkInput (FType p) newIdent pointer));
    ret (mkAssignRes (Idents acc ++ [newIdent])
           ((AssignStatements acc ++ Statements recursionResult) ++
              [assignStmt (Ident newIdent None) (ResExpr recursionResult)])
           (AssignDeclarations acc ++ Declarations recursionResult)
           (AssignChanIdents acc ++ ChanIdents recursionResult)).

(** FieldToAssignStmt converts a function parameter to an assignment field. *)
Definition FieldToAssignStmt (p : Field) (funcName : string) (pointer : Ptr)
    : @M G FieldToAssignRes :=
  foldM (assignParam p funcName pointer) (Names p) (mkAssignRes [] [] [] []).

(** The loop of [FieldToAssignStmts] and of [GetFuncReceiverStmts]. *)
Definition assignFields (fields : list Field) (funcName : string) (pointer : Ptr)
    : @M G FieldToAssignRes :=
  foldM (fun result p =>
           do res <- FieldToAssignStmt p funcName pointer;
           ret (AppendRes result res))
    fields (mkAssignRes [] [] [] []).

(** FieldToAssignStmts converts a parameter to assignment statements. The
    parameter list is a pointer: [params.List] of a nil list panics. *)
Definition FieldToAssignStmts (params : option (list Field)) (funcName : string)
    (pointer : Ptr) : @M G FieldToAssignRes :=
  match params with
  | None => panic
  | Some list => assignFields list funcName pointer
  end.

(** GetFuncReceiverStmts retrieve statements for receiver field. *)
Definition GetFuncReceiverStmts (recv : option (list Field)) (funcName : string)
    (pointer : Ptr) : @M G FieldToAssignRes :=
  match recv with
  | None => ret (mkAssignRes [] [] [] [])
  | Some list =>
      let fileName := fileNameOf d pointer in
      do decorated <- useDecorator (Deco_HasReceiverVal d fileName funcName);
      if decorated then
        do name <- draw (VarGenerator_Generate g);
        let newIdent := lowerCaseFirstLetter g name in
        do value <- decoratorValue (Deco_GetReceiverVal d fileName funcName);
        ret (mkAssignRes [newIdent] [assignStmt (Ident newIdent None) value] [] [])
      else assignFields list funcName pointer
  end.

(** FuncDeclToTestCase converts a function declaration to a list of
    assignment statements and declaration statements. [f.Type] is a function
    type. *)
Definition FuncDeclToTestCase (f : FuncDecl) (pointer : Ptr) : @M G TestCase :=
  do receiverResult <- GetFuncReceiverStmts (Recv f) (FuncName f) pointer;
  match FuncTyp f with
  | FuncType params results =>
      do fieldToAssignResult <- FieldToAssignStmts params (FuncName f) pointer;
      do '(identsPrint, resultStmts, resultUsages) <-
        draw (ResultsToPrintStmts d results (FuncName f) pointer);
      match FuncDeclToExprStmt f (Idents receiverResult) (Idents fieldToAssignResult)
              identsPrint with
      | None => panic
      | Some (funcStmt, funcPrintStmt) =>
          ret {| Pointer := pointer;
                 CaseFuncDecl := f;
                 Stmts := map (MustPrettyPrintStmt d)
                            (AssignStatements receiverResult ++
                               AssignStatements fieldToAssignResult);
                 Decls := map (MustPrettyPrintDecl d)
                            (AssignDeclarations receiverResult ++
                               AssignDeclarations fieldToAssignResult);
                 FuncStmt := MustPrettyPrintStmt d funcStmt;
                 ResultStmts := map (MustPrettyPrintStmt d) resultStmts;
                 ResultUsageStmts := map (MustPrettyPrintStmt d) resultUsages;
                 CaseChanIdents := map (MustPrettyPrintIdent d)
                                     (AssignChanIdents receiverResult) ++
                                   map (MustPrettyPrintIdent d)
                                     (AssignChanIdents fieldToAssignResult);
                 FuncPrintStmt := FuncPrintStmtOf (MustPrettyPrintStmt d) funcPrintStmt;
                 CaseRunTimeInfo := mkRunTimeInfo false false [] [] |}
      end
  | _ => panic
  end.

(** TypeToPrefix converts a function receiver type to a prefix. *)
Fixpoint TypeToPrefix (x : Expr) : @M G string :=
  match x with
  | Ident name _ => ret name
  | SelectorExpr x' _ => TypeToPrefix x'
  | StarExpr x' => TypeToPrefix x'
  | _ =>
      do name <- draw (VarGenerator_Generate g);
      ret (lowerCaseFirstLetter g name)
  end.

(** TestCasePrefix: in case of receiver create prefix. *)
Definition TestCasePrefix (funcDecl : FuncDecl) : @M G string :=
  match Recv funcDecl with
  | None => ret ""
  | Some [field] => TypeToPrefix (FType field)
  | Some _ =>
      do name <- draw (VarGenerator_Generate g);
      ret (lowerCaseFirstLetter g name)
  end.

(** The loop over [i] in [GetTestCasesForFunctionsInFile]. *)
Definition testCasesOf (t : FuncDecl) (pointer : Ptr) : @M G (list TestCase) :=
  forUpTo (TestCasesPerFunc d)
    (fun testCases =>
       if FuncName t =? "main" then ret testCases
       else if Deco_ShouldIgnoreFunc d (fileNameOf d pointer) (FuncName t)
       then ret testCases
       else
         do testCase <- FuncDeclToTestCase t pointer;
         ret (testCases ++ [testCase]))
    [].

(** GetTestCasesForFunctionsInFile convert given input ast file to a set of
    test cases per function. [decls] is [f.Decls]. *)
Definition GetTestCasesForFunctionsInFile (decls : list Decl) (pointer : Ptr)
    : @M G (gmap string (list TestCase)) :=
  foldM (fun res decl =>
           match decl with
           | FuncDeclD t =>
               do testCases <- testCasesOf t pointer;
               do prefix <- TestCasePrefix t;
               ret (<[prefix +:+ FuncName t := testCases]> res)
           | _ => ret res
           end)
    decls ∅.

End Driver.

(** *** The name of a file's test suite *)

(** [filepath.Ext] of the Go standard library, for the path separator [/]:
    the scan from the last byte of [path] down to the first, stopping at a
    separator, that returns the suffix from the first dot it meets. [r] is
    what is still to scan, last byte first, and [acc] what was scanned. *)
Fixpoint extScan (r acc : list ascii) : option (list ascii) :=
  match r with
  | [] => None
  | c :: r' =>
      if Ascii.eqb c "/" then None
      else if Ascii.eqb c "." then Some (c :: acc)
      else extScan r' (c :: acc)
  end.

Definition filepath_Ext (path : string) : string :=
  match extScan (rev (list_ascii_of_string path)) [] with
  | Some ext => string_of_list_ascii ext
  | None => ""
  end.

(** [strings.HasSuffix] and [strings.TrimSuffix] of the Go standard library. *)
Definition strings_HasSuffix (s suffix : string) : bool :=
  (String.length suffix <=? String.length s)%nat &&
  (String.substring (String.length s - String.length suffix) (String.length suffix) s
   =? suffix).

Definition strings_TrimSuffix (s suffix : string) : string :=
  if strings_HasSuffix s suffix
  then String.substring 0 (String.length s - String.length suffix) s
  else s.

(** The bytes that the expression [[^a-zA-Z0-9]+] does not match. A byte of
    a rune outside ASCII, and a byte that is no rune at all, is matched. *)
Definition isAlnum (c : ascii) : bool :=
  let n := nat_of_ascii c in
  (((48 <=? n) && (n <=? 57)) || ((65 <=? n) && (n <=? 90)) ||
   ((97 <=? n) && (n <=? 122)))%nat.

(** [regexp.MustCompile("[^a-zA-Z0-9]+").Split(s, -1)]: the pieces of [s]
    between the maximal runs of matched bytes, the empty pieces before a
    leading run and after a trailing one included. [inRun] says that the byte
    before was matched, and [cur] is the piece being read. *)
Fixpoint splitFrom (s : string) (inRun : bool) (cur : string) : list string :=
  match s with
  | EmptyString => [cur]
  | String c s' =>
      if isAlnum c then splitFrom s' false (cur +:+ String c EmptyString)
      else if inRun then splitFrom s' true cur
      else cur :: splitFrom s' true ""
  end.

Definition regexp_Split (s : string) : list string := splitFrom s false "".

(** [unicode.ToTitle] on a byte of ASCII. *)
Definition toTitleByte (c : ascii) : ascii :=
  let n := nat_of_ascii c in
  if ((97 <=? n) && (n <=? 122))%nat then ascii_of_nat (n - 32) else c.

(** [strings.Title] of the Go standard library on ASCII text: the first
    letter of every word in title case, where letters, digits and the
    underscore do not separate words. [SuiteName] calls it on pieces of ASCII
    letters and digits only. *)
Fixpoint titleFrom (prev : ascii) (s : string) : string :=
  match s with
  | EmptyString => EmptyString
  | String c s' =>
      String (if isAlnum prev || Ascii.eqb prev "_" then c else toTitleByte c)
        (titleFrom c s')
  end.

Definition Title (s : string) : string := titleFrom " " s.

Section SuiteNames.

Context {Ptr : Type}.

(** File: file contains test cases for functions of a given file. *)
Record File := mkFile {
  Version : string;
  PackageName : string;
  Dir : string;
  FileName : string;
  TestCases : gmap string (list (@TestCase Ptr))
}.

(** SuiteName returns the name of the test suite for this file. *)
Definition SuiteName (f : File) : string :=
  let ext := filepath_Ext (FileName f) in
  let fileWithoutExt := strings_TrimSuffix (FileName f) ext in
  let fileParts := regexp_Split fileWithoutExt in
  fold_left (fun res part => res +:+ Title part) fileParts "".

End SuiteNames.

(** Every byte of [s] is a letter or a digit of ASCII. *)
Fixpoint allAlnum (s : string) : bool :=
  match s with
  | EmptyString => true
  | String c s' => isAlnum c && allAlnum s'
  end.

(** [s] starts with a lower-case letter of ASCII. *)
Definition startsLowerAscii (s : string) : bool :=
  match s with
  | EmptyString => false
  | String c _ => let n := nat_of_ascii c in ((97 <=? n) && (n <=? 122))%nat
  end.

(** No byte of [s] is a dot or a path separator. *)
Fixpoint dotFree (s : string) : bool :=
  match s with
  | EmptyString => true
  | String c s' => negb (Ascii.eqb c ".") && negb (Ascii.eqb c "/") && dotFree s'
  end.
(** *** Sample inputs *)

Definition sampleFunc : FuncDecl :=
  mkFuncDecl None "Sum" (FuncType (Some []) (Some [mkField [] (Ident "int" None)])) [].

(** A small package. Its type specifications, by index:
    0 [type Node struct { Next *Node; Val int }],
    1 [type A struct { B *B }], 2 [type B struct { A *A }],
    3 [type Reader interface { Read() unresolved }],
    4 [type Handler func(chan<- unresolved)],
    5 [type Server struct { Handler; name string; Port int; h Handler }],
    6 [type Tree struct { Left, Right *Tree; Kids []Tree }]. *)
Definition identNode : Expr := Ident "Node" (Some (TypeSpecDecl 0)).
Definition identA : Expr := Ident "A" (Some (TypeSpecDecl 1)).
Definition identB : Expr := Ident "B" (Some (TypeSpecDecl 2)).
Definition identReader : Expr := Ident "Reader" (Some (TypeSpecDecl 3)).
Definition identHandler : Expr := Ident "Handler" (Some (TypeSpecDecl 4)).
Definition identServer : Expr := Ident "Server" (Some (TypeSpecDecl 5)).
Definition identTree : Expr := Ident "Tree" (Some (TypeSpecDecl 6)).

Definition structNode : Expr :=
  StructType 0 [mkField ["Next"] (StarExpr identNode); mkField ["Val"] (Ident "int" None)] false.
Definition structA : Expr := StructType 1 [mkField ["B"] (StarExpr identB)] false.
Definition structB : Expr := StructType 2 [mkField ["A"] (StarExpr identA)] false.
Definition interfaceReader : Expr :=
  InterfaceType 3
    [mkField ["Read"] (FuncType (Some []) (Some [mkField [] (Ident "unresolved" None)]))]
    false.
Definition funcHandler : Expr :=
  FuncType (Some [mkField [] (ChanType SEND (Ident "unresolved" None))]) None.
Definition structServer : Expr :=
  StructType 5
    [mkField [] identHandler; mkField ["name"] (Ident "string" None);
     mkField ["Port"] (Ident "int" None); mkField ["h"] identHandler] false.

Definition structTree : Expr :=
  StructType 6
    [mkField ["Left"; "Right"] (StarExpr identTree);
     mkField ["Kids"] (ArrayType NilExpr identTree)] false.

Definition sampleSpecs : list TypeSpec :=
  [mkTypeSpec "Node" structNode; mkTypeSpec "A" structA; mkTypeSpec "B" structB;
   mkTypeSpec "Reader" interfaceReader; mkTypeSpec "Handler" funcHandler;
   mkTypeSpec "Server" structServer; mkTypeSpec "Tree" structTree].

Definition letter (n : nat) : string :=
  String (ascii_of_nat (97 + n mod 26)) EmptyString.

(** A generator over that package. A pointer is a package name, the empty
    one for the root package; the generators' state is a counter. Names are
    letters in turn, booleans alternate, slices have two elements and maps
    three entries; the interface [Reader] and the function type [Handler]
    (by its identifier or its type) are the ungeneratable ones. *)
Definition sampleGenerator (maxRecursion : Z) : @Generator string nat :=
  {| MaxRecursion := maxRecursion;
     TypeSpecs := sampleSpecs;
     FindInCurrent := fun p _ => (false, NilExpr, p);
     FindImport := fun p _ _ => (false, NilExpr, p);
     IsRoot := fun p => p =? "";
     PkgForPointer_Name := fun p => p;
     VarGenerator_Generate := fun n => (letter n, S n);
     ValGenerator_ArrayLen := fun _ n => (2%Z, n);
     ValGenerator_MapLen := fun n => (3%Z, n);
     ValGenerator_Type := fun n => ("int", n);
     CorrectTypeExpr := fun x _ => x;
     ShouldReturnForInterface :=
       fun x _ => match x with InterfaceType 3 _ _ => true | _ => false end;
     ShouldReturnForFunc :=
       fun x _ => match x with
                  | FuncType (Some [mkField _ (ChanType _ _)]) _ => true
                  | Ident name _ => name =? "Handler"
                  | _ => false
                  end;
     IsBasicLit := fun name => (name =? "int") || (name =? "string") || (name =? "bool");
     IsError := fun name => name =? "error";
     BasicExprToValExpr :=
       fun ty n =>
         (BasicLit (if ty =? "bool" then (if Nat.even (n / 2) then "true" else "false")
                    else "0"), S n);
     ErrExprToValExpr := fun n => (mkRes (Ident "nil" None) [] [] [] [] [], n);
     GetUnnamedStructIdent :=
       fun x _ => match x with
                  | Ident name _ => name
                  | StarExpr (Ident name _) => name
                  | SelectorExpr _ sel => sel
                  | _ => ""
                  end;
     InterfaceGenDecl :=
       fun _ name => GenDecl TYPE [TypeSpecS (mkTypeSpec name (StructType 100 [] false))];
     getArrayLen := fun _ => 0%Z;
     lowerCaseFirstLetter := fun x => x;
     strings_Title := fun x => x;
     PrintExpr := fun x => match x with
                           | BasicLit v => v
                           | Ident name _ => name
                           | _ => "?"
                           end |}.

(** The same generator in a package that imports [io]: [io.Reader] resolves
    to the interface [Reader], and [io.Handler] to the function type
    [Handler], both met at the pointer of the package [io]. *)
Definition importingGenerator (maxRecursion : Z) : @Generator string nat :=
  let g := sampleGenerator maxRecursion in
  {| MaxRecursion := MaxRecursion g;
     TypeSpecs := TypeSpecs g;
     FindInCurrent := FindInCurrent g;
     FindImport :=
       fun p x sel =>
         if (x =? "io") && (sel =? "Reader") then (true, interfaceReader, "io")
         else if (x =? "io") && (sel =? "Handler") then (true, funcHandler, "io")
         else (false, NilExpr, p);
     IsRoot := IsRoot g;
     PkgForPointer_Name := PkgForPointer_Name g;
     VarGenerator_Generate := VarGenerator_Generate g;
     ValGenerator_ArrayLen := ValGenerator_ArrayLen g;
     ValGenerator_MapLen := ValGenerator_MapLen g;
     ValGenerator_Type := ValGenerator_Type g;
     CorrectTypeExpr := CorrectTypeExpr g;
     ShouldReturnForInterface := ShouldReturnForInterface g;
     ShouldReturnForFunc := ShouldReturnForFunc g;
     IsBasicLit := IsBasicLit g;
     IsError := IsError g;
     BasicExprToValExpr := BasicExprToValExpr g;
     ErrExprToValExpr := ErrExprToValExpr g;
     GetUnnamedStructIdent := GetUnnamedStructIdent g;
     InterfaceGenDecl := InterfaceGenDecl g;
     getArrayLen := getArrayLen g;
     lowerCaseFirstLetter := lowerCaseFirstLetter g;
     strings_Title := strings_Title g;
     PrintExpr := PrintExpr g |}.

(** [io.Reader] and [io.Handler], as written in the importing package. *)
Definition selectorReader : Expr := SelectorExpr (Ident "io" None) "Reader".
Definition selectorHandler : Expr := SelectorExpr (Ident "io" None) "Handler".

(** A driver over that package: two test cases per function; the parameter
    named [fixed] has one decorator value, which the value generator always
    takes; the function named [skipped] is ignored; results are printed
    through one identifier, [res], when there are results. *)
Definition sampleDriver : @Driver string nat :=
  {| TestCasesPerFunc := 2;
     ValGenerator_DecoratorVal := fun n => (true, n);
     ValGenerator_DecoratorIndex := fun _ n => (0%Z, n);
     fileNameOf := fun _ => "sample.go";
     Deco_HasVal := fun _ _ param => param =? "fixed";
     Deco_GetVal := fun _ _ _ => [BasicLit "1"];
     Deco_HasReceiverVal := fun _ _ => false;
     Deco_GetReceiverVal := fun _ _ => [];
     Deco_ShouldIgnoreFunc := fun _ funcName => funcName =? "skipped";
     ResultsToPrintStmts :=
       fun results _ _ n =>
         match results with
         | Some (_ :: _) => ([Ident "res" None], [], [], n)
         | _ => ([], [], [], n)
         end;
     MustPrettyPrintStmt :=
       fun s => match s with
                | AssignStmt [Ident x _] DEFINE _ => x +:+ " := ..."
                | AssignStmt _ _ _ => "... = ..."
                | ReturnStmt _ => "return ..."
                | ExprStmt _ => "call(...)"
                end;
     MustPrettyPrintDecl := fun _ => "decl";
     MustPrettyPrintIdent := fun x => x |}.

(** [func (n *Node) Walk(depth, fixed int, int) bool] *)
Definition sampleMethod : FuncDecl :=
  mkFuncDecl (Some [mkField ["n"] (StarExpr identNode)]) "Walk"
    (FuncType
       (Some [mkField ["depth"; "fixed"] (Ident "int" None); mkField [] (Ident "int" None)])
       (Some [mkField [] (Ident "bool" None)]))
    [].

(** The declarations of a file: a type, [main], an ignored function, a
    function and a method. *)
Definition sampleDecls : list Decl :=
  [GenDecl TYPE [TypeSpecS (mkTypeSpec "Node" structNode)];
   FuncDeclD (mkFuncDecl None "main" (FuncType (Some []) None) []);
   FuncDeclD (mkFuncDecl None "skipped" (FuncType (Some []) None) []);
   FuncDeclD sampleFunc;
   FuncDeclD sampleMethod].

(** [interface { Read() (int, error); Close() }] *)
Definition interfaceReadCloser : Expr :=
  InterfaceType 9
    [mkField ["Read"]
       (FuncType (Some []) (Some [mkField [] (Ident "int" None);
                                  mkField [] (Ident "error" None)]));
     mkField ["Close"] (FuncType (Some []) None)]
    false.

(** [interface { Stringer }], with [Stringer] declared in another file. *)
Definition interfaceEmbedding : Expr :=
  InterfaceType 10 [mkField [] (Ident "Stringer" None)] false.

(** [func() (a, b int, bool)] *)
Definition funcThreeResults : Expr :=
  FuncType (Some [])
    (Some [mkField ["a"; "b"] (Ident "int" None); mkField [] (Ident "bool" None)]).

(** [func() chan<- int] *)
Definition funcReturningChan : Expr :=
  FuncType (Some []) (Some [mkField [] (ChanType SEND (Ident "int" None))]).

(** A state in which the interface at address 9 was met three times and has
    the declaration of [Impl] as its memo. *)
Definition stateAfterThree : @State nat :=
  mkState
    (mkCycleInfo ∅ ∅ {[9%nat := 3%Z]} ∅
       {[9%nat := GenDecl TYPE [TypeSpecS (mkTypeSpec "Impl" (StructType 100 [] false))]]})
    0%nat [].

(** The file [my_file.go] of the sample package. *)
Definition sampleFile : @File string :=
  mkFile "v1" "sample" "/src/sample" "my_file.go" ∅.
(** *** Vocabulary of the properties *)

Section Vocabulary.

Context {Ptr G : Type}.

(** [holds fail out Q]: the outcome is a result that satisfies [Q]; [fail]
    says what a panic or an exhausted call depth count as. *)
Definition holds {A} (fail : Prop) (out : @Outcome G A) (Q : A -> @State G -> Prop) : Prop :=
  match out with
  | Ok a s => Q a s
  | _ => fail
  end.

(** The cycle maps and the expansion record only grow: counters do not
    decrease, memo entries stay as they are, expansions are added in front. *)
Definition le_state (s s' : @State G) : Prop :=
  (forall n, (count (Structs (counter s)) n <= count (Structs (counter s')) n)%Z) /\
  (forall a, (countAt (Interfaces (counter s)) a <= countAt (Interfaces (counter s')) a)%Z) /\
  StructMem (counter s) ⊆ StructMem (counter s') /\
  InterfaceMem (counter s) ⊆ InterfaceMem (counter s') /\
  Expanded s `suffix_of` Expanded s'.

(** A computation that only lets the state grow. *)
Definition mono {A} (m : @M G A) : Prop :=
  forall s, holds True (m s) (fun _ s' => le_state s s').

(** The first byte of [name] is a lower-case letter. *)
Definition startsLower (name : string) : bool :=
  match name with
  | String b _ => isLowerByte b
  | EmptyString => false
  end.

(** The fields of a struct that are kept, with the name each is entered
    under, in the order of the declaration: an embedded field, under the
    name derived from its type, unless that name is unexported outside the
    root package; each name of a named field, unless it is unexported outside
    the root package or the field's type is an ungeneratable function. *)
Definition keptEntries (g : @Generator Ptr G) (input : @RecursionInput Ptr)
    (field : Field) : list (string * Expr) :=
  let unexported name := negb (IsRoot g (pkgPointer input)) && startsLower name in
  if (length (Names field) =? 0)%nat then
    let n := GetUnnamedStructIdent g (FType field) input in
    if unexported n then [] else [(n, FType field)]
  else if ShouldReturnForFunc g (FType field)
            (mkInput (FType field) (varName input) (pkgPointer input))
  then []
  else map (fun name => (name, FType field))
         (List.filter (fun name => negb (unexported name)) (Names field)).

(** The recursion on a kept entry, and the key/value pair it adds. *)
Definition keptEntry (rec : @RecursionInput Ptr -> @M G TypeExprToValExprRes)
    (input : @RecursionInput Ptr) (acc : TypeExprToValExprRes * list Expr)
    (nt : string * Expr) : @M G (TypeExprToValExprRes * list Expr) :=
  fieldEntry rec input (snd nt) (fst nt) acc.

(** No name that [skipsUnexported] indexes is empty. *)
Definition namesIndexable (g : @Generator Ptr G) (input : @RecursionInput Ptr)
    (fields : list Field) : Prop :=
  IsRoot g (pkgPointer input) = true \/
  forall field, In field fields ->
    (Names field = [] -> GetUnnamedStructIdent g (FType field) input <> "") /\
    (forall name, In name (Names field) -> name <> "").

(** The fields as the specification has them kept: as [keptEntries], with an embedded
    field also dropped when its type is an ungeneratable function. *)
Definition keptEntriesClaimed (g : @Generator Ptr G) (input : @RecursionInput Ptr)
    (field : Field) : list (string * Expr) :=
  if ShouldReturnForFunc g (FType field)
       (mkInput (FType field) (varName input) (pkgPointer input))
  then []
  else keptEntries g input field.

(** The key of an entry of a composite literal. *)
Definition entryKey (x : Expr) : Expr :=
  match x with
  | KeyValueExpr k _ => k
  | _ => x
  end.

Definition isKeyValueExpr (x : Expr) : bool :=
  match x with
  | KeyValueExpr _ _ => true
  | _ => false
  end.

(** *** Type graphs whose cycles pass through the cycle guard *)

(** A call of one of the two recursive functions, up to the variable name:
    [TypeExprToValExpr] on a type expression, or the loop of
    [InterfaceTypeToFuncImpl] over a method list, at a package pointer. *)
Inductive Call : Type :=
| TypeCall (x : Expr) (p : Ptr)
| ImplCall (methods : list Field) (p : Ptr).

(** Type expressions on which [TypeExprToValExpr] makes no deeper call. *)
Definition isLeafType (x : Expr) : bool :=
  match x with
  | NilExpr | BasicLit _ | ChanType _ _ | CompositeLit _ _ | KeyValueExpr _ _
  | CallExpr _ _ | FuncLit _ _ | UnaryExpr _ _ | OtherExpr => true
  | Ident _ (Some OtherDecl) => true
  | InterfaceType _ [] _ => true
  | SelectorExpr (Ident _ _) _ => false
  | SelectorExpr _ _ => true
  | _ => false
  end.

Definition isStructType (x : Expr) : bool :=
  match x with StructType _ _ _ => true | _ => false end.

Definition structAddr (x : Expr) : nat :=
  match x with StructType addr _ _ => addr | _ => O end.

(** Method entries that the loop of [InterfaceTypeToFuncImpl] passes over. *)
Definition isSkippedMethod (x : Expr) : bool :=
  match x with
  | FuncType _ _ | Ident _ None | Ident _ (Some (TypeSpecDecl _)) => false
  | SelectorExpr _ _ => false
  | _ => true
  end.


(** No field name that the lower-case test indexes is empty. *)
Definition fieldsIndexable (g : @Generator Ptr G) (p : Ptr) (fields : list Field) : Prop :=
  IsRoot g p = true \/
  forall field, In field fields ->
    (Names field = [] ->
       forall input, GetUnnamedStructIdent g (FType field) input <> "") /\
    (forall name, In name (Names field) -> name <> "").

Section GuardedCalls.

Variable g : @Generator Ptr G.

(** [U]: the inputs on which named structs are expanded; [UI]: the
    interfaces with methods that are implemented, with the pointer they are
    met at. *)
Variable U : list (@RecursionInput Ptr).
Variable UI : list (nat * list Field * Ptr).

(** [Guarded c]: every chain of calls from [c] reaches, after finitely many
    calls, a leaf, a named struct of [U] or an interface of [UI]; the calls
    it goes through do not panic. The rules follow the case analysis of
    [TypeExprToValExpr] and of the loop of [InterfaceTypeToFuncImpl]. *)
Inductive Guarded : Call -> Prop :=
| Guarded_leaf x p :
    isLeafType x = true -> Guarded (TypeCall x p)
| Guarded_basic name p :
    IsBasicLit g name = true \/ IsError g name = true ->
    Guarded (TypeCall (Ident name None) p)
| Guarded_resolved name p found x p' :
    FindInCurrent g p name = (found, x, p') ->
    Guarded (TypeCall x p') ->
    Guarded (TypeCall (Ident name None) p)
| Guarded_no_spec name k p :
    TypeSpecs g !! k = None ->
    Guarded (TypeCall (Ident name (Some (TypeSpecDecl k))) p)
| Guarded_named_struct name k ts p :
    TypeSpecs g !! k = Some ts ->
    isStructType (SpecType ts) = true ->
    In (mkInput (SpecType ts) (SpecName ts) p) U ->
    Guarded (TypeCall (Ident name (Some (TypeSpecDecl k))) p)
| Guarded_named name k ts p :
    TypeSpecs g !! k = Some ts ->
    isStructType (SpecType ts) = false ->
    Guarded (TypeCall (SpecType ts) p) ->
    Guarded (TypeCall (Ident name (Some (TypeSpecDecl k))) p)
| Guarded_star x p :
    Guarded (TypeCall x p) -> Guarded (TypeCall (StarExpr x) p)
| Guarded_array len elt p :
    Guarded (TypeCall elt p) -> Guarded (TypeCall (ArrayType len elt) p)
| Guarded_map key value p :
    Guarded (TypeCall key p) -> Guarded (TypeCall value p) ->
    Guarded (TypeCall (MapType key value) p)
| Guarded_ellipsis elt p :
    Guarded (TypeCall elt p) -> Guarded (TypeCall (Ellipsis elt) p)
| Guarded_func params results p :
    (forall list res, results = Some list -> In res list ->
       Guarded (TypeCall (FType res) p)) ->
    Guarded (TypeCall (FuncType params results) p)
| Guarded_interface addr method methods incomplete p :
    In (addr, method :: methods, p) UI ->
    Guarded (TypeCall (InterfaceType addr (method :: methods) incomplete) p)
| Guarded_selector x obj sel p found y p' :
    FindImport g p x sel = (found, y, p') ->
    (found = true -> Guarded (TypeCall y p')) ->
    Guarded (TypeCall (SelectorExpr (Ident x obj) sel) p)
| Guarded_struct addr fields incomplete p :
    fieldsIndexable g p fields ->
    (forall field, In field fields -> Guarded (TypeCall (FType field) p)) ->
    Guarded (TypeCall (StructType addr fields incomplete) p)
| Guarded_impl_nil p :
    Guarded (ImplCall [] p)
| Guarded_impl_func method rest p params results :
    FType method = FuncType params results ->
    Names method <> [] ->
    (forall list res, results = Some list -> In res list ->
       Guarded (TypeCall (FType res) p)) ->
    Guarded (ImplCall rest p) ->
    Guarded (ImplCall (method :: rest) p)
| Guarded_impl_embedded method rest p name k :
    FType method = Ident name (Some (TypeSpecDecl k)) ->
    (forall ts addr methods incomplete,
       TypeSpecs g !! k = Some ts ->
       SpecType ts = InterfaceType addr methods incomplete ->
       Guarded (ImplCall methods p)) ->
    Guarded (ImplCall rest p) ->
    Guarded (ImplCall (method :: rest) p)
| Guarded_impl_selector method rest p x obj sel found y p' :
    FType method = SelectorExpr (Ident x obj) sel ->
    FindImport g p x sel = (found, y, p') ->
    (forall addr methods incomplete,
       found = true -> y = InterfaceType addr methods incomplete ->
       Guarded (ImplCall methods p)) ->
    (found = true -> Guarded (ImplCall rest p)) ->
    Guarded (ImplCall (method :: rest) p)
| Guarded_impl_skip method rest p :
    isSkippedMethod (FType method) = true ->
    Guarded (ImplCall rest p) ->
    Guarded (ImplCall (method :: rest) p).

(** The type graph is closed: the fields of every struct of [U] and the
    methods of every interface of [UI] are guarded; two structs of [U] that
    are counted under one name are one struct; and the declaration that
    [InterfaceGenDecl] builds is a type declaration. *)
Definition closedUniverse : Prop :=
  (forall u, In u U ->
     exists addr fields incomplete,
       e u = StructType addr fields incomplete /\
       fieldsIndexable g (pkgPointer u) fields /\
       forall field, In field fields -> Guarded (TypeCall (FType field) (pkgPointer u))) /\
  (forall addr methods p, In (addr, methods, p) UI -> Guarded (ImplCall methods p)) /\
  (forall u1 u2, In u1 U -> In u2 U ->
     counterName g u1 = counterName g u2 -> structAddr (e u1) = structAddr (e u2)) /\
  (forall input name, exists tok y rest,
     InterfaceGenDecl g input name = GenDecl tok (TypeSpecS y :: rest)).

(** What a struct of [U] and an interface of [UI] can still add to the
    expansions: the occurrences left below the maximum, and one more while
    no memo is stored. *)
Definition structBudget (s : @State G) (u : @RecursionInput Ptr) : nat :=
  Z.to_nat (MaxRecursion g - count (Structs (counter s)) (counterName g u)) +
  match StructMem (counter s) !! structAddr (e u) with Some _ => 0 | None => 1 end.

Definition interfaceBudget (s : @State G) (i : nat * list Field * Ptr) : nat :=
  Z.to_nat (MaxRecursion g - countAt (Interfaces (counter s)) (fst (fst i))) +
  match InterfaceMem (counter s) !! fst (fst i) with Some _ => 0 | None => 1 end.

Definition budget (s : @State G) : nat :=
  list_sum (map (structBudget s) U) + list_sum (map (interfaceBudget s) UI).

(** The expansions recorded under a counter name. *)
Definition expansionsOf (s : @State G) (name : string) : nat :=
  count_occ string_dec (Expanded s) name.

(** The invariant of a synthesis over a closed universe: the budget is at
    most [b]; under each counter name, the expansions are at most the
    occurrences counted and at most the maximum (at most one, when the
    maximum is below one: the first encounter finds no memo and expands),
    and the memo is stored once an occurrence is counted; every stored
    interface memo is a type declaration. *)
Definition withinBudget (b : nat) (s : @State G) : Prop :=
  (budget s <= b)%nat /\
  (forall u, In u U ->
     (Z.of_nat (expansionsOf s (counterName g u)) <=
        Z.min (count (Structs (counter s)) (counterName g u))
          (Z.max 1 (MaxRecursion g)))%Z /\
     ((1 <= count (Structs (counter s)) (counterName g u))%Z ->
        is_Some (StructMem (counter s) !! structAddr (e u)))) /\
  (forall addr d, InterfaceMem (counter s) !! addr = Some d ->
     exists tok y rest, d = GenDecl tok (TypeSpecS y :: rest)).

End GuardedCalls.

(** A computation that, from a state satisfying [P], returns a result in a
    state satisfying [P]: it neither panics nor exhausts the call depth. *)
Definition safe {A} (P : @State G -> Prop) (m : @M G A) : Prop :=
  forall s, P s -> holds False (m s) (fun _ s' => P s').

(** The call [c] is safe at call depth [fuel], whatever the variable name
    and, for a method loop, whatever the input, the implementing identifier
    and the result so far. *)
Definition safeCall (g : @Generator Ptr G) (P : @State G -> Prop) (fuel : nat)
    (c : Call) : Prop :=
  match c with
  | TypeCall x p => forall v, safe P (TypeExprToValExpr g fuel (mkInput x v p))
  | ImplCall methods p =>
      forall input ident result, pkgPointer input = p ->
        safe P (methodsLoop g (TypeExprToValExpr g fuel) (InterfaceTypeToFuncImpl g fuel)
                  input ident methods result)
  end.

End Vocabulary.


(** *** Vocabulary of the driver's and of further properties *)

Section DriverVocabulary.

Context {Ptr G : Type}.

(** Whenever [m] returns, what it returns satisfies [Q]. *)
Definition yields {A} (m : @M G A) (Q : A -> Prop) : Prop :=
  forall s, holds True (m s) (fun a _ => Q a).

(** [m] returns from every state: it neither panics nor exhausts the call
    depth. *)
Definition total {A} (m : @M G A) : Prop :=
  forall s, exists a s', m s = Ok a s'.

(** The index that the value generator chooses among the decorator's values
    of a parameter, or of a receiver, is an index of one of them. *)
Definition decoratorsInRange (d : @Driver Ptr G) : Prop :=
  (forall fileName funcName param o,
     Deco_HasVal d fileName funcName param = true ->
     (0 <= fst (ValGenerator_DecoratorIndex d
                  (Z.of_nat (length (Deco_GetVal d fileName funcName param))) o) <
      Z.of_nat (length (Deco_GetVal d fileName funcName param)))%Z) /\
  (forall fileName funcName o,
     Deco_HasReceiverVal d fileName funcName = true ->
     (0 <= fst (ValGenerator_DecoratorIndex d
                  (Z.of_nat (length (Deco_GetReceiverVal d fileName funcName))) o) <
      Z.of_nat (length (Deco_GetReceiverVal d fileName funcName)))%Z).

(** The receiver fields and the parameter fields of a function declaration
    whose type is a function type with a parameter list. *)
Definition signatureFields (f : FuncDecl) : option (list Field) :=
  match FuncTyp f with
  | FuncType (Some params) _ => Some (default [] (Recv f) ++ params)
  | _ => None
  end.

(** Every identifier of the result is defined by one of its statements. *)
Definition identsDefined (r : FieldToAssignRes) : Prop :=
  Forall (fun x => exists v, In (assignStmt (Ident x None) v) (AssignStatements r))
    (Idents r).

(** The receiver list has one field, which has one name. *)
Definition hasNamedReceiver (f : FuncDecl) : bool :=
  match Recv f with
  | Some [mkField [_] _] => true
  | _ => false
  end.

(** The identifier under the stars and selectors of a receiver type. *)
Fixpoint baseName (x : Expr) : option string :=
  match x with
  | Ident name _ => Some name
  | SelectorExpr x' _ => baseName x'
  | StarExpr x' => baseName x'
  | _ => None
  end.

(** The prefix of a function without receiver, or with one receiver field
    whose type has a base name. *)
Definition prefixOf (f : FuncDecl) : option string :=
  match Recv f with
  | None => Some ""
  | Some [field] => baseName (FType field)
  | Some _ => None
  end.

(** The number of test cases made for a function. *)
Definition caseCount (d : @Driver Ptr G) (pointer : Ptr) (f : FuncDecl) : nat :=
  if (FuncName f =? "main") || Deco_ShouldIgnoreFunc d (fileNameOf d pointer) (FuncName f)
  then 0 else Z.to_nat (TestCasesPerFunc d).

(** The number of values a function type returns: one for each name of each
    result field, and one for a result field without a name. *)
Definition resultArity (results : option (list Field)) : nat :=
  match results with
  | None => 0
  | Some list => list_sum (map (fun res => Nat.max 1 (length (Names res))) list)
  end.

(** A statement [x := v] that defines one identifier. *)
Definition isDefine (s : Stmt) : bool :=
  match s with
  | AssignStmt [Ident _ _] DEFINE [_] => true
  | _ => false
  end.

(** Every statement of the result defines one identifier. *)
Definition definesOnly (r : TypeExprToValExprRes) : Prop :=
  Forall (fun s => isDefine s = true) (Statements r).

(** Statements that end by returning [n] identifiers, each of them defined by
    one of the statements before. *)
Definition returnsDefined (stmts : list Stmt) (n : nat) : Prop :=
  exists body retVars,
    stmts = body ++ [ReturnStmt retVars] /\ length retVars = n /\
    Forall (fun x => exists name v,
              x = Ident name None /\ In (assignStmt (Ident name None) v) body)
      retVars.

(** The expressions for which [TypeExprToValExpr] has no case. *)
Definition isUnsupported (x : Expr) : bool :=
  match x with
  | NilExpr | BasicLit _ | CompositeLit _ _ | KeyValueExpr _ _ | CallExpr _ _
  | FuncLit _ _ | UnaryExpr _ _ | OtherExpr => true
  | Ident _ (Some OtherDecl) => true
  | _ => false
  end.

Definition isFuncType (x : Expr) : bool :=
  match x with FuncType _ _ => true | _ => false end.

(** The type of a synthesized method: the corrected type of the interface's
    method when that is a function type, the method's own type otherwise. *)
Definition methodType (g : @Generator Ptr G) (input : @RecursionInput Ptr)
    (funcType : Expr) : Expr :=
  match CorrectTypeExpr g funcType input with
  | FuncType _ _ as x => x
  | _ => funcType
  end.

(** [decls] holds a method on [*interfaceImplIdent] for the interface method
    [method]: it has the method's first name and type, and its body returns
    as many values as the type has results. *)
Definition implementsMethod (g : @Generator Ptr G) (input : @RecursionInput Ptr)
    (interfaceImplIdent : string) (decls : list Decl) (method : Field) : Prop :=
  exists name names params results body,
    Names method = name :: names /\
    FType method = FuncType params results /\
    In (FuncDeclD (mkFuncDecl (implReceiver interfaceImplIdent) name
                     (methodType g input (FType method)) body)) decls /\
    returnsDefined body (resultArity results).

End DriverVocabulary.
End Gen.
(** * Properties *)

(** ** The runtime capture decoder *)

Section DecoderFacts.

Import Runtime.

Variable strings_ReplaceAll : string -> string -> string -> string.

Local Abbreviation AssertStmts := (Runtime.AssertStmts strings_ReplaceAll).
Local Abbreviation CreateAssertStmts := (Runtime.CreateAssertStmts strings_ReplaceAll).
Local Abbreviation replaceStmts := (Runtime.replaceStmts strings_ReplaceAll).
Local Abbreviation replaceVarName := (Runtime.replaceVarName strings_ReplaceAll).

Lemma prefix_cons (a b : ascii) (s1 s2 : string) :
  String.prefix (String a s1) (String b s2) = Ascii.eqb a b && String.prefix s1 s2.
Proof.
  cbn [String.prefix]. destruct (Ascii.ascii_dec a b) as [->|Hab].
  - now rewrite Ascii.eqb_refl.
  - apply Ascii.eqb_neq in Hab. now rewrite Hab.
Qed.

Lemma append_nil_l (t : string) : "" +:+ t = t.
Proof. reflexivity. Qed.

Lemma append_cons_l (a : ascii) (s t : string) :
  String a s +:+ t = String a (s +:+ t).
Proof. reflexivity. Qed.

Lemma prefix_declHead (n c p : string) :
  spaceFree n = true -> spaceFree c = true ->
  String.prefix (declHead n) (pointerStmtText c p) = true <-> n = c.
Proof.
  unfold declHead, pointerStmtText.
  revert c; induction n as [|a n IH]; intros [|b c] Hn Hc;
    cbn [spaceFree] in *; rewrite ?append_nil_l, ?append_cons_l.
  - rewrite !prefix_cons. split; reflexivity.
  - apply andb_prop in Hc as [Hb _]. rewrite prefix_cons.
    destruct (Ascii.eqb_spec " " b) as [<-|]; [discriminate|].
    split; intros ?; discriminate.
  - apply andb_prop in Hn as [Ha _]. rewrite prefix_cons.
    destruct (Ascii.eqb_spec a " ") as [->|]; [discriminate|].
    split; intros ?; discriminate.
  - apply andb_prop in Hn as [_ Hn]. apply andb_prop in Hc as [_ Hc].
    rewrite prefix_cons.
    destruct (Ascii.eqb_spec a b) as [->|Hab]; cbn [andb].
    + rewrite (IH c Hn Hc). split; congruence.
    + split; intros ?; [discriminate | congruence].
Qed.

Lemma Contains_heads (names : list string) (c p : string) :
  Forall (fun n => spaceFree n = true) names -> spaceFree c = true ->
  Contains (map declHead names) (pointerStmtText c p) = true <-> In c names.
Proof.
  intros Hnames Hc. unfold Contains. rewrite existsb_exists. split.
  - intros (m & Hm & Hpre). apply in_map_iff in Hm as (n & <- & Hin).
    rewrite Forall_forall in Hnames.
    apply prefix_declHead in Hpre; [subst; exact Hin | | exact Hc].
    apply Hnames. apply list_elem_of_In. exact Hin.
  - intros Hin. exists (declHead c). split; [apply in_map; exact Hin|].
    apply prefix_declHead; auto.
Qed.

(** One unfolding of [AssertStmts] at a pointer node that has a child. *)
Lemma AssertStmts_pointer (data child : Output) replacements tc resStmts mem :
  Typ data = "pointer" -> Child data = Some child ->
  AssertStmts data replacements tc resStmts mem =
    if negb (Val data =? "nil") then
      if negb (Contains mem (pointerStmtText (VarName child) (VarName data))) then
        AssertStmts child replacements tc
          (resStmts ++ [AssignStmt AssignStmtTypeDefine (VarName child) ("*" +:+ VarName data)])
          (mem ++ [declHead (VarName child)])
      else
        AssertStmts child replacements tc
          (resStmts ++ [AssignStmt AssignSTmtTypeAssign (VarName child) ("*" +:+ VarName data)])
          mem
    else AssertStmts child replacements tc resStmts mem.
Proof.
  destruct data as [ty vn mk v ai ch]; cbn [Typ Child Val VarName].
  intros -> ->. reflexivity.
Qed.

(** One unfolding of [AssertStmts] at a node without a child. *)
Lemma AssertStmts_leaf (data : Output) replacements tc resStmts mem :
  Child data = None ->
  AssertStmts data replacements tc resStmts mem =
    (fst (CreateAssertStmts data replacements tc resStmts), mem,
     snd (CreateAssertStmts data replacements tc resStmts)).
Proof.
  destruct data as [ty vn mk v ai ch]; cbn [Child]. intros ->.
  cbn [AssertStmts Child]. destruct (CreateAssertStmts _ _ _ _); reflexivity.
Qed.


(** C7. A pointer node whose value is the nil sentinel: with a child, the
    decoding continues in the child with the statements and [mem] unchanged;
    without a child, the result is the statements so far (with the
    replacements applied) followed by one nil assertion on the node's
    variable name, which at the top level is that assertion alone. *)
Theorem nil_pointer_node (data : Output) replacements tc resStmts mem :
  Typ data = "pointer" -> Val data = "nil" ->
  (forall child, Child data = Some child ->
     AssertStmts data replacements tc resStmts mem =
       AssertStmts child replacements tc resStmts mem) /\
  (Child data = None ->
     AssertStmts data replacements tc resStmts mem =
       (replaceStmts replacements resStmts ++
          [AssertStmt AssertStmtTypeNil
             (replaceVarName replacements (VarName data)) ""],
        mem, []) /\
     AssertStmts data [] tc [] mem =
       ([AssertStmt AssertStmtTypeNil (VarName data) ""], mem, [])).
Proof.
  intros Hty Hval. split.
  - intros child Hchild.
    rewrite (AssertStmts_pointer data child) by assumption.
    rewrite Hval. reflexivity.
  - intros Hchild. rewrite !AssertStmts_leaf by assumption.
    unfold CreateAssertStmts. rewrite Hty. split; reflexivity.
Qed.

End DecoderFacts.

Section DecoderRuns.

Import Runtime.

Example scenario_A :
  AssertStmts replaceAll captureA [] noCorrection [] [] =
    ([AssertStmt AssertStmtTypeEqualValues "int(42)" "x"], [], []).
Proof. reflexivity. Qed.

Example scenario_B_first :
  AssertStmts replaceAll captureB [] noCorrection [] [] =
    ([AssignStmt AssignStmtTypeDefine "y" "*p";
      AssertStmt AssertStmtTypeEqualValues "int(7)" "y"], ["y :="], []).
Proof. reflexivity. Qed.

(** An array loop around a leaf: the loop identifier is replaced by the index. *)
Example array_loop_replacement :
  AssertStmts replaceAll
    (mkOutput "arr" "xs" "" "2" "i" (Some (mkOutput "int" "xs[i]" "" "5" "" None)))
    [] noCorrection [] [] =
    ([AssertStmt AssertStmtTypeEqualValues "int(5)" "xs[2]"], [], []).
Proof. reflexivity. Qed.


Lemma nil_pointer_node_witness :
  Typ (mkOutput "pointer" "p" "" "nil" "" None) = "pointer" /\
  Val (mkOutput "pointer" "p" "" "nil" "" None) = "nil" /\
  AssertStmts replaceAll (mkOutput "pointer" "p" "" "nil" "" None) [] noCorrection [] [] =
    ([AssertStmt AssertStmtTypeNil "p" ""], [], []).
Proof.
  split; [reflexivity|]. split; [reflexivity|].
  apply (nil_pointer_node replaceAll (mkOutput "pointer" "p" "" "nil" "" None)
           [] noCorrection [] [] eq_refl eq_refl).
  reflexivity.
Defined.

End DecoderRuns.

(** ** The determinism validator *)

Section ValidatorFacts.

Import Gen.

Lemma mismatchFrom_false (a b : list string) (n i : nat) :
  mismatchFrom a b i n = false <->
  forall j, (i <= j < i + n)%nat -> nth j a "" = nth j b "".
Proof.
  revert i; induction n as [|n IH]; intros i; cbn [mismatchFrom].
  - split; [intros _ j Hj; lia | reflexivity].
  - destruct (String.eqb_spec (nth i a "") (nth i b "")) as [Heq|Hne]; cbn [negb].
    + rewrite IH. split.
      * intros H j Hj. destruct (decide (j = i)) as [->|]; [exact Heq|].
        apply H; lia.
      * intros H j Hj. apply H; lia.
    + split; [discriminate|]. intros H. exfalso. apply Hne, H. lia.
Qed.

Lemma nth_eq_all (a b : list string) :
  length a = length b ->
  (forall j, (j < length a)%nat -> nth j a "" = nth j b "") -> a = b.
Proof.
  revert b; induction a as [|x a IH]; intros [|y b] Hlen H; try discriminate.
  - reflexivity.
  - f_equal.
    + apply (H 0%nat). cbn; lia.
    + apply IH; [cbn in Hlen; lia|]. intros j Hj. apply (H (S j)). cbn; lia.
Qed.

(** C2. [SetIsValid] returns true exactly when the two statement lists have
    equal length and agree at every index (that is, when they are the same
    list); the receiver's [IsValid] is set to the returned value, and its
    other fields are left as they were. *)
Theorem SetIsValid_iff (r : RunTimeInfo) :
  (fst (SetIsValid r) = true <->
     length (AssertStmts r) = length (SecondRun r) /\
     forall i, (i < length (AssertStmts r))%nat ->
       nth i (AssertStmts r) "" = nth i (SecondRun r) "") /\
  (fst (SetIsValid r) = true <-> AssertStmts r = SecondRun r) /\
  IsValid (snd (SetIsValid r)) = fst (SetIsValid r) /\
  Panics (snd (SetIsValid r)) = Panics r /\
  AssertStmts (snd (SetIsValid r)) = AssertStmts r /\
  SecondRun (snd (SetIsValid r)) = SecondRun r.
Proof.
  assert (Hpos : fst (SetIsValid r) = true <->
     length (AssertStmts r) = length (SecondRun r) /\
     forall i, (i < length (AssertStmts r))%nat ->
       nth i (AssertStmts r) "" = nth i (SecondRun r) "").
  { unfold SetIsValid.
    destruct (Nat.eqb_spec (length (AssertStmts r)) (length (SecondRun r))) as [Hlen|Hlen];
      cbn [negb fst].
    - destruct (mismatchFrom _ _ 0 _) eqn:Hm; cbn [fst].
      + split; [discriminate|]. intros [_ H].
        assert (Hf : mismatchFrom (AssertStmts r) (SecondRun r) 0 (length (AssertStmts r)) = false).
        { apply mismatchFrom_false. intros j Hj. apply H. lia. }
        congruence.
      + split; [|reflexivity]. intros _. split; [exact Hlen|].
        intros i Hi. apply (proj1 (mismatchFrom_false _ _ _ _) Hm). lia.
    - split; [discriminate|]. intros [H _]. contradiction. }
  split; [exact Hpos|]. split.
  - rewrite Hpos. split.
    + intros [Hlen H]. apply nth_eq_all; assumption.
    + intros ->. split; reflexivity.
  - unfold SetIsValid.
    destruct (negb _); [repeat split|].
    destruct (mismatchFrom _ _ _ _); repeat split.
Qed.

End ValidatorFacts.

(** ** The call statement of a test case *)

Section CallStmtFacts.

Import Gen.

Lemma shouldUseAssign_fold (l : list Expr) (b : bool) :
  fold_left
    (fun should x =>
       match x with
       | Ident name _ => if negb (name =? "_") then false else should
       | _ => should
       end) l b = true <->
  b = true /\ forall name obj, In (Ident name obj) l -> name = "_".
Proof.
  revert b; induction l as [|x l IH]; intros b; cbn [fold_left].
  - split; [intros ->; split; [reflexivity|intros ? ? []] | intros [-> _]; reflexivity].
  - rewrite IH. split.
    + intros [Hb H]. destruct x as [|name obj| | | | | | | | | | | | | | | |];
        try (split; [exact Hb|]; intros n o [Heq|Hin]; [discriminate Heq | eauto]).
      destruct (String.eqb_spec name "_") as [->|Hne]; cbn [negb] in Hb; [|discriminate].
      split; [exact Hb|]. intros n o [Heq|Hin]; [congruence | eauto].
    + intros [-> H]. split; [|intros n o Hin; apply (H n o); right; exact Hin].
      destruct x as [|name obj| | | | | | | | | | | | | | | |]; try reflexivity.
      rewrite (H name obj (or_introl eq_refl)). reflexivity.
Qed.

Lemma shouldUseAssign_true (printIdents : list Expr) :
  shouldUseAssign printIdents = true <->
  forall name obj, In (Ident name obj) printIdents -> name = "_".
Proof.
  unfold shouldUseAssign. rewrite shouldUseAssign_fold. tauto.
Qed.

(** C10. When [FuncDeclToExprStmt] returns: with no result identifier the
    second statement is nil and the test case's [FuncPrintStmt] is the empty
    text; with at least one, the second statement assigns the call to the
    result identifiers, with [=] when every identifier among them is the
    blank identifier and with [:=] when one of them is not. *)
Theorem FuncDeclToExprStmt_print (f : FuncDecl) (recvIdent paramIdent : list string)
    (printIdents : list Expr) (stmt : Stmt) (resPrint : option Stmt)
    (print : Stmt -> string) :
  FuncDeclToExprStmt f recvIdent paramIdent printIdents = Some (stmt, resPrint) ->
  exists callExpr,
    callExprOf f recvIdent paramIdent = Some callExpr /\
    stmt = ExprStmt callExpr /\
    (printIdents = [] -> resPrint = None /\ FuncPrintStmtOf print resPrint = "") /\
    (printIdents <> [] ->
       ((forall name obj, In (Ident name obj) printIdents -> name = "_") ->
          resPrint = Some (AssignStmt printIdents ASSIGN [callExpr])) /\
       ((exists name obj, In (Ident name obj) printIdents /\ name <> "_") ->
          resPrint = Some (AssignStmt printIdents DEFINE [callExpr]))).
Proof.
  unfold FuncDeclToExprStmt. destruct (callExprOf f recvIdent paramIdent) as [call|];
    [|discriminate].
  intros [= <- <-]. exists call. split; [reflexivity|]. split; [reflexivity|]. split.
  - intros ->. split; reflexivity.
  - intros Hne. destruct printIdents as [|x l]; [contradiction|].
    cbn [length Nat.eqb]. split.
    + intros Hall. apply shouldUseAssign_true in Hall. rewrite Hall. reflexivity.
    + intros (name & obj & Hin & Hname).
      destruct (shouldUseAssign (x :: l)) eqn:Hs; [|reflexivity].
      exfalso. apply Hname. exact (proj1 (shouldUseAssign_true _) Hs name obj Hin).
Qed.

End CallStmtFacts.

Section CallStmtRuns.

Import Gen.

Lemma FuncDeclToExprStmt_print_witness :
  FuncDeclToExprStmt sampleFunc [] ["a"] [Ident "_" None; Ident "r" None] =
    Some (ExprStmt (CallExpr (Ident "Sum" None) [Ident "a" None]),
          Some (AssignStmt [Ident "_" None; Ident "r" None] DEFINE
                  [CallExpr (Ident "Sum" None) [Ident "a" None]])) /\
  exists callExpr,
    callExprOf sampleFunc [] ["a"] = Some callExpr /\
    ExprStmt (CallExpr (Ident "Sum" None) [Ident "a" None]) = ExprStmt callExpr.
Proof.
  split; [reflexivity|].
  destruct (FuncDeclToExprStmt_print sampleFunc [] ["a"]
              [Ident "_" None; Ident "r" None] _ _ (fun _ => "") eq_refl)
    as (callExpr & Hcall & Hstmt & _).
  exists callExpr. split; assumption.
Defined.

Example blank_results_use_assign :
  FuncDeclToExprStmt sampleFunc [] ["a"] [Ident "_" None] =
    Some (ExprStmt (CallExpr (Ident "Sum" None) [Ident "a" None]),
          Some (AssignStmt [Ident "_" None] ASSIGN
                  [CallExpr (Ident "Sum" None) [Ident "a" None]])).
Proof. reflexivity. Qed.

Example no_results_no_print :
  FuncDeclToExprStmt sampleFunc [] ["a"] [] =
    Some (ExprStmt (CallExpr (Ident "Sum" None) [Ident "a" None]), None).
Proof. reflexivity. Qed.

End CallStmtRuns.


(** ** The capture decoder: whole chains *)

Section DecoderChains.

Import Runtime.

Variable strings_ReplaceAll : string -> string -> string -> string.

Local Abbreviation AssertStmts := (Runtime.AssertStmts strings_ReplaceAll).
Local Abbreviation CreateAssertStmts := (Runtime.CreateAssertStmts strings_ReplaceAll).
Local Abbreviation replaceStmts := (Runtime.replaceStmts strings_ReplaceAll).
Local Abbreviation replaceVarName := (Runtime.replaceVarName strings_ReplaceAll).

(** Induction along the chain of a capture. *)
Lemma Output_chain_ind (P : Output -> Prop) :
  (forall d, Child d = None -> P d) ->
  (forall d c, Child d = Some c -> P c -> P d) ->
  forall d, P d.
Proof.
  intros Hleaf Hnode. fix IH 1. intros [ty vn mk v ai [c|]].
  - apply (Hnode (mkOutput ty vn mk v ai (Some c)) c); [reflexivity|apply IH].
  - apply Hleaf. reflexivity.
Qed.

(** One step of [AssertStmts] at a node that has a child. *)
Lemma AssertStmts_node (data child : Output) reps tc res mem :
  Child data = Some child ->
  AssertStmts data reps tc res mem =
    if isDeref data then
      if Contains mem (pointerStmtText (VarName child) (VarName data)) then
        AssertStmts child (reps ++ replacementOf data) tc
          (res ++ [AssignStmt AssignSTmtTypeAssign (VarName child) ("*" +:+ VarName data)])
          mem
      else
        AssertStmts child (reps ++ replacementOf data) tc
          (res ++ [AssignStmt AssignStmtTypeDefine (VarName child) ("*" +:+ VarName data)])
          (mem ++ [declHead (VarName child)])
    else AssertStmts child (reps ++ replacementOf data) tc res mem.
Proof.
  destruct data as [ty vn mk v ai ch]. cbn [Child]. intros ->.
  unfold isDeref, replacementOf. cbn [Runtime.AssertStmts Child Typ Val VarName ArrIdent MapKeyType].
  destruct (String.eqb_spec ty "arr") as [->|Harr]; [reflexivity|].
  destruct (String.eqb_spec ty "custom") as [->|Hcustom];
    [cbn [andb]; rewrite app_nil_r; reflexivity|].
  destruct (String.eqb_spec ty "map") as [->|Hmap]; [reflexivity|].
  rewrite app_nil_r.
  destruct (String.eqb_spec ty "pointer") as [->|Hptr]; [|reflexivity].
  cbn [andb]. destruct (negb (v =? "nil")); [|reflexivity].
  destruct (Contains mem _); reflexivity.
Qed.

Lemma pointerStmts_node (data child : Output) mem :
  Child data = Some child ->
  pointerStmts data mem =
    if isDeref data then
      if Contains mem (pointerStmtText (VarName child) (VarName data)) then
        (AssignStmt AssignSTmtTypeAssign (VarName child) ("*" +:+ VarName data)
           :: fst (pointerStmts child mem),
         snd (pointerStmts child mem))
      else
        (AssignStmt AssignStmtTypeDefine (VarName child) ("*" +:+ VarName data)
           :: fst (pointerStmts child (mem ++ [declHead (VarName child)])),
         snd (pointerStmts child (mem ++ [declHead (VarName child)])))
    else pointerStmts child mem.
Proof.
  destruct data as [ty vn mk v ai ch]. cbn [Child]. intros ->.
  cbn [pointerStmts Child VarName].
  destruct (isDeref _); [|reflexivity].
  destruct (Contains mem _); destruct (pointerStmts child _); reflexivity.
Qed.

Lemma chain_node (data child : Output) :
  Child data = Some child ->
  leaf data = leaf child /\
  replacementsOf data = replacementOf data ++ replacementsOf child /\
  derefs data = ((if isDeref data then 1 else 0) + derefs child)%nat.
Proof.
  destruct data as [ty vn mk v ai ch]. cbn [Child]. intros ->.
  repeat split; reflexivity.
Qed.

Lemma chain_leaf (data : Output) :
  Child data = None ->
  leaf data = data /\ replacementsOf data = [] /\ derefs data = 0%nat /\
  forall mem, pointerStmts data mem = ([], mem).
Proof.
  destruct data as [ty vn mk v ai ch]. cbn [Child]. intros ->.
  repeat split; reflexivity.
Qed.

Lemma AssertStmts_flatten (data : Output) reps tc res mem :
  AssertStmts data reps tc res mem =
    (fst (CreateAssertStmts (leaf data) (reps ++ replacementsOf data) tc
            (res ++ fst (pointerStmts data mem))),
     snd (pointerStmts data mem),
     snd (CreateAssertStmts (leaf data) (reps ++ replacementsOf data) tc
            (res ++ fst (pointerStmts data mem)))).
Proof.
  revert reps res mem. induction data as [d Hd|d c Hc IH] using Output_chain_ind;
    intros reps res mem.
  - destruct (chain_leaf d Hd) as (-> & -> & _ & ->). cbn [fst snd].
    rewrite !app_nil_r. apply AssertStmts_leaf. exact Hd.
  - rewrite (AssertStmts_node d c) by exact Hc.
    rewrite (pointerStmts_node d c) by exact Hc.
    destruct (chain_node d c Hc) as (-> & -> & _).
    destruct (isDeref d); [|rewrite IH, <- !app_assoc; reflexivity].
    destruct (Contains mem _); rewrite IH; cbn [fst snd]; rewrite <- !app_assoc;
      reflexivity.
Qed.

(** X1. [AssertStmts] on a chain is [CreateAssertStmts] on the chain's leaf,
    with the replacements of the array and map nodes above it added to the
    given ones, outermost first, and the dereferencing assignments of the
    pointer nodes above it added to the given statements; nodes of any other
    type that have a child add nothing. *)
Theorem AssertStmts_chain (data : Output) reps tc res mem :
  AssertStmts data reps tc res mem =
    (fst (CreateAssertStmts (leaf data) (reps ++ replacementsOf data) tc
            (res ++ fst (pointerStmts data mem))),
     snd (pointerStmts data mem),
     snd (CreateAssertStmts (leaf data) (reps ++ replacementsOf data) tc
            (res ++ fst (pointerStmts data mem)))).
Proof.
  revert reps res mem. induction data as [d Hd|d c Hc IH] using Output_chain_ind;
    intros reps res mem.
  - destruct (chain_leaf d Hd) as (-> & -> & _ & ->). cbn [fst snd].
    rewrite !app_nil_r. apply AssertStmts_leaf. exact Hd.
  - rewrite (AssertStmts_node d c) by exact Hc.
    rewrite (pointerStmts_node d c) by exact Hc.
    destruct (chain_node d c Hc) as (-> & -> & _).
    destruct (isDeref d); [|rewrite IH, <- !app_assoc; reflexivity].
    destruct (Contains mem _); rewrite IH; cbn [fst snd]; rewrite <- !app_assoc;
      reflexivity.
Qed.

Lemma pointerStmts_facts (data : Output) (mem : list string) :
  length (fst (pointerStmts data mem)) = derefs data /\
  Forall (fun s => isAssign s = true) (fst (pointerStmts data mem)) /\
  exists added,
    snd (pointerStmts data mem) = mem ++ added /\
    (length added <= derefs data)%nat /\
    Forall (fun h => exists name, h = declHead name) added.
Proof.
  revert mem. induction data as [d Hd|d c Hc IH] using Output_chain_ind; intros mem.
  - destruct (chain_leaf d Hd) as (_ & _ & -> & ->). cbn [fst snd length].
    split; [reflexivity|]. split; [constructor|].
    exists []. rewrite app_nil_r. repeat split; [cbn; lia|constructor].
  - rewrite (pointerStmts_node d c) by exact Hc.
    destruct (chain_node d c Hc) as (_ & _ & ->).
    destruct (isDeref d).
    + destruct (Contains mem _); cbn [fst snd length].
      * destruct (IH mem) as (Hlen & Hall & added & Hmem & Hadd & Hheads).
        split; [lia|]. split; [constructor; [reflexivity|exact Hall]|].
        exists added. repeat split; [exact Hmem|lia|exact Hheads].
      * destruct (IH (mem ++ [declHead (VarName c)]))
          as (Hlen & Hall & added & Hmem & Hadd & Hheads).
        split; [lia|]. split; [constructor; [reflexivity|exact Hall]|].
        exists (declHead (VarName c) :: added).
        rewrite Hmem, <- app_assoc. repeat split; [cbn [length]; lia|].
        constructor; [eexists; reflexivity|exact Hheads].
    + destruct (IH mem) as (Hlen & Hall & added & Hmem & Hadd & Hheads).
      split; [exact Hlen|]. split; [exact Hall|].
      exists added. repeat split; [exact Hmem|lia|exact Hheads].
Qed.

Lemma Replace_isAssign (s : Stmt) key val :
  isAssign (Replace strings_ReplaceAll s key val) = isAssign s.
Proof. destruct s; reflexivity. Qed.

Lemma replaceStmts_length reps (res : list Stmt) :
  length (replaceStmts reps res) = length res.
Proof. unfold Runtime.replaceStmts. apply length_map. Qed.

Lemma replaceStmts_isAssign reps (res : list Stmt) :
  Forall (fun s => isAssign s = true) res ->
  Forall (fun s => isAssign s = true) (replaceStmts reps res).
Proof.
  unfold Runtime.replaceStmts. intros H. apply Forall_map.
  eapply Forall_impl; [exact H|]. intros s Hs. cbn beta.
  revert s Hs. induction reps as [|r reps IH]; intros s Hs; cbn [fold_left].
  - exact Hs.
  - apply IH. rewrite Replace_isAssign. exact Hs.
Qed.

Lemma CreateAssertStmts_known (d : Output) reps tc res :
  knownType (Typ d) = true ->
  exists assertion,
    CreateAssertStmts d reps tc res = (replaceStmts reps res ++ [assertion], []) /\
    isAssign assertion = false.
Proof.
  unfold knownType, Runtime.CreateAssertStmts. intros H.
  destruct (isNumericType (Typ d)); [eexists; split; reflexivity|].
  destruct (Typ d =? "string"); [eexists; split; reflexivity|].
  destruct (Typ d =? "bool");
    [destruct (Val d =? "true"); eexists; split; reflexivity|].
  destruct (Typ d =? "complex64"); [eexists; split; reflexivity|].
  destruct (Typ d =? "complex128"); [eexists; split; reflexivity|].
  destruct (Typ d =? "pointer"); [eexists; split; reflexivity|].
  destruct (Typ d =? "error");
    [destruct (Val d =? "nil"); eexists; split; reflexivity|].
  discriminate.
Qed.

Lemma CreateAssertStmts_unknown (d : Output) reps tc res :
  knownType (Typ d) = false ->
  CreateAssertStmts d reps tc res = ([], [LogUnknownType (Typ d) (Val d)]).
Proof.
  unfold knownType, Runtime.CreateAssertStmts. intros H.
  destruct (isNumericType (Typ d)); [discriminate|].
  destruct (Typ d =? "string"); [discriminate|].
  destruct (Typ d =? "bool"); [discriminate|].
  destruct (Typ d =? "complex64"); [discriminate|].
  destruct (Typ d =? "complex128"); [discriminate|].
  destruct (Typ d =? "pointer"); [discriminate|].
  destruct (Typ d =? "error"); [discriminate|].
  reflexivity.
Qed.

Lemma known_leaf_statements_aux (data : Output) reps tc res mem :
  knownType (Typ (leaf data)) = true ->
  exists stmts assertion,
    AssertStmts data reps tc res mem =
      (stmts ++ [assertion], snd (pointerStmts data mem), []) /\
    length stmts = (length res + derefs data)%nat.
Proof.
  intros Hknown. rewrite AssertStmts_flatten.
  destruct (CreateAssertStmts_known (leaf data) (reps ++ replacementsOf data) tc
              (res ++ fst (pointerStmts data mem)) Hknown) as (a & -> & Ha).
  destruct (pointerStmts_facts data mem) as (Hlen & _).
  eexists _, a. split; [reflexivity|].
  rewrite replaceStmts_length, length_app. lia.
Qed.

(** X2. When the leaf of the chain has a type that [CreateAssertStmts]
    knows, [AssertStmts] returns the statements it was given, then one
    assignment for each dereferenced pointer node above the leaf, then one
    assertion, which is the last statement, and logs nothing. *)
Theorem known_leaf_statements (data : Output) reps tc res mem :
  knownType (Typ (leaf data)) = true ->
  exists stmts assertion,
    AssertStmts data reps tc res mem =
      (stmts ++ [assertion], snd (pointerStmts data mem), []) /\
    length stmts = (length res + derefs data)%nat /\
    isAssign assertion = false /\
    (Forall (fun s => isAssign s = true) res ->
     Forall (fun s => isAssign s = true) stmts).
Proof.
  intros Hknown. rewrite AssertStmts_flatten.
  destruct (CreateAssertStmts_known (leaf data) (reps ++ replacementsOf data) tc
              (res ++ fst (pointerStmts data mem)) Hknown) as (a & -> & Ha).
  destruct (pointerStmts_facts data mem) as (Hlen & Hall & _).
  eexists _, a. split; [reflexivity|].
  split; [rewrite replaceStmts_length, length_app; lia|].
  split; [exact Ha|].
  intros Hres. apply replaceStmts_isAssign. apply Forall_app. split; assumption.
Qed.

(** X3. When the leaf of the chain has a type that [CreateAssertStmts] does
    not know, [AssertStmts] returns no statement at all: the statements it
    was given and the assignments of the pointer nodes are dropped, the
    unknown type is logged, and [mem] still records the declarations of the
    dropped assignments. *)
Theorem unknown_leaf_drops_statements (data : Output) reps tc res mem :
  knownType (Typ (leaf data)) = false ->
  AssertStmts data reps tc res mem =
    ([], snd (pointerStmts data mem),
     [LogUnknownType (Typ (leaf data)) (Val (leaf data))]).
Proof.
  intros Hunknown. rewrite AssertStmts_flatten.
  rewrite (CreateAssertStmts_unknown _ _ _ _ Hunknown). reflexivity.
Qed.

(** X4. [AssertStmts] only appends to [mem]: the [mem] it leaves is the one
    it was given followed by at most one recorded head for each dereferenced
    pointer node of the chain, and each added entry is the head of a
    declaring assignment. *)
Theorem mem_only_grows (data : Output) reps tc res mem :
  exists added,
    snd (fst (AssertStmts data reps tc res mem)) = mem ++ added /\
    (length added <= derefs data)%nat /\
    Forall (fun h => exists name, h = declHead name) added.
Proof.
  rewrite AssertStmts_flatten. cbn [fst snd].
  destruct (pointerStmts_facts data mem) as (_ & _ & H). exact H.
Qed.

(** X5. A pointer node that has no child is asserted to be nil whatever
    value was captured for it. *)
Theorem childless_pointer_asserts_nil (data : Output) reps tc res mem :
  Typ data = "pointer" -> Child data = None ->
  AssertStmts data reps tc res mem =
    (replaceStmts reps res ++
       [AssertStmt AssertStmtTypeNil (replaceVarName reps (VarName data)) ""],
     mem, []).
Proof.
  intros Hty Hchild. rewrite AssertStmts_leaf by exact Hchild.
  unfold Runtime.CreateAssertStmts. rewrite Hty. reflexivity.
Qed.

Lemma Contains_app (mem added : list string) (s : string) :
  Contains mem s = true -> Contains (mem ++ added) s = true.
Proof.
  unfold Contains. rewrite existsb_app. intros ->. reflexivity.
Qed.

Lemma prefix_append_l (c a b : string) :
  String.prefix a b = true -> String.prefix (c +:+ a) (c +:+ b) = true.
Proof.
  intros H. induction c as [|x c IH]; [exact H|].
  rewrite !append_cons_l, prefix_cons, Ascii.eqb_refl. exact IH.
Qed.

Lemma Contains_recorded (mem : list string) (child ptr : string) :
  Contains (mem ++ [declHead child]) (pointerStmtText child ptr) = true.
Proof.
  unfold Contains. rewrite existsb_app. cbn [existsb].
  unfold declHead, pointerStmtText.
  rewrite (prefix_append_l child " :=" (" := *" +:+ ptr)); [apply orb_true_r|].
  rewrite !append_cons_l, append_nil_l, !prefix_cons, !Ascii.eqb_refl.
  destruct ptr; reflexivity.
Qed.

(** The second decoding of a chain, over a [mem] in which the first one
    found or recorded every target: nothing is declared or recorded. *)
Lemma pointerStmts_again (data : Output) (mem added : list string) :
  Forall (fun s => isDeclaring s = false)
    (fst (pointerStmts data (snd (pointerStmts data mem) ++ added))) /\
  snd (pointerStmts data (snd (pointerStmts data mem) ++ added)) =
    snd (pointerStmts data mem) ++ added.
Proof.
  revert mem added. induction data as [d Hd|d c Hc IH] using Output_chain_ind;
    intros mem added.
  - destruct (chain_leaf d Hd) as (_ & _ & _ & Hp). rewrite !Hp. cbn [fst snd].
    split; [constructor|reflexivity].
  - rewrite (pointerStmts_node d c mem) by exact Hc.
    destruct (isDeref d) eqn:Hderef.
    + destruct (Contains mem _) eqn:Hcont; cbn [snd].
      * rewrite (pointerStmts_node d c) by exact Hc. rewrite Hderef.
        assert (Hagain : Contains (snd (pointerStmts c mem) ++ added)
                           (pointerStmtText (VarName c) (VarName d)) = true).
        { destruct (pointerStmts_facts c mem) as (_ & _ & added1 & Hmem & _).
          rewrite Hmem, <- app_assoc. apply Contains_app, Hcont. }
        rewrite Hagain. cbn [fst snd]. destruct (IH mem added) as [H1 H2].
        split; [constructor; [reflexivity|exact H1]|exact H2].
      * rewrite (pointerStmts_node d c) by exact Hc. rewrite Hderef.
        assert (Hagain : Contains
                           (snd (pointerStmts c (mem ++ [declHead (VarName c)])) ++ added)
                           (pointerStmtText (VarName c) (VarName d)) = true).
        { destruct (pointerStmts_facts c (mem ++ [declHead (VarName c)]))
            as (_ & _ & added1 & Hmem & _).
          rewrite Hmem, <- app_assoc. apply Contains_app, Contains_recorded. }
        rewrite Hagain. cbn [fst snd].
        destruct (IH (mem ++ [declHead (VarName c)]) added) as [H1 H2].
        split; [constructor; [reflexivity|exact H1]|exact H2].
    + rewrite (pointerStmts_node d c) by exact Hc. rewrite Hderef. apply IH.
Qed.

Lemma replaceStmts_isDeclaring reps (res : list Stmt) :
  Forall (fun s => isDeclaring s = false) res ->
  Forall (fun s => isDeclaring s = false) (replaceStmts reps res).
Proof.
  unfold Runtime.replaceStmts. intros H. apply Forall_map.
  eapply Forall_impl; [exact H|]. intros s Hs. cbn beta.
  revert s Hs. induction reps as [|r reps IH]; intros s Hs; cbn [fold_left].
  - exact Hs.
  - apply IH. destruct s as [[| ] l rh|ty ex v]; cbn in *; congruence.
Qed.

(** X25. Decoding a capture again over the [mem] that a first decoding of it
    left (whatever was recorded since): no statement of the second decoding
    declares a variable, every dereferencing assignment being a plain
    re-assignment, and [mem] stays as it is. The membership test on [mem] is
    the one modelled from the spec. *)
Theorem second_decoding_declares_nothing (data : Output) reps tc mem reps' tc'
    (since : list string) :
  let mem1 := snd (fst (AssertStmts data reps tc [] mem)) ++ since in
  Forall (fun s => isDeclaring s = false) (fst (fst (AssertStmts data reps' tc' [] mem1))) /\
  snd (fst (AssertStmts data reps' tc' [] mem1)) = mem1.
Proof.
  cbn zeta. rewrite (AssertStmts_flatten data reps tc [] mem). cbn [fst snd].
  rewrite AssertStmts_flatten. cbn [fst snd app].
  destruct (pointerStmts_again data mem since) as [Hstmts Hmem].
  split; [|exact Hmem].
  destruct (knownType (Typ (leaf data))) eqn:Hknown.
  - destruct (CreateAssertStmts_known (leaf data) (reps' ++ replacementsOf data) tc'
                (fst (pointerStmts data (snd (pointerStmts data mem) ++ since))) Hknown)
      as (a & -> & Ha).
    cbn [fst]. apply Forall_app. split; [apply replaceStmts_isDeclaring, Hstmts|].
    constructor; [|constructor]. destruct a; [discriminate Ha|reflexivity].
  - rewrite (CreateAssertStmts_unknown _ _ _ _ Hknown). constructor.
Qed.

End DecoderChains.

Section DecoderLines.

Import Runtime.

Variable strings_ReplaceAll : string -> string -> string -> string.
Variable json_Unmarshal : string -> Output -> Output * option string.

(** X21. When [json.Unmarshal] decodes the line without an error into a
    capture whose leaf has a type that [CreateAssertStmts] knows, [ParseLine]
    returns one line for each dereferenced pointer node above the leaf and
    one more for the assertion, logs nothing, and leaves in [mem] what the
    pointer nodes recorded. *)
Theorem ParseLine_lines (info : Info) (jsonString : string) (mem : list string)
    (data : Output) :
  json_Unmarshal jsonString emptyOutput = (data, None) ->
  knownType (Typ (leaf data)) = true ->
  exists lines,
    ParseLine strings_ReplaceAll json_Unmarshal info jsonString mem =
      (lines, snd (pointerStmts data mem), []) /\
    length lines = S (derefs data).
Proof.
  intros Hjson Hknown. unfold ParseLine. rewrite Hjson.
  destruct (known_leaf_statements_aux strings_ReplaceAll data [] (mkTypeCorrections "" "")
              [] mem Hknown) as (stmts & assertion & -> & Hlen).
  eexists. split; [reflexivity|].
  rewrite length_map, length_app, Hlen. cbn [length]. lia.
Qed.

End DecoderLines.

Section DecoderChainRuns.

Import Runtime.

(** A pointer to a pointer to an int: two assignments, then the assertion. *)
Lemma known_leaf_statements_witness :
  knownType (Typ (leaf captureC)) = true /\
  exists stmts assertion,
    AssertStmts replaceAll captureC [] noCorrection [] [] =
      (stmts ++ [assertion], ["p :="; "v :="], []) /\
    length stmts = 2%nat /\ isAssign assertion = false /\
    (Forall (fun s => isAssign s = true) [] -> Forall (fun s => isAssign s = true) stmts).
Proof.
  split; [reflexivity|].
  exact (known_leaf_statements replaceAll captureC [] noCorrection [] [] eq_refl).
Defined.

(** The same chain ending in a struct node: nothing is returned. *)
Lemma unknown_leaf_drops_statements_witness :
  knownType (Typ (leaf (mkOutput "pointer" "p" "" "0xc000" ""
                         (Some (mkOutput "struct" "v" "" "{}" "" None))))) = false /\
  AssertStmts replaceAll
    (mkOutput "pointer" "p" "" "0xc000" "" (Some (mkOutput "struct" "v" "" "{}" "" None)))
    [] noCorrection [] [] =
    ([], ["v :="], [LogUnknownType "struct" "{}"]).
Proof.
  split; [reflexivity|].
  exact (unknown_leaf_drops_statements replaceAll
           (mkOutput "pointer" "p" "" "0xc000" ""
              (Some (mkOutput "struct" "v" "" "{}" "" None)))
           [] noCorrection [] [] eq_refl).
Defined.

Lemma childless_pointer_asserts_nil_witness :
  Typ (mkOutput "pointer" "p" "" "0xc000" "" None) = "pointer" /\
  Child (mkOutput "pointer" "p" "" "0xc000" "" None) = None /\
  AssertStmts replaceAll (mkOutput "pointer" "p" "" "0xc000" "" None) [] noCorrection [] [] =
    ([AssertStmt AssertStmtTypeNil "p" ""], [], []).
Proof.
  split; [reflexivity|]. split; [reflexivity|].
  exact (childless_pointer_asserts_nil replaceAll
           (mkOutput "pointer" "p" "" "0xc000" "" None) [] noCorrection [] []
           eq_refl eq_refl).
Defined.

(** The line of scenario A: one line, the assertion. *)
Lemma ParseLine_lines_witness :
  unmarshalA lineA emptyOutput = (captureA, None) /\
  knownType (Typ (leaf captureA)) = true /\
  exists lines,
    ParseLine replaceAll unmarshalA {| Printer_PrintStmt := fun _ => "stmt" |} lineA [] =
      (lines, [], []) /\
    length lines = 1%nat.
Proof.
  split; [reflexivity|]. split; [reflexivity|].
  exact (ParseLine_lines replaceAll unmarshalA {| Printer_PrintStmt := fun _ => "stmt" |}
           lineA [] captureA eq_refl eq_refl).
Defined.

(** The pointer chain decoded twice: two declarations, then none. *)
Example pointer_chain_twice :
  let first := AssertStmts replaceAll captureC [] noCorrection [] [] in
  let second := AssertStmts replaceAll captureC [] noCorrection [] (snd (fst first)) in
  (fst (fst first), fst (fst second), snd (fst second)) =
  ([AssignStmt AssignStmtTypeDefine "p" "*pp"; AssignStmt AssignStmtTypeDefine "v" "*p";
    AssertStmt AssertStmtTypeEqualValues "int(7)" "v"],
   [AssignStmt AssignSTmtTypeAssign "p" "*pp"; AssignStmt AssignSTmtTypeAssign "v" "*p";
    AssertStmt AssertStmtTypeEqualValues "int(7)" "v"],
   ["p :="; "v :="]).
Proof. reflexivity. Qed.

End DecoderChainRuns.

(** ** The capture decoder: lines that do not decode *)

Section DecoderErrors.

Import Runtime.

Variable strings_ReplaceAll : string -> string -> string -> string.
Variable json_Unmarshal : string -> Output -> Output * option string.

Local Abbreviation ParseLine := (Runtime.ParseLine strings_ReplaceAll json_Unmarshal).

(** C9, as the code has it. A line on which [json.Unmarshal] reports an
    error: [ParseLine] logs the parse error and goes on with the record as
    the decoder left it, so it always returns. It returns no statement, and
    logs the type it does not know, when the type at the end of that
    record's chain is not one [CreateAssertStmts] has a case for; this is so
    in particular when nothing was stored (Go's decoder checks the syntax of
    the whole input before it stores anything), and then [mem] is left as it
    was. When fields were stored and that type is a known one, the
    statements of the partial record are returned: one line for each
    dereferenced pointer node and one for the assertion. *)
Theorem ParseLine_malformed (info : Info) (jsonString e : string) (mem : list string)
    (data : Output) :
  json_Unmarshal jsonString emptyOutput = (data, Some e) ->
  (knownType (Typ (leaf data)) = false ->
     ParseLine info jsonString mem =
       ([], snd (pointerStmts data mem),
        [LogParseError e jsonString;
         LogUnknownType (Typ (leaf data)) (Val (leaf data))])) /\
  (data = emptyOutput ->
     ParseLine info jsonString mem =
       ([], mem, [LogParseError e jsonString; LogUnknownType "" ""])) /\
  (knownType (Typ (leaf data)) = true ->
     exists lines,
       ParseLine info jsonString mem =
         (lines, snd (pointerStmts data mem), [LogParseError e jsonString]) /\
       length lines = S (derefs data)).
Proof.
  intros Hjson.
  assert (Hunknown : knownType (Typ (leaf data)) = false ->
            ParseLine info jsonString mem =
              ([], snd (pointerStmts data mem),
               [LogParseError e jsonString;
                LogUnknownType (Typ (leaf data)) (Val (leaf data))])).
  { intros Hty. unfold Runtime.ParseLine. rewrite Hjson.
    rewrite AssertStmts_flatten.
    rewrite (CreateAssertStmts_unknown strings_ReplaceAll _ _ _ _ Hty). reflexivity. }
  split; [exact Hunknown|]. split.
  - intros ->. exact (Hunknown eq_refl).
  - intros Hty. unfold Runtime.ParseLine. rewrite Hjson.
    destruct (known_leaf_statements_aux strings_ReplaceAll data []
                (mkTypeCorrections "" "") [] mem Hty) as (stmts & assertion & -> & Hlen).
    eexists. split; [reflexivity|].
    rewrite length_map, length_app, Hlen. cbn [length]. lia.
Qed.

End DecoderErrors.

Section DecoderErrorRuns.

Import Runtime.

(** A line cut short: nothing is stored, nothing is returned. *)
Lemma ParseLine_malformed_witness :
  unmarshalA "{" emptyOutput = (emptyOutput, Some "invalid character") /\
  ParseLine replaceAll unmarshalA {| Printer_PrintStmt := printSample |} "{" [] =
    ([], [], [LogParseError "invalid character" "{"; LogUnknownType "" ""]).
Proof.
  split; [reflexivity|].
  exact (proj1 (proj2 (ParseLine_malformed replaceAll unmarshalA
                         {| Printer_PrintStmt := printSample |} "{" "invalid character" []
                         emptyOutput eq_refl))
           eq_refl).
Defined.

(** C9 as stated fails on a line that is valid JSON of the wrong shape: the
    decoder reports the number given for [val], having stored [type] and
    [var_name], and [ParseLine] returns the assertion of the record it was
    left with. *)
Lemma mistyped_line_yields_statement :
  unmarshalMistyped lineMistyped emptyOutput =
    (mkOutput "int" "x" "" "" "" None,
     Some "json: cannot unmarshal number into Go struct field Output.val of type string") /\
  ParseLine replaceAll unmarshalMistyped {| Printer_PrintStmt := printSample |}
    lineMistyped [] =
    (["assert x == int()"], [],
     [LogParseError
        "json: cannot unmarshal number into Go struct field Output.val of type string"
        lineMistyped]) /\
  fst (fst (ParseLine replaceAll unmarshalMistyped {| Printer_PrintStmt := printSample |}
              lineMistyped [])) <> [].
Proof.
  split; [reflexivity|]. split; [reflexivity|]. discriminate.
Qed.

End DecoderErrorRuns.
(** ** The synthesizer: reasoning about its computations *)

Section SynthLogic.

Import Gen.

Context {Ptr G : Type}.

Local Abbreviation State := (@Gen.State G).
Local Abbreviation M := (@Gen.M G).
Local Abbreviation Outcome := (@Gen.Outcome G).
Local Abbreviation RecursionInput := (@Gen.RecursionInput Ptr).
Local Abbreviation Generator := (@Gen.Generator Ptr G).

Lemma holds_ret {A} fail (a : A) (s : State) (Q : A -> State -> Prop) :
  Q a s -> holds fail (ret a s) Q.
Proof. exact (fun H => H). Qed.

Lemma holds_bind {A B} fail (m : M A) (k : A -> M B) (s : State) (Q : B -> State -> Prop) :
  holds fail (m s) (fun a s' => holds fail (k a s') Q) -> holds fail (bind m k s) Q.
Proof. unfold bind, holds. destruct (m s); auto. Qed.

Lemma holds_mono {A} fail (out : Outcome A) (Q Q' : A -> State -> Prop) :
  holds fail out Q -> (forall a s, Q a s -> Q' a s) -> holds fail out Q'.
Proof. unfold holds. destruct out; auto. Qed.

Lemma holds_draw {A} fail (f : G -> A * G) (s : State) (Q : A -> State -> Prop) :
  (forall a o, f (oracle s) = (a, o) -> Q a (mkState (counter s) o (Expanded s))) ->
  holds fail (draw f s) Q.
Proof. unfold draw, holds. destruct (f (oracle s)) as [a o]. auto. Qed.

Lemma holds_foldM {X A} fail (body : A -> X -> M A)
    (I : list X -> A -> State -> Prop) :
  (forall seen x a s, I seen a s ->
     holds fail (body a x s) (fun a' s' => I (seen ++ [x]) a' s')) ->
  forall l seen a s, I seen a s ->
    holds fail (foldM body l a s) (fun a' s' => I (seen ++ l) a' s').
Proof.
  intros Hbody. induction l as [|x l IH]; intros seen a s HI; cbn [foldM].
  - rewrite app_nil_r. exact HI.
  - apply holds_bind. eapply holds_mono; [apply Hbody, HI|].
    intros a' s' HI'. cbn beta. eapply holds_mono; [apply IH, HI'|].
    intros a'' s'' H. rewrite <- app_assoc in H. exact H.
Qed.

(** An outcome that is a result. *)
Lemma holds_Ok {A} (out : Outcome A) (Q : A -> State -> Prop) :
  holds False out Q -> exists a s, out = Ok a s /\ Q a s.
Proof. destruct out; cbn; [eauto | tauto | tauto]. Qed.

(** *** Computations that only let the state grow *)

Lemma le_state_refl (s : State) : le_state s s.
Proof.
  unfold le_state. split; [intros; lia|]. split; [intros; lia|].
  split; [reflexivity|]. split; reflexivity.
Qed.

Lemma le_state_same (s s' : State) :
  counter s = counter s' -> Expanded s = Expanded s' -> le_state s s'.
Proof.
  intros Hc He. unfold le_state. rewrite <- Hc, <- He.
  split; [intros; lia|]. split; [intros; lia|].
  split; [reflexivity|]. split; reflexivity.
Qed.

Lemma le_state_trans (s1 s2 s3 : State) :
  le_state s1 s2 -> le_state s2 s3 -> le_state s1 s3.
Proof.
  intros (A1 & B1 & C1 & D1 & E1) (A2 & B2 & C2 & D2 & E2).
  split; [|split; [|split; [|split]]].
  - intros n. specialize (A1 n). specialize (A2 n). lia.
  - intros a. specialize (B1 a). specialize (B2 a). lia.
  - etransitivity; eassumption.
  - etransitivity; eassumption.
  - etransitivity; eassumption.
Qed.

Lemma mono_ret {A} (a : A) : mono (G:=G) (ret a).
Proof. intros s. apply le_state_refl. Qed.

Lemma mono_panic {A} : mono (G:=G) (A:=A) panic.
Proof. intros s. exact I. Qed.

Lemma mono_bind {A B} (m : M A) (k : A -> M B) :
  mono m -> (forall a, mono (k a)) -> mono (bind m k).
Proof.
  intros Hm Hk s. apply holds_bind. eapply holds_mono; [apply Hm|].
  intros a s' H. cbn beta. eapply holds_mono; [apply Hk|].
  intros b s'' H'. cbn beta in *. eapply le_state_trans; eassumption.
Qed.

Lemma mono_draw {A} (f : G -> A * G) : mono (draw f).
Proof. intros s. apply holds_draw. intros a o _. apply le_state_same; reflexivity. Qed.

Lemma mono_memoStruct (addr : nat) (x : Expr) : mono (G:=G) (memoStruct addr x).
Proof.
  intros s. unfold memoStruct. destruct (StructMem (counter s) !! addr) eqn:E; cbn.
  - apply le_state_refl.
  - unfold le_state; cbn.
    split; [intros; lia|split; [intros; lia|split; [|split; reflexivity]]].
    apply insert_subseteq. exact E.
Qed.

Lemma mono_memoInterface (addr : nat) (d : Decl) : mono (G:=G) (memoInterface addr d).
Proof.
  intros s. unfold memoInterface. destruct (InterfaceMem (counter s) !! addr) eqn:E; cbn.
  - apply le_state_refl.
  - unfold le_state; cbn.
    split; [intros; lia|split; [intros; lia|split; [reflexivity|split; [|reflexivity]]]].
    apply insert_subseteq. exact E.
Qed.

Lemma mono_noteExpansion (name : string) : mono (G:=G) (noteExpansion name).
Proof.
  intros s. cbn. unfold le_state; cbn.
  split; [intros; lia|]. split; [intros; lia|].
  split; [reflexivity|]. split; [reflexivity|].
  apply suffix_cons_r. reflexivity.
Qed.

Lemma mono_foldM {X A} (body : A -> X -> M A) (l : list X) (a : A) :
  (forall a x, mono (body a x)) -> mono (foldM body l a).
Proof.
  intros Hbody s.
  pose proof (holds_foldM True body (fun _ _ s' => le_state s s')) as H.
  eapply holds_mono; [apply (H ltac:(intros seen x a0 s0 Hs;
     eapply holds_mono; [apply Hbody|]; intros; cbn beta in *;
     eapply le_state_trans; eassumption)
     l [] a s (le_state_refl s))|].
  intros a' s' Hs. exact Hs.
Qed.

Lemma mono_forUpTo {A} (n : Z) (body : A -> M A) (a : A) :
  (forall a, mono (body a)) -> mono (forUpTo n body a).
Proof. intros Hbody. unfold forUpTo. apply mono_foldM. intros a0 _. apply Hbody. Qed.

Lemma count_insert (m : gmap string Z) (name n : string) (v : Z) :
  count (<[name := v]> m) n = if decide (name = n) then v else count m n.
Proof. unfold count. rewrite lookup_insert. destruct (decide (name = n)); reflexivity. Qed.

Lemma countAt_insert (m : gmap nat Z) (addr a : nat) (v : Z) :
  countAt (<[addr := v]> m) a = if decide (addr = a) then v else countAt m a.
Proof. unfold countAt. rewrite lookup_insert. destruct (decide (addr = a)); reflexivity. Qed.

Lemma mono_countStruct (name : string) : mono (G:=G) (countStruct name).
Proof.
  intros s. unfold le_state; cbn.
  split; [|split; [intros; lia|split; [reflexivity|split; reflexivity]]].
  intros n. rewrite count_insert. destruct (decide (name = n)) as [->|]; lia.
Qed.

Lemma mono_countInterface (addr : nat) : mono (G:=G) (countInterface addr).
Proof.
  intros s. unfold le_state; cbn.
  split; [intros; lia|split; [|split; [reflexivity|split; reflexivity]]].
  intros a. rewrite countAt_insert. destruct (decide (addr = a)) as [->|]; lia.
Qed.

Ltac mono_step :=
  first
    [ apply mono_ret
    | apply mono_panic
    | apply mono_draw
    | apply mono_memoStruct
    | apply mono_memoInterface
    | apply mono_countStruct
    | apply mono_countInterface
    | apply mono_noteExpansion
    | apply mono_foldM; intros
    | apply mono_forUpTo; intros
    | apply mono_bind; [|intros]
    | match goal with
      | H : forall i, mono (?rec i) |- mono (?rec _) => apply H
      | H : forall i n, mono (?rec i n) |- mono (?rec _ _) => apply H
      | |- mono (match ?x with _ => _ end) => destruct x
      end ].

Ltac mono_auto := repeat mono_step.

Section MonoFunctions.

Variable g : Generator.
Variable rec : RecursionInput -> M TypeExprToValExprRes.
Variable recImpl : RecursionInput -> string -> M TypeExprToValExprRes.
Hypothesis rec_mono : forall i, mono (rec i).
Hypothesis recImpl_mono : forall i n, mono (recImpl i n).

Lemma mono_skipsUnexported input name : mono (skipsUnexported g input name).
Proof. unfold skipsUnexported, firstIsLower. mono_auto. Qed.

Lemma mono_fieldEntry input ty name acc : mono (fieldEntry rec input ty name acc).
Proof. unfold fieldEntry. mono_auto. Qed.

Lemma mono_namedField input field acc name : mono (namedField g rec input field acc name).
Proof.
  unfold namedField. apply mono_bind; [apply mono_skipsUnexported|]. intros.
  mono_auto.
Qed.

Lemma mono_structField input acc field : mono (structField g rec input acc field).
Proof.
  unfold structField. destruct (_ =? _)%nat.
  - apply mono_bind; [apply mono_skipsUnexported|]. intros [|]; [apply mono_ret|].
    apply mono_bind; [apply mono_fieldEntry|]. intros.
    apply mono_foldM. intros. apply mono_namedField.
  - apply mono_foldM. intros. apply mono_namedField.
Qed.

Lemma mono_StructFieldsToKeyValExpr resType input :
  mono (StructFieldsToKeyValExpr g rec resType input).
Proof.
  unfold StructFieldsToKeyValExpr. destruct (e input); try apply mono_ret.
  apply mono_bind; [apply mono_foldM; intros; apply mono_structField|].
  intros [result elts]. apply mono_ret.
Qed.

Lemma mono_StructExprToValExpr input : mono (StructExprToValExpr g rec input).
Proof.
  unfold StructExprToValExpr. destruct (e input); try apply mono_ret.
  apply mono_bind; [apply mono_memoStruct|]. intros mem.
  apply mono_bind; [apply mono_countStruct|]. intros n.
  destruct mem; [destruct (_ <? _)%Z; [apply mono_ret|]|];
    (apply mono_bind; [apply mono_noteExpansion|]; intros;
     apply mono_StructFieldsToKeyValExpr).
Qed.

Lemma mono_TypeSpecToValExpr t k ts input : mono (TypeSpecToValExpr g rec t k ts input).
Proof.
  unfold TypeSpecToValExpr.
  destruct (SpecType ts); try apply mono_StructExprToValExpr; mono_auto.
Qed.

Lemma mono_IdentWithNilObjectToValExpr name input :
  mono (IdentWithNilObjectToValExpr g rec name input).
Proof. unfold IdentWithNilObjectToValExpr. mono_auto. Qed.

Lemma mono_SelectorExprToValExpr input : mono (SelectorExprToValExpr g rec input).
Proof. unfold SelectorExprToValExpr. mono_auto. Qed.

Lemma mono_returnField res input acc : mono (returnField g rec res input acc).
Proof. unfold returnField, ReturnFieldToStmt. mono_auto. Qed.

Lemma mono_FuncReturnListToBodyStatements input :
  mono (FuncReturnListToBodyStatements g rec input).
Proof.
  unfold FuncReturnListToBodyStatements. destruct (e input); try apply mono_ret.
  apply mono_bind; [|intros [? ?]; apply mono_ret].
  match goal with |- mono (match ?r with _ => _ end) => destruct r end;
    [|apply mono_ret].
  apply mono_foldM. intros acc res. apply mono_bind.
  - destruct (_ =? _)%nat; [apply mono_returnField | apply mono_ret].
  - intros. apply mono_foldM. intros. apply mono_returnField.
Qed.

Lemma mono_FuncTypeToValExpr input : mono (FuncTypeToValExpr g rec input).
Proof.
  unfold FuncTypeToValExpr. destruct (CorrectTypeExpr g (e input) input); try apply mono_ret.
  apply mono_bind; [apply mono_FuncReturnListToBodyStatements|]. intros. apply mono_ret.
Qed.

Lemma mono_ChanTypeToValExpr t dir input : mono (ChanTypeToValExpr g t dir input).
Proof. unfold ChanTypeToValExpr. mono_auto. Qed.

Lemma mono_ArrayExprToValExpr input : mono (ArrayExprToValExpr g rec input).
Proof. unfold ArrayExprToValExpr. mono_auto. Qed.

Lemma mono_mapEntry key value input acc : mono (mapEntry g rec key value input acc).
Proof. unfold mapEntry. mono_auto. Qed.

Lemma mono_MapExprToValExpr input : mono (MapExprToValExpr g rec input).
Proof.
  unfold MapExprToValExpr. destruct (e input); try apply mono_ret.
  apply mono_bind; [apply mono_draw|]. intros.
  apply mono_bind; [apply mono_forUpTo; intros; apply mono_mapEntry|].
  intros [[? ?] ?]. apply mono_ret.
Qed.

Lemma mono_StarExprToValExpr input : mono (StarExprToValExpr g rec input).
Proof. unfold StarExprToValExpr. mono_auto. Qed.

Lemma mono_methodsLoop input ident methods result :
  mono (methodsLoop g rec recImpl input ident methods result).
Proof.
  revert result. induction methods as [|method rest IH]; intros result;
    cbn [methodsLoop]; [apply mono_ret|].
  destruct (FType method); try apply IH.
  - repeat first [apply IH | mono_step].
  - apply mono_bind; [apply mono_FuncReturnListToBodyStatements|]. intros.
    destruct (Names method); [apply mono_panic|apply IH].
  - repeat first [apply IH | mono_step].
Qed.

Lemma mono_InterfaceTypeToFuncImpl_body input ident :
  mono (InterfaceTypeToFuncImpl_body g rec recImpl input ident).
Proof.
  unfold InterfaceTypeToFuncImpl_body. destruct (e input); try apply mono_ret.
  apply mono_methodsLoop.
Qed.

Lemma mono_implementInterface input ident : mono (implementInterface g recImpl input ident).
Proof. unfold implementInterface. mono_auto. Qed.

Lemma mono_InterfaceTypeToValExpr input : mono (InterfaceTypeToValExpr g recImpl input).
Proof.
  unfold InterfaceTypeToValExpr. destruct (e input); try apply mono_ret.
  match goal with |- mono (match ?l with _ => _ end) => destruct l end; [mono_auto|].
  apply mono_bind; [apply mono_countInterface|]. intros n.
  apply mono_bind; [apply mono_draw|]. intros name.
  apply mono_bind; [apply mono_memoInterface|]. intros mem.
  repeat first [apply mono_implementInterface | mono_step].
Qed.

Lemma mono_TypeExprToValExpr_body input :
  mono (TypeExprToValExpr_body g rec recImpl input).
Proof.
  unfold TypeExprToValExpr_body, UnnamedStructToValExpr.
  destruct (e input); try apply mono_ret.
  - repeat first [apply mono_IdentWithNilObjectToValExpr
                 | apply mono_TypeSpecToValExpr | mono_step].
  - apply mono_StarExprToValExpr.
  - apply mono_ArrayExprToValExpr.
  - apply mono_MapExprToValExpr.
  - apply mono_ChanTypeToValExpr.
  - apply mono_FuncTypeToValExpr.
  - apply mono_InterfaceTypeToValExpr.
  - apply mono_StructFieldsToKeyValExpr.
  - apply mono_SelectorExprToValExpr.
  - apply rec_mono.
Qed.

End MonoFunctions.

Lemma mono_synthesis (g : Generator) (fuel : nat) :
  (forall input, mono (TypeExprToValExpr g fuel input)) /\
  (forall input ident, mono (InterfaceTypeToFuncImpl g fuel input ident)).
Proof.
  induction fuel as [|fuel [IH1 IH2]].
  - split; intros; intros s; exact I.
  - split; intros; cbn [TypeExprToValExpr InterfaceTypeToFuncImpl].
    + apply mono_TypeExprToValExpr_body; assumption.
    + apply mono_InterfaceTypeToFuncImpl_body; assumption.
Qed.

End SynthLogic.

(** ** The driver *)

Section DriverFacts.

Import Gen.

Context {Ptr G : Type}.

Local Abbreviation State := (@Gen.State G).
Local Abbreviation M := (@Gen.M G).

Lemma yields_Ok {A} (m : M A) (Q : A -> Prop) s a s' :
  yields m Q -> m s = Ok a s' -> Q a.
Proof. intros H E. specialize (H s). rewrite E in H. exact H. Qed.

Lemma yields_ret {A} (a : A) (Q : A -> Prop) : Q a -> yields (G:=G) (ret a) Q.
Proof. intros H s. exact H. Qed.

Lemma yields_panic {A} (Q : A -> Prop) : yields (G:=G) panic Q.
Proof. intros s. exact I. Qed.

Lemma yields_bind {A B} (m : M A) (k : A -> M B) (P : A -> Prop) (Q : B -> Prop) :
  yields m P -> (forall a, P a -> yields (k a) Q) -> yields (bind m k) Q.
Proof.
  intros Hm Hk s. apply holds_bind. eapply holds_mono; [apply Hm|].
  intros a s' Ha. apply Hk, Ha.
Qed.

Lemma yields_any {A} (m : M A) : yields m (fun _ => True).
Proof. intros s. unfold holds. destruct (m s); exact I. Qed.

Lemma yields_weaken {A} (m : M A) (P Q : A -> Prop) :
  yields m P -> (forall a, P a -> Q a) -> yields m Q.
Proof. intros H HPQ s. eapply holds_mono; [apply H|]. intros a s'. apply HPQ. Qed.

Lemma yields_foldM {X A} (body : A -> X -> M A) (I : list X -> A -> Prop) :
  (forall seen x a, I seen a -> yields (body a x) (I (seen ++ [x]))) ->
  forall l seen a, I seen a -> yields (foldM body l a) (I (seen ++ l)).
Proof.
  intros Hbody l seen a HI s.
  apply (holds_foldM True body (fun seen a _ => I seen a)); [|exact HI].
  intros seen' x a' s' HI'. apply Hbody, HI'.
Qed.

Lemma yields_NewRecursionInput {A} (m : M A) (Q : A -> Prop) :
  yields m Q -> yields (NewRecursionInput m) Q.
Proof.
  intros H s. unfold NewRecursionInput.
  specialize (H (mkState FreshCycleInfo (oracle s) [])).
  destruct (m _); exact H.
Qed.

Variable g : @Generator Ptr G.
Variable d : @Driver Ptr G.
Variable fuel : nat.

Lemma identsDefined_nil : identsDefined (mkAssignRes [] [] [] []).
Proof. constructor. Qed.

Lemma identsDefined_AppendRes (r r' : FieldToAssignRes) :
  identsDefined r -> identsDefined r' -> identsDefined (AppendRes r r').
Proof.
  unfold identsDefined, AppendRes, Append. cbn [Idents AssignStatements].
  intros H H'. apply Forall_app. split.
  - eapply Forall_impl; [exact H|]. intros x [v Hv]. exists v.
    apply in_or_app. left. exact Hv.
  - eapply Forall_impl; [exact H'|]. intros x [v Hv]. exists v.
    apply in_or_app. right. exact Hv.
Qed.

Lemma yields_assignParam p funcName pointer acc param :
  identsDefined acc ->
  yields (assignParam g d fuel p funcName pointer acc param)
    (fun acc' => length (Idents acc') = S (length (Idents acc)) /\ identsDefined acc').
Proof.
  intros Hacc. unfold assignParam.
  eapply yields_bind; [apply yields_any|]. intros name _.
  eapply yields_bind; [apply yields_any|]. intros [|] _.
  - eapply yields_bind; [apply yields_any|]. intros value _.
    apply yields_ret. cbn [Idents]. split; [rewrite length_app; cbn; lia|].
    unfold identsDefined. cbn [Idents AssignStatements]. apply Forall_app. split.
    + eapply Forall_impl; [exact Hacc|]. intros x [v Hv]. exists v.
      apply in_or_app. left. exact Hv.
    + constructor; [|constructor]. exists value. apply in_or_app. right. left.
      reflexivity.
  - eapply yields_bind; [apply yields_any|]. intros r _.
    apply yields_ret. cbn [Idents]. split; [rewrite length_app; cbn; lia|].
    unfold identsDefined. cbn [Idents AssignStatements]. apply Forall_app. split.
    + eapply Forall_impl; [exact Hacc|]. intros x [v Hv]. exists v.
      apply in_or_app. left. apply in_or_app. left. exact Hv.
    + constructor; [|constructor]. exists (ResExpr r). apply in_or_app. right. left.
      reflexivity.
Qed.

Lemma yields_FieldToAssignStmt p funcName pointer :
  yields (FieldToAssignStmt g d fuel p funcName pointer)
    (fun r => length (Idents r) = length (Names p) /\ identsDefined r).
Proof.
  unfold FieldToAssignStmt.
  apply (yields_foldM _ (fun seen r => length (Idents r) = length seen /\ identsDefined r))
    with (seen := []); [|split; [reflexivity|apply identsDefined_nil]].
  intros seen x a [Hlen Hdef].
  eapply yields_weaken; [apply yields_assignParam, Hdef|].
  cbn beta. intros a' [Hlen' Hdef']. split; [rewrite length_app; cbn; lia|exact Hdef'].
Qed.

Lemma yields_assignFields fields funcName pointer :
  yields (assignFields g d fuel fields funcName pointer)
    (fun r => length (Idents r) = length (flat_map Names fields) /\ identsDefined r).
Proof.
  unfold assignFields.
  apply (yields_foldM _
           (fun seen r => length (Idents r) = length (flat_map Names seen) /\
                          identsDefined r)) with (seen := []);
    [|split; [reflexivity|apply identsDefined_nil]].
  intros seen x a [Hlen Hdef].
  eapply yields_bind; [apply yields_FieldToAssignStmt|].
  cbn beta. intros r [Hlen' Hdef']. apply yields_ret. split.
  - unfold AppendRes, Append. cbn [Idents].
    rewrite flat_map_app, !length_app. cbn [flat_map]. rewrite app_nil_r. lia.
  - apply identsDefined_AppendRes; assumption.
Qed.

(** X6. When [FieldToAssignStmts] returns, it has made one identifier for
    each name of each parameter field, in order, and each of these
    identifiers is defined by one of the returned statements; a parameter
    field without a name gets no identifier. *)
Theorem FieldToAssignStmts_idents (params : list Field) funcName pointer
    (s s' : State) (r : FieldToAssignRes) :
  FieldToAssignStmts g d fuel (Some params) funcName pointer s = Ok r s' ->
  length (Idents r) = length (flat_map Names params) /\ identsDefined r.
Proof.
  intros E. exact (yields_Ok _ _ _ _ _ (yields_assignFields params funcName pointer) E).
Qed.

Lemma yields_GetFuncReceiverStmts_named n ty funcName pointer :
  yields (GetFuncReceiverStmts g d fuel (Some [mkField [n] ty]) funcName pointer)
    (fun r => length (Idents r) = 1%nat).
Proof.
  unfold GetFuncReceiverStmts.
  eapply yields_bind; [apply yields_any|]. intros [|] _.
  - eapply yields_bind; [apply yields_any|]. intros name _.
    eapply yields_bind; [apply yields_any|]. intros value _.
    apply yields_ret. reflexivity.
  - eapply yields_weaken; [apply yields_assignFields|].
    cbn beta. intros r [Hlen _]. exact Hlen.
Qed.

(** X7. [FuncDeclToTestCase] does not panic when it builds the call: when
    the receiver's and the parameters' statements are made, it returns a test
    case. The statements of the test case are the receiver's followed by the
    parameters', printed, and its channel identifiers are the receiver's
    followed by the parameters'. *)
Theorem FuncDeclToTestCase_returns (f : FuncDecl) pointer params results
    (s s1 s2 : State) (r1 r2 : FieldToAssignRes) :
  FuncTyp f = FuncType (Some params) results ->
  GetFuncReceiverStmts g d fuel (Recv f) (FuncName f) pointer s = Ok r1 s1 ->
  FieldToAssignStmts g d fuel (Some params) (FuncName f) pointer s1 = Ok r2 s2 ->
  exists t s3,
    FuncDeclToTestCase g d fuel f pointer s = Ok t s3 /\
    Stmts t = map (MustPrettyPrintStmt d) (AssignStatements r1 ++ AssignStatements r2) /\
    CaseChanIdents t =
      map (MustPrettyPrintIdent d) (AssignChanIdents r1 ++ AssignChanIdents r2).
Proof.
  intros Hty H1 H2. unfold FuncDeclToTestCase, bind at 1. rewrite H1, Hty.
  unfold bind at 1. rewrite H2. unfold bind, draw.
  destruct (ResultsToPrintStmts d results (FuncName f) pointer (oracle s2))
    as [[[identsPrint resultStmts] resultUsages] o].
  assert (Hcall : exists funcStmt funcPrintStmt,
             FuncDeclToExprStmt f (Idents r1) (Idents r2) identsPrint =
               Some (funcStmt, funcPrintStmt)).
  { unfold FuncDeclToExprStmt, callExprOf.
    destruct (Recv f) as [[|[[|n [|n' ns]] ty] [|field fields]]|] eqn:Hrecv;
      try (eexists _, _; reflexivity).
    pose proof (yields_Ok _ _ _ _ _
                  (yields_GetFuncReceiverStmts_named n ty (FuncName f) pointer) H1) as Hlen.
    cbn beta in Hlen.
    destruct (Idents r1); [discriminate Hlen|]. eexists _, _. reflexivity. }
  destruct Hcall as (funcStmt & funcPrintStmt & ->).
  eexists _, _. split; [reflexivity|]. cbn [Stmts CaseChanIdents].
  split; [reflexivity|]. rewrite map_app. reflexivity.
Qed.

Lemma yields_testCasesOf (t : FuncDecl) pointer :
  yields (testCasesOf g d fuel t pointer) (fun l => length l = caseCount d pointer t).
Proof.
  unfold testCasesOf, forUpTo.
  eapply yields_weaken.
  - apply (yields_foldM _
             (fun (seen : list nat) (l : list TestCase) =>
                length l =
                  if (FuncName t =? "main") ||
                     Deco_ShouldIgnoreFunc d (fileNameOf d pointer) (FuncName t)
                  then 0%nat else length seen)) with (seen := []).
    + intros seen x l Hl.
      destruct (FuncName t =? "main"); [apply yields_ret; exact Hl|].
      destruct (Deco_ShouldIgnoreFunc d _ _); [apply yields_ret; exact Hl|].
      cbn [orb] in *. eapply yields_bind; [apply yields_any|]. intros testCase _.
      apply yields_ret. rewrite !length_app. cbn [length]. lia.
    + destruct (_ || _); reflexivity.
  - cbn beta. intros l Hl. unfold caseCount. rewrite Hl.
    cbn [app]. rewrite length_seq. reflexivity.
Qed.

Lemma TypeToPrefix_base (x : Expr) (n : string) :
  baseName x = Some n -> forall s : State, TypeToPrefix g x s = Ok n s.
Proof.
  induction x; cbn [baseName TypeToPrefix]; try discriminate; auto.
  intros [= ->] s. reflexivity.
Qed.

Lemma TestCasePrefix_plain (t : FuncDecl) (p : string) :
  prefixOf t = Some p -> forall s : State, TestCasePrefix g t s = Ok p s.
Proof.
  unfold prefixOf, TestCasePrefix.
  destruct (Recv t) as [[|field [|field' fields]]|]; try discriminate.
  - apply TypeToPrefix_base.
  - intros [= <-] s. reflexivity.
Qed.

Lemma yields_TestCasePrefix (t : FuncDecl) :
  yields (TestCasePrefix g t) (fun p' => forall p, prefixOf t = Some p -> p' = p).
Proof.
  destruct (prefixOf t) as [p0|] eqn:Hp.
  - intros s. rewrite (TestCasePrefix_plain t p0 Hp). cbn. intros p [= ->]. reflexivity.
  - eapply yields_weaken; [apply yields_any|]. intros p' _ p. discriminate.
Qed.

(** X8. When [GetTestCasesForFunctionsInFile] returns, over declarations
    whose receivers have a base name: every function declaration has an
    entry, under its prefix followed by its name; every entry is that of a
    function declaration and holds [TestCasesPerFunc] test cases, or none
    when the function is [main] or the decorator ignores it. *)
Theorem test_cases_per_function (decls : list Decl) pointer (s s' : State)
    (res : gmap string (list TestCase)) :
  (forall t, In (FuncDeclD t) decls -> is_Some (prefixOf t)) ->
  GetTestCasesForFunctionsInFile g d fuel decls pointer s = Ok res s' ->
  (forall key l, res !! key = Some l ->
     exists t p, In (FuncDeclD t) decls /\ prefixOf t = Some p /\
                 key = p +:+ FuncName t /\ length l = caseCount d pointer t) /\
  (forall t p, In (FuncDeclD t) decls -> prefixOf t = Some p ->
     is_Some (res !! (p +:+ FuncName t))).
Proof.
  intros Hplain E. revert Hplain.
  refine (yields_Ok _ (fun res => _ -> _ /\ _) _ _ _ _ E). clear E.
  unfold GetTestCasesForFunctionsInFile.
  apply (yields_foldM _
           (fun seen (res : gmap string (list TestCase)) =>
              (forall t, In (FuncDeclD t) seen -> is_Some (prefixOf t)) ->
              (forall key l, res !! key = Some l ->
                 exists t p, In (FuncDeclD t) seen /\ prefixOf t = Some p /\
                             key = p +:+ FuncName t /\ length l = caseCount d pointer t) /\
              (forall t p, In (FuncDeclD t) seen -> prefixOf t = Some p ->
                 is_Some (res !! (p +:+ FuncName t))))) with (seen := []).
  - intros seen x a IH. destruct x as [tok specs|t].
    + apply yields_ret. intros Hplain.
      destruct IH as [IH1 IH2].
      { intros t Ht. apply Hplain, in_or_app. left. exact Ht. }
      split.
      * intros key l Hl. destruct (IH1 key l Hl) as (t & p & Ht & Hrest).
        exists t, p. split; [apply in_or_app; left; exact Ht|exact Hrest].
      * intros t p Ht. apply in_app_or in Ht. destruct Ht as [Ht|[Ht|[]]];
          [apply IH2, Ht|discriminate].
    + eapply yields_bind; [apply yields_testCasesOf|]. cbn beta. intros testCases Hlen.
      eapply yields_bind; [apply yields_TestCasePrefix|]. cbn beta. intros p' Hp'.
      apply yields_ret. intros Hplain.
      destruct IH as [IH1 IH2].
      { intros t0 Ht0. apply Hplain, in_or_app. left. exact Ht0. }
      destruct (Hplain t) as [p Hp]; [apply in_or_app; right; left; reflexivity|].
      rewrite (Hp' p Hp). split.
      * intros key l Hl.
        destruct (decide (key = p +:+ FuncName t)) as [->|Hne].
        -- rewrite lookup_insert_eq in Hl. injection Hl as <-.
           exists t, p. split; [apply in_or_app; right; left; reflexivity|].
           split; [exact Hp|]. split; [reflexivity|exact Hlen].
        -- rewrite lookup_insert_ne in Hl by congruence.
           destruct (IH1 key l Hl) as (t0 & p0 & Ht0 & Hrest).
           exists t0, p0. split; [apply in_or_app; left; exact Ht0|exact Hrest].
      * intros t0 p0 Ht0 Hp0. apply in_app_or in Ht0.
        destruct (decide (p0 +:+ FuncName t0 = p +:+ FuncName t)) as [->|Hne].
        -- rewrite lookup_insert_eq. eexists; reflexivity.
        -- rewrite lookup_insert_ne by congruence.
           destruct Ht0 as [Ht0|[Ht0|[]]]; [apply (IH2 t0 p0 Ht0 Hp0)|].
           injection Ht0 as <-. exfalso. apply Hne. congruence.
  - intros _. split.
    + intros key l Hl. rewrite lookup_empty in Hl. discriminate.
    + intros t p [].
Qed.

End DriverFacts.

(** ** The call statement: the call itself *)

Section CallShape.

Import Gen.

(** X9. [FuncDeclToExprStmt] panics exactly when the receiver list has one
    field with one name and no receiver identifier is given. Otherwise it
    calls the function with the parameter identifiers as arguments, in
    order, through the first receiver identifier when the receiver list has
    one field with one name and by its bare name when it has not; the print
    statement, when there is one, assigns that same call to the print
    identifiers. *)
Theorem FuncDeclToExprStmt_call (f : FuncDecl) (recvIdent paramIdent : list string)
    (printIdents : list Expr) :
  (FuncDeclToExprStmt f recvIdent paramIdent printIdents = None <->
   hasNamedReceiver f = true /\ recvIdent = []) /\
  forall funcStmt funcPrintStmt,
    FuncDeclToExprStmt f recvIdent paramIdent printIdents = Some (funcStmt, funcPrintStmt) ->
    let call :=
      CallExpr
        (if hasNamedReceiver f
         then SelectorExpr (Ident (hd "" recvIdent) None) (FuncName f)
         else Ident (FuncName f) None)
        (map (fun x => Ident x None) paramIdent) in
    funcStmt = ExprStmt call /\
    forall lhs tok rhs, funcPrintStmt = Some (AssignStmt lhs tok rhs) ->
      lhs = printIdents /\ rhs = [call].
Proof.
  unfold FuncDeclToExprStmt, callExprOf, hasNamedReceiver.
  destruct (Recv f) as [[|[[|n [|n' ns]] ty] [|field fields]]|];
    try (split; [split; [discriminate|intros [? _]; discriminate]|
         intros funcStmt funcPrintStmt [= <- <-]; cbn zeta; split; [reflexivity|];
         intros lhs tok rhs; destruct (length printIdents =? 0)%nat; [discriminate|];
         intros [= <- _ <-]; split; reflexivity]).
  destruct recvIdent as [|r rs].
  - split; [split; [intros _; split; reflexivity|reflexivity]|discriminate].
  - split; [split; [discriminate|intros [_ ?]; discriminate]|].
    intros funcStmt funcPrintStmt [= <- <-]; cbn zeta; split; [reflexivity|].
    intros lhs tok rhs; destruct (length printIdents =? 0)%nat; [discriminate|].
    intros [= <- _ <-]; split; reflexivity.
Qed.

End CallShape.

(** ** The driver: runs on the sample package *)

Section DriverRuns.

Import Gen.

Local Abbreviation g3 := (sampleGenerator DefaultAmountRecursion).

(** The parameters [depth, fixed int, int]: two identifiers, the second from
    the decorator; the unnamed parameter gets none. *)
Lemma FieldToAssignStmts_idents_witness :
  exists r s',
    FieldToAssignStmts g3 sampleDriver 5
      (Some [mkField ["depth"; "fixed"] (Ident "int" None); mkField [] (Ident "int" None)])
      "Walk" "" (freshState 0) = Ok r s' /\
    (length (Idents r) = 2%nat /\ identsDefined r).
Proof.
  assert (E : exists r s',
             FieldToAssignStmts g3 sampleDriver 5
               (Some [mkField ["depth"; "fixed"] (Ident "int" None);
                      mkField [] (Ident "int" None)])
               "Walk" "" (freshState 0) = Ok r s')
    by (eexists _, _; vm_compute; reflexivity).
  destruct E as (r & s' & E). exists r, s'. split; [exact E|].
  exact (FieldToAssignStmts_idents g3 sampleDriver 5 _ "Walk" "" _ _ _ E).
Defined.

Example unnamed_parameter_gets_no_argument :
  match FieldToAssignStmts g3 sampleDriver 5
          (Some [mkField ["depth"; "fixed"] (Ident "int" None); mkField [] (Ident "int" None)])
          "Walk" "" (freshState 0) with
  | Ok r _ => Some (Idents r, AssignStatements r)
  | _ => None
  end =
  Some (["a"; "c"],
        [assignStmt (Ident "a" None) (BasicLit "0");
         assignStmt (Ident "c" None) (BasicLit "1")]).
Proof. vm_compute. reflexivity. Qed.

(** The method [Walk] on [*Node]. *)
Lemma FuncDeclToTestCase_returns_witness :
  exists r1 s1 r2 s2,
    FuncTyp sampleMethod =
      FuncType
        (Some [mkField ["depth"; "fixed"] (Ident "int" None); mkField [] (Ident "int" None)])
        (Some [mkField [] (Ident "bool" None)]) /\
    GetFuncReceiverStmts g3 sampleDriver 9 (Recv sampleMethod) "Walk" "" (freshState 0) =
      Ok r1 s1 /\
    FieldToAssignStmts g3 sampleDriver 9
      (Some [mkField ["depth"; "fixed"] (Ident "int" None); mkField [] (Ident "int" None)])
      "Walk" "" s1 = Ok r2 s2 /\
    exists t s3,
      FuncDeclToTestCase g3 sampleDriver 9 sampleMethod "" (freshState 0) = Ok t s3 /\
      Stmts t =
        map (MustPrettyPrintStmt sampleDriver) (AssignStatements r1 ++ AssignStatements r2) /\
      CaseChanIdents t =
        map (MustPrettyPrintIdent sampleDriver) (AssignChanIdents r1 ++ AssignChanIdents r2).
Proof.
  assert (E1 : exists r1 s1,
             GetFuncReceiverStmts g3 sampleDriver 9 (Recv sampleMethod) "Walk" ""
               (freshState 0) = Ok r1 s1)
    by (eexists _, _; vm_compute; reflexivity).
  destruct E1 as (r1 & s1 & E1).
  assert (E2 : exists r2 s2,
             FieldToAssignStmts g3 sampleDriver 9
               (Some [mkField ["depth"; "fixed"] (Ident "int" None);
                      mkField [] (Ident "int" None)])
               "Walk" "" s1 = Ok r2 s2).
  { vm_compute in E1. injection E1 as <- <-. eexists _, _. vm_compute. reflexivity. }
  destruct E2 as (r2 & s2 & E2).
  exists r1, s1, r2, s2. split; [reflexivity|]. split; [exact E1|]. split; [exact E2|].
  exact (FuncDeclToTestCase_returns g3 sampleDriver 9 sampleMethod "" _ _ _ _ _ _ _
           eq_refl E1 E2).
Defined.

(** The file of [sampleDecls]. *)
Lemma test_cases_per_function_witness :
  (forall t, In (FuncDeclD t) sampleDecls -> is_Some (prefixOf t)) /\
  exists res s',
    GetTestCasesForFunctionsInFile g3 sampleDriver 9 sampleDecls "" (freshState 0) =
      Ok res s' /\
    (forall key l, res !! key = Some l ->
       exists t p, In (FuncDeclD t) sampleDecls /\ prefixOf t = Some p /\
                   key = p +:+ FuncName t /\ length l = caseCount sampleDriver "" t) /\
    (forall t p, In (FuncDeclD t) sampleDecls -> prefixOf t = Some p ->
       is_Some (res !! (p +:+ FuncName t))).
Proof.
  assert (Hplain : forall t, In (FuncDeclD t) sampleDecls -> is_Some (prefixOf t)).
  { intros t [Ht|[Ht|[Ht|[Ht|[Ht|[]]]]]]; try discriminate;
      injection Ht as <-; eexists; reflexivity. }
  split; [exact Hplain|].
  assert (E : exists res s',
             GetTestCasesForFunctionsInFile g3 sampleDriver 9 sampleDecls ""
               (freshState 0) = Ok res s')
    by (eexists _, _; vm_compute; reflexivity).
  destruct E as (res & s' & E). exists res, s'. split; [exact E|].
  exact (test_cases_per_function g3 sampleDriver 9 sampleDecls "" _ _ _ Hplain E).
Defined.

(** The entries of that file: none for the type declaration, empty ones for
    [main] and the ignored function, two test cases for [Sum] and for the
    method [Walk], which is filed under [NodeWalk]. *)
Example sample_file_entries :
  match GetTestCasesForFunctionsInFile g3 sampleDriver 9 sampleDecls "" (freshState 0) with
  | Ok res _ => Some (map (fun name => length <$> res !! name)
                        ["main"; "skipped"; "Sum"; "NodeWalk"; "Walk"; "Node"])
  | _ => None
  end = Some [Some 0; Some 0; Some 2; Some 2; None; None]%nat.
Proof. vm_compute. reflexivity. Qed.

Lemma FuncDeclToExprStmt_call_witness :
  FuncDeclToExprStmt sampleMethod ["n"] ["a"; "b"] [Ident "res" None] =
    Some (ExprStmt (CallExpr (SelectorExpr (Ident "n" None) "Walk")
                      [Ident "a" None; Ident "b" None]),
          Some (AssignStmt [Ident "res" None] DEFINE
                  [CallExpr (SelectorExpr (Ident "n" None) "Walk")
                     [Ident "a" None; Ident "b" None]])) /\
  ExprStmt (CallExpr (SelectorExpr (Ident "n" None) "Walk")
              [Ident "a" None; Ident "b" None]) =
    ExprStmt (CallExpr (SelectorExpr (Ident "n" None) "Walk")
                [Ident "a" None; Ident "b" None]).
Proof.
  split; [reflexivity|].
  exact (proj1 (proj2 (FuncDeclToExprStmt_call sampleMethod ["n"] ["a"; "b"]
                         [Ident "res" None]) _ _ eq_refl)).
Defined.

(** A receiver without a name: the method is called by its bare name. *)
Example unnamed_receiver_called_bare :
  FuncDeclToExprStmt
    (mkFuncDecl (Some [mkField [] identNode]) "Walk" (FuncType (Some []) None) [])
    [] [] [] =
  Some (ExprStmt (CallExpr (Ident "Walk" None) []), None).
Proof. reflexivity. Qed.

End DriverRuns.

(** ** The name of a test suite *)

Section SuiteFacts.

Import Gen.

Context {Ptr : Type}.

Lemma append_nil_r (s : string) : s +:+ "" = s.
Proof. induction s as [|c s IH]; [reflexivity|]. rewrite append_cons_l, IH. reflexivity. Qed.

Lemma append_assoc (a b c : string) : (a +:+ b) +:+ c = a +:+ (b +:+ c).
Proof.
  induction a as [|x a IH]; [reflexivity|]. rewrite !append_cons_l, IH. reflexivity.
Qed.

Lemma length_append (a b : string) :
  String.length (a +:+ b) = (String.length a + String.length b)%nat.
Proof.
  induction a as [|x a IH]; [reflexivity|].
  rewrite append_cons_l. cbn [String.length]. rewrite IH. reflexivity.
Qed.

Lemma substring_all (s : string) : String.substring 0 (String.length s) s = s.
Proof. induction s as [|c s IH]; [reflexivity|]. cbn. rewrite IH. reflexivity. Qed.

Lemma substring_append_l (a b : string) :
  String.substring 0 (String.length a) (a +:+ b) = a.
Proof.
  induction a as [|x a IH].
  - destruct b; reflexivity.
  - rewrite append_cons_l. cbn [String.length String.substring]. rewrite IH. reflexivity.
Qed.

Lemma substring_append_r (a b : string) :
  String.substring (String.length a) (String.length b) (a +:+ b) = b.
Proof.
  induction a as [|x a IH].
  - apply substring_all.
  - rewrite append_cons_l. cbn [String.length String.substring]. exact IH.
Qed.

Lemma strings_TrimSuffix_append (stem suffix : string) :
  strings_TrimSuffix (stem +:+ suffix) suffix = stem.
Proof.
  unfold strings_TrimSuffix, strings_HasSuffix. rewrite length_append.
  replace (String.length stem + String.length suffix - String.length suffix)%nat
    with (String.length stem) by lia.
  rewrite substring_append_r, String.eqb_refl, substring_append_l.
  destruct (_ <=? _)%nat eqn:E; [reflexivity|]. apply Nat.leb_gt in E. lia.
Qed.

Lemma list_ascii_of_append (a b : string) :
  list_ascii_of_string (a +:+ b) = list_ascii_of_string a ++ list_ascii_of_string b.
Proof.
  induction a as [|x a IH]; [reflexivity|].
  rewrite append_cons_l. cbn [list_ascii_of_string app]. rewrite IH. reflexivity.
Qed.

Lemma extScan_dotFree (l r acc : list ascii) :
  Forall (fun c => Ascii.eqb c "." = false /\ Ascii.eqb c "/" = false) l ->
  extScan (l ++ "."%char :: r) acc = Some ("."%char :: rev l ++ acc).
Proof.
  intros Hl. revert acc. induction Hl as [|c l [Hdot Hslash] Hl IH]; intros acc.
  - reflexivity.
  - cbn [app extScan rev]. rewrite Hslash, Hdot, IH, <- app_assoc. reflexivity.
Qed.

Lemma dotFree_Forall (s : string) :
  dotFree s = true ->
  Forall (fun c => Ascii.eqb c "." = false /\ Ascii.eqb c "/" = false)
    (list_ascii_of_string s).
Proof.
  induction s as [|c s IH]; cbn [dotFree list_ascii_of_string]; [constructor|].
  intros H. apply andb_prop in H. destruct H as [H Hs].
  apply andb_prop in H. destruct H as [Hdot Hslash].
  constructor; [|apply IH, Hs].
  split; [destruct (Ascii.eqb c "."); [discriminate|reflexivity]|
          destruct (Ascii.eqb c "/"); [discriminate|reflexivity]].
Qed.

Lemma filepath_Ext_append (stem ext : string) :
  dotFree ext = true ->
  filepath_Ext (stem +:+ "." +:+ ext) = "." +:+ ext.
Proof.
  intros Hext. unfold filepath_Ext.
  rewrite list_ascii_of_append, rev_app_distr.
  change (list_ascii_of_string ("." +:+ ext)) with ("."%char :: list_ascii_of_string ext).
  cbn [rev]. rewrite <- app_assoc. cbn [app].
  rewrite extScan_dotFree.
  - rewrite rev_involutive, app_nil_r.
    change ("."%char :: list_ascii_of_string ext)
      with (list_ascii_of_string ("." +:+ ext)).
    apply string_of_list_ascii_of_string.
  - apply Forall_rev, dotFree_Forall, Hext.
Qed.

Lemma allAlnum_append (a b : string) :
  allAlnum (a +:+ b) = allAlnum a && allAlnum b.
Proof.
  induction a as [|x a IH]; [reflexivity|].
  rewrite append_cons_l. cbn [allAlnum]. rewrite IH, andb_assoc. reflexivity.
Qed.

Lemma toTitleByte_facts (c : ascii) :
  (isAlnum c = true -> isAlnum (toTitleByte c) = true) /\
  startsLowerAscii (String (toTitleByte c) "") = false.
Proof.
  destruct c as [[] [] [] [] [] [] [] []]; vm_compute; split; auto.
Qed.

Lemma titleFrom_alnum (prev : ascii) (s : string) :
  allAlnum s = true -> allAlnum (titleFrom prev s) = true.
Proof.
  revert prev. induction s as [|c s IH]; intros prev; cbn [allAlnum titleFrom];
    [reflexivity|].
  intros H. apply andb_prop in H. destruct H as [Hc Hs].
  rewrite (IH c Hs), andb_true_r.
  destruct (isAlnum prev || Ascii.eqb prev "_"); [exact Hc|].
  apply toTitleByte_facts, Hc.
Qed.

Lemma splitFrom_alnum (s : string) (inRun : bool) (cur : string) :
  allAlnum cur = true ->
  Forall (fun part => allAlnum part = true) (splitFrom s inRun cur).
Proof.
  revert inRun cur. induction s as [|c s IH]; intros inRun cur Hcur; cbn [splitFrom].
  - constructor; [exact Hcur|constructor].
  - destruct (isAlnum c) eqn:Hc.
    + apply IH. rewrite allAlnum_append, Hcur. cbn [allAlnum]. rewrite Hc. reflexivity.
    + destruct inRun; [apply IH, Hcur|].
      constructor; [exact Hcur|]. apply IH. reflexivity.
Qed.

Lemma suite_fold (parts : list string) (acc : string) :
  Forall (fun part => allAlnum part = true) parts ->
  allAlnum acc = true -> startsLowerAscii acc = false ->
  allAlnum (fold_left (fun res part => res +:+ Title part) parts acc) = true /\
  startsLowerAscii (fold_left (fun res part => res +:+ Title part) parts acc) = false.
Proof.
  intros Hparts. revert acc.
  induction Hparts as [|part parts Hpart Hparts IH]; intros acc Hacc Hlow;
    cbn [fold_left]; [split; assumption|].
  apply IH.
  - rewrite allAlnum_append, Hacc. apply titleFrom_alnum, Hpart.
  - destruct acc as [|c acc]; [|exact Hlow].
    rewrite append_nil_l. destruct part as [|c part]; [reflexivity|].
    apply (toTitleByte_facts c).
Qed.

(** X19. The name of a test suite is made of ASCII letters and digits only,
    and does not start with a lower-case letter. *)
Theorem SuiteName_alphanumeric (f : @File Ptr) :
  allAlnum (SuiteName f) = true /\ startsLowerAscii (SuiteName f) = false.
Proof.
  unfold SuiteName. apply suite_fold; [|reflexivity..].
  apply splitFrom_alnum. reflexivity.
Qed.

(** X20. The name of a test suite does not depend on the extension of the
    file: for a file name that ends in a dot followed by an extension without
    a dot or a path separator, it is made from what is before that dot, the
    pieces between its runs of other bytes, each with its first letter in
    upper case, one after the other. *)
Theorem SuiteName_of_stem (f : @File Ptr) (stem ext : string) :
  FileName f = stem +:+ "." +:+ ext -> dotFree ext = true ->
  SuiteName f = fold_left (fun res part => res +:+ Title part) (regexp_Split stem) "".
Proof.
  intros Hname Hext. unfold SuiteName. rewrite Hname.
  rewrite (filepath_Ext_append stem ext Hext), strings_TrimSuffix_append. reflexivity.
Qed.

End SuiteFacts.

Section SuiteRuns.

Import Gen.

Lemma SuiteName_of_stem_witness :
  FileName sampleFile = "my_file" +:+ "." +:+ "go" /\ dotFree "go" = true /\
  SuiteName sampleFile =
    fold_left (fun res part => res +:+ Title part) (regexp_Split "my_file") "".
Proof.
  split; [reflexivity|]. split; [reflexivity|].
  exact (SuiteName_of_stem sampleFile "my_file" "go" eq_refl eq_refl).
Defined.

(** [my_file.go] and [my-file.go] have the suite name [MyFile]; a file name
    without letters or digits before the extension has the empty one. *)
Example suite_names :
  map (fun name => SuiteName (mkFile (Ptr:=string) "v1" "sample" "/src" name ∅))
    ["my_file.go"; "my-file.go"; "gen.go"; "a.b.go"; "2fast.go"; "__.go"; "Makefile"] =
  ["MyFile"; "MyFile"; "Gen"; "AB"; "2fast"; ""; "Makefile"].
Proof. vm_compute. reflexivity. Qed.

End SuiteRuns.

(** ** The synthesizer: nil stubs, struct fields, maps *)

Section SynthFacts.

Import Gen.

Context {Ptr G : Type}.

Local Abbreviation State := (@Gen.State G).
Local Abbreviation M := (@Gen.M G).
Local Abbreviation RecursionInput := (@Gen.RecursionInput Ptr).
Local Abbreviation Generator := (@Gen.Generator Ptr G).

Variable g : Generator.

(** C6, as the code has it. The probes are made at two places. At a named
    type whose underlying type is not a struct: when that type is an
    ungeneratable interface, the synthesis returns the call of a
    parameterless function literal whose one result has the named type and
    whose body returns [nil]; when it is not, and is an ungeneratable
    function, the synthesis returns the conversion of [nil] to the named
    type. At a package-qualified reference that the import resolver finds:
    when the type found is an ungeneratable interface, the synthesis returns
    the same call of a function literal, its result typed by the reference
    as written. In each case the state is untouched and no deeper call is
    made: one level of call depth is enough. *)
Theorem nil_stub_for_ungeneratable (fuel : nat) (input : RecursionInput) (s : State) :
  (forall (name : string) (k : nat) (ts : TypeSpec),
     e input = Ident name (Some (TypeSpecDecl k)) ->
     TypeSpecs g !! k = Some ts ->
     (forall addr fields incomplete, SpecType ts <> StructType addr fields incomplete) ->
     let probe := mkInput (SpecType ts) (varName input) (pkgPointer input) in
     (ShouldReturnForInterface g (SpecType ts) probe = true ->
        TypeExprToValExpr g (S fuel) input s =
          Ok (mkRes
                (CallExpr
                   (FuncLit
                      (FuncType None (Some [mkField [] (CorrectTypeExpr g (e input) input)]))
                      [ReturnStmt [Ident "nil" None]])
                   [])
                [] [] [] [] []) s) /\
     (ShouldReturnForInterface g (SpecType ts) probe = false ->
      ShouldReturnForFunc g (SpecType ts) probe = true ->
        TypeExprToValExpr g (S fuel) input s =
          Ok (mkRes (CallExpr (CorrectTypeExpr g (e input) input) [Ident "nil" None])
                [] [] [] [] []) s)) /\
  (forall (x : string) (obj : option ObjDecl) (sel : string) (expr : Expr) (newPointer : Ptr),
     e input = SelectorExpr (Ident x obj) sel ->
     FindImport g (pkgPointer input) x sel = (true, expr, newPointer) ->
     ShouldReturnForInterface g expr (mkInput expr (varName input) newPointer) = true ->
     TypeExprToValExpr g (S fuel) input s =
       Ok (mkRes
             (CallExpr
                (FuncLit
                   (FuncType None (Some [mkField [] (CorrectTypeExpr g (e input) input)]))
                   [ReturnStmt [Ident "nil" None]])
                [])
             [] [] [] [] []) s).
Proof.
  split.
  - intros name k ts He Hk Hns probe. subst probe.
    cbn [TypeExprToValExpr]. unfold TypeExprToValExpr_body. rewrite He, Hk.
    unfold TypeSpecToValExpr.
    split.
    + intros Hi.
      destruct (SpecType ts) eqn:Hty; try (rewrite Hi; reflexivity).
      exfalso. eapply Hns. reflexivity.
    + intros Hi Hf.
      destruct (SpecType ts) eqn:Hty; try (rewrite Hi, Hf; reflexivity).
      exfalso. eapply Hns. reflexivity.
  - intros x obj sel expr newPointer He Hfind Hi.
    cbn [TypeExprToValExpr]. unfold TypeExprToValExpr_body. rewrite He.
    unfold SelectorExprToValExpr. rewrite He, Hfind. cbn [negb]. rewrite Hi.
    reflexivity.
Qed.

(** *** Struct fields *)

Section StructFields.

Variable rec : RecursionInput -> M TypeExprToValExprRes.
Variable input : RecursionInput.

Local Abbreviation keptEntry := (Gen.keptEntry rec input).

Lemma foldM_app {X A} (body : A -> X -> M A) (l1 l2 : list X) (a : A) (s : State) :
  foldM body (l1 ++ l2) a s = bind (foldM body l1 a) (foldM body l2) s.
Proof.
  revert a s; induction l1 as [|x l1 IH]; intros a s; cbn [foldM app].
  - reflexivity.
  - unfold bind. destruct (body a x s) as [a' s'| |]; [|reflexivity..].
    rewrite IH. reflexivity.
Qed.

Lemma foldM_flat_map {X Y A} (body : A -> Y -> M A) (h : X -> list Y)
    (step : A -> X -> M A) (l : list X) :
  (forall x, In x l -> forall a s, step a x s = foldM body (h x) a s) ->
  forall a s, foldM step l a s = foldM body (flat_map h l) a s.
Proof.
  induction l as [|x l IH]; intros Hstep a s; cbn [foldM flat_map].
  - reflexivity.
  - rewrite foldM_app. unfold bind. rewrite (Hstep x (or_introl eq_refl)).
    destruct (foldM body (h x) a s) as [a' s'| |]; [|reflexivity..].
    apply IH. intros y Hy. apply Hstep. right. exact Hy.
Qed.

Lemma skipsUnexported_eq (name : string) (s : State) :
  IsRoot g (pkgPointer input) = true \/ name <> "" ->
  skipsUnexported g input name s =
    Ok (negb (IsRoot g (pkgPointer input)) && startsLower name) s.
Proof.
  unfold skipsUnexported. destruct (IsRoot g (pkgPointer input)); cbn [negb andb].
  - reflexivity.
  - intros [Hr|Hn]; [discriminate|]. destruct name; [contradiction|reflexivity].
Qed.

Lemma namedFields_skipped (field : Field) (names : list string) acc (s : State) :
  (IsRoot g (pkgPointer input) = true \/ forall name, In name names -> name <> "") ->
  ShouldReturnForFunc g (FType field)
    (mkInput (FType field) (varName input) (pkgPointer input)) = true ->
  foldM (namedField g rec input field) names acc s = Ok acc s.
Proof.
  intros Hidx Hf. induction names as [|name names IH]; cbn [foldM]; [reflexivity|].
  unfold bind, namedField at 1. unfold bind.
  rewrite skipsUnexported_eq
    by (destruct Hidx as [Hr|Hn]; [left; exact Hr | right; apply Hn; left; reflexivity]).
  rewrite Hf.
  destruct (negb _ && _); apply IH;
    (destruct Hidx as [Hr|Hn]; [left; exact Hr | right; intros n Hin; apply Hn; right; exact Hin]).
Qed.

Lemma namedFields_kept (field : Field) (names : list string) acc (s : State) :
  (IsRoot g (pkgPointer input) = true \/ forall name, In name names -> name <> "") ->
  ShouldReturnForFunc g (FType field)
    (mkInput (FType field) (varName input) (pkgPointer input)) = false ->
  foldM (namedField g rec input field) names acc s =
    foldM keptEntry
      (map (fun name => (name, FType field))
         (List.filter (fun name =>
                    negb (negb (IsRoot g (pkgPointer input)) && startsLower name)) names))
      acc s.
Proof.
  intros Hidx Hf. revert acc s.
  induction names as [|name names IH]; intros acc s; cbn [foldM List.filter map];
    [reflexivity|].
  assert (Hidx' : IsRoot g (pkgPointer input) = true \/
                  forall n, In n names -> n <> "")
    by (destruct Hidx as [Hr|Hn]; [left; exact Hr | right; intros n Hin; apply Hn; right; exact Hin]).
  unfold bind at 1, namedField at 1. unfold bind at 1.
  rewrite skipsUnexported_eq
    by (destruct Hidx as [Hr|Hn]; [left; exact Hr | right; apply Hn; left; reflexivity]).
  rewrite Hf.
  destruct (negb (IsRoot g (pkgPointer input)) && startsLower name); cbn [negb].
  - apply IH. exact Hidx'.
  - cbn [foldM map]. unfold bind, keptEntry at 1. cbn [fst snd].
    destruct (fieldEntry rec input (FType field) name acc s) as [acc' s'| |];
      [|reflexivity..].
    apply IH. exact Hidx'.
Qed.

Lemma structField_kept (field : Field) acc (s : State) :
  (IsRoot g (pkgPointer input) = true \/
   (Names field = [] -> GetUnnamedStructIdent g (FType field) input <> "") /\
   (forall name, In name (Names field) -> name <> "")) ->
  structField g rec input acc field s = foldM keptEntry (keptEntries g input field) acc s.
Proof.
  intros Hidx. unfold structField, keptEntries.
  destruct (Names field) as [|n0 names] eqn:Hnames; cbn [length Nat.eqb].
  - unfold bind. rewrite skipsUnexported_eq
      by (destruct Hidx as [Hr|[Hn _]]; [left; exact Hr | right; apply Hn; reflexivity]).
    destruct (negb _ && _); [reflexivity|].
    cbn [foldM]. unfold keptEntry at 1. cbn [fst snd]. unfold bind.
    destruct (fieldEntry _ _ _ _ _ _) as [acc' s'| |]; reflexivity.
  - assert (Hidx' : IsRoot g (pkgPointer input) = true \/
                    forall n, In n (n0 :: names) -> n <> "")
      by (destruct Hidx as [Hr|[_ Hn]]; [left; exact Hr | right; exact Hn]).
    destruct (ShouldReturnForFunc g (FType field) _) eqn:Hf.
    + rewrite namedFields_skipped by assumption. reflexivity.
    + apply namedFields_kept; assumption.
Qed.

(** C8, as the code has it. Over a struct whose indexed names are not
    empty, [StructFieldsToKeyValExpr] is the recursion over the kept entries
    ([keptEntries]: in declared order, a lower-case name dropped outside the
    root package, a named field of an ungeneratable function type dropped in
    any package, an embedded field entered under the name derived from its
    type), each adding its key/value pair; so the entries of the literal it
    returns are keyed by the kept names, in that order. *)
Theorem struct_fields_kept_in_order (resType : Expr) (addr : nat) (fields : list Field)
    (incomplete : bool) (s : State) :
  e input = StructType addr fields incomplete ->
  namesIndexable g input fields ->
  StructFieldsToKeyValExpr g rec resType input s =
    bind (foldM keptEntry (flat_map (keptEntries g input) fields) (zeroRes, []))
      (fun acc => ret (withExpr (fst acc) (CompositeLit resType (snd acc)))) s /\
  (forall r s', StructFieldsToKeyValExpr g rec resType input s = Ok r s' ->
     exists values,
       length values = length (flat_map (keptEntries g input) fields) /\
       ResExpr r =
         CompositeLit resType
           (zip_with (fun nt v => KeyValueExpr (Ident (fst nt) None) v)
              (flat_map (keptEntries g input) fields) values)).
Proof.
  intros He Hidx.
  assert (Heq : StructFieldsToKeyValExpr g rec resType input s =
    bind (foldM keptEntry (flat_map (keptEntries g input) fields) (zeroRes, []))
      (fun acc => ret (withExpr (fst acc) (CompositeLit resType (snd acc)))) s).
  { unfold StructFieldsToKeyValExpr. rewrite He. unfold bind.
    rewrite (foldM_flat_map keptEntry (keptEntries g input) (structField g rec input)).
    - destruct (foldM _ _ _ _) as [[result elts] s'| |]; reflexivity.
    - intros field Hin acc s0. apply structField_kept.
      destruct Hidx as [Hr|Hn]; [left; exact Hr | right; apply Hn; exact Hin]. }
  split; [exact Heq|].
  intros r s' Hok. rewrite Heq in Hok. unfold bind in Hok.
  pose proof (holds_foldM True keptEntry
    (fun seen acc _ =>
       exists values, length values = length seen /\
         snd acc = zip_with (fun nt v => KeyValueExpr (Ident (fst nt) None) v) seen values))
    as Hfold.
  specialize (Hfold ltac:(
    intros seen nt acc s0 (values & Hlen & Hacc);
    unfold Gen.keptEntry, fieldEntry; apply holds_bind;
    destruct (rec _ s0) as [rr s1| |]; cbn; [|exact I..];
    exists (values ++ [ResExpr rr]); split;
    [rewrite !length_app, Hlen; reflexivity
    |rewrite Hacc, zip_with_app by (symmetry; exact Hlen); reflexivity])).
  specialize (Hfold (flat_map (keptEntries g input) fields) [] (zeroRes, []) s
                (ex_intro _ [] (conj eq_refl eq_refl))).
  cbn [app] in Hfold.
  destruct (foldM _ _ _ _) as [[result elts] s1| |]; [|discriminate..].
  cbn in Hfold. destruct Hfold as (values & Hlen & Helts).
  injection Hok as <- <-. exists values. split; [exact Hlen|].
  cbn in *. rewrite Helts. reflexivity.
Qed.

End StructFields.

(** *** Maps *)

Lemma existsb_eqb_false (x : string) (d : list string) :
  existsb (String.eqb x) d = false -> ~ In x d.
Proof.
  intros H Hin. assert (Ht : existsb (String.eqb x) d = true).
  { apply existsb_exists. exists x. split; [exact Hin|apply String.eqb_refl]. }
  congruence.
Qed.

(** C5. When [MapExprToValExpr] returns, its expression is a composite
    literal of the map type whose entries are key/value pairs with pairwise
    different key texts, and there are at most as many entries as the length
    the policy chose: a key already accepted uses up its round of the loop. *)
Theorem map_keys_distinct (rec : RecursionInput -> M TypeExprToValExprRes)
    (input : RecursionInput) (key value : Expr) (s s' : State)
    (r : TypeExprToValExprRes) :
  e input = MapType key value ->
  MapExprToValExpr g rec input s = Ok r s' ->
  exists elts,
    ResExpr r =
      CompositeLit (MapType (CorrectTypeExpr g key input) (CorrectTypeExpr g value input))
        elts /\
    Forall (fun x => isKeyValueExpr x = true) elts /\
    NoDup (map (fun x => PrintExpr g (entryKey x)) elts) /\
    (Z.of_nat (length elts) <= Z.max 0 (fst (ValGenerator_MapLen g (oracle s))))%Z.
Proof.
  intros He Hok. unfold MapExprToValExpr in Hok. rewrite He in Hok.
  unfold bind at 1, draw in Hok.
  destruct (ValGenerator_MapLen g (oracle s)) as [mapLen o] eqn:Hlen.
  cbn [fst]. unfold bind, forUpTo in Hok.
  pose proof (holds_foldM True
    (fun a (_ : nat) => mapEntry g rec key value input a)
    (fun seen (acc : TypeExprToValExprRes * list Expr * DuplMapChecker) _ =>
       let '(_, elts, d) := acc in
       d = map (fun x => PrintExpr g (entryKey x)) elts /\
       NoDup d /\
       Forall (fun x => isKeyValueExpr x = true) elts /\
       (length elts <= length seen)%nat)) as Hfold.
  specialize (Hfold ltac:(
    intros seen i [[result elts] d] s0 (Hd & Hnd & Hkv & Hle);
    unfold mapEntry; apply holds_bind;
    destruct (rec _ s0) as [kr s1| |]; cbn [holds]; [|exact I..];
    unfold IsDuplExpr;
    destruct (existsb (String.eqb (PrintExpr g (ResExpr kr))) d) eqn:Hdup;
    [ cbn; rewrite length_app; cbn; repeat split; auto; lia
    | apply holds_bind;
      destruct (rec _ s1) as [vr s2| |]; cbn [holds]; [|exact I..];
      cbn; rewrite map_app, !length_app; cbn; repeat split;
      [ rewrite Hd; reflexivity
      | apply NoDup_app; repeat split;
        [ exact Hnd
        | intros x Hx Hx'; apply list_elem_of_In in Hx';
          destruct Hx' as [<-|[]]; apply list_elem_of_In in Hx;
          exact (existsb_eqb_false _ _ Hdup Hx)
        | apply NoDup_singleton ]
      | apply Forall_app; split; [exact Hkv | repeat constructor]
      | lia ] ])).
  specialize (Hfold (seq 0 (Z.to_nat mapLen)) [] (zeroRes, [], NewDuplMapChecker)
                (mkState (counter s) o (Expanded s))).
  cbn [app] in Hfold.
  specialize (Hfold ltac:(cbn; repeat split; [constructor | constructor | lia])).
  destruct (foldM _ _ _ _) as [[[result elts] d] s1| |]; [|discriminate..].
  cbn [holds] in Hfold. destruct Hfold as (Hd & Hnd & Hkv & Hle).
  injection Hok as <- <-. exists elts. cbn [ResExpr withExpr].
  split; [reflexivity|]. split; [exact Hkv|]. split; [rewrite <- Hd; exact Hnd|].
  rewrite length_seq in Hle. lia.
Qed.

(** *** The memo is written before the recursion *)

(** C3. On the first encounter of a struct type, [StructExprToValExpr] is the
    field recursion run from a state whose [StructMem] holds the bare
    literal of the named type for it; on the first encounter of an interface
    type with methods, [InterfaceTypeToValExpr] is the generation of the
    method bodies, followed by the address of a literal of the implementing
    type, run from a state whose [InterfaceMem] holds the implementing
    type's declaration for it; and no call of the synthesis removes an
    entry of either memo, so every deeper call finds them. *)
Theorem memo_written_before_recursion (fuel : nat) :
  (forall (input : RecursionInput) addr fields incomplete (s : State),
     e input = StructType addr fields incomplete ->
     StructMem (counter s) !! addr = None ->
     let ident := CorrectTypeExpr g (Ident (varName input) None) input in
     exists s1,
       StructExprToValExpr g (TypeExprToValExpr g fuel) input s =
         StructFieldsToKeyValExpr g (TypeExprToValExpr g fuel) ident input s1 /\
       StructMem (counter s1) !! addr = Some (CompositeLit ident [])) /\
  (forall (input : RecursionInput) addr method methods incomplete (s : State),
     e input = InterfaceType addr (method :: methods) incomplete ->
     InterfaceMem (counter s) !! addr = None ->
     exists s1 interfaceImplIdent,
       InterfaceTypeToValExpr g (InterfaceTypeToFuncImpl g fuel) input s =
         bind (InterfaceTypeToFuncImpl g fuel input interfaceImplIdent)
           (fun implementationResult =>
              ret (withExpr
                     (Merge (withDeclarations zeroRes
                               [InterfaceGenDecl g input interfaceImplIdent])
                        implementationResult)
                     (UnaryExpr AND (CompositeLit (Ident interfaceImplIdent None) []))))
           s1 /\
       InterfaceMem (counter s1) !! addr =
         Some (InterfaceGenDecl g input interfaceImplIdent)) /\
  (forall (input : RecursionInput) (s s' : State) r,
     TypeExprToValExpr g fuel input s = Ok r s' ->
     (forall addr, is_Some (StructMem (counter s) !! addr) ->
                   is_Some (StructMem (counter s') !! addr)) /\
     (forall addr, is_Some (InterfaceMem (counter s) !! addr) ->
                   is_Some (InterfaceMem (counter s') !! addr))) /\
  (forall (input : RecursionInput) ident (s s' : State) r,
     InterfaceTypeToFuncImpl g fuel input ident s = Ok r s' ->
     (forall addr, is_Some (StructMem (counter s) !! addr) ->
                   is_Some (StructMem (counter s') !! addr)) /\
     (forall addr, is_Some (InterfaceMem (counter s) !! addr) ->
                   is_Some (InterfaceMem (counter s') !! addr))).
Proof.
  split; [|split; [|split]].
  - intros input addr fields incomplete s He Hmem ident.
    unfold StructExprToValExpr. rewrite He. fold ident.
    unfold bind, memoStruct, countStruct, noteExpansion. rewrite Hmem. cbn.
    eexists. split; [reflexivity|]. cbn. apply lookup_insert_eq.
  - intros input addr method methods incomplete s He Hmem.
    unfold InterfaceTypeToValExpr. rewrite He.
    unfold bind at 1 2 3, countInterface, draw, memoInterface. cbn.
    destruct (VarGenerator_Generate g (oracle s)) as [name o]. cbn. rewrite Hmem.
    eexists. exists (strings_Title g name). split; [reflexivity|].
    cbn. apply lookup_insert_eq.
  - intros input s s' r Hok.
    pose proof (proj1 (mono_synthesis g fuel) input s) as H. rewrite Hok in H.
    destruct H as (_ & _ & H1 & H2 & _).
    split; intros addr [m Hm]; exists m; eapply lookup_weaken; eassumption.
  - intros input ident s s' r Hok.
    pose proof (proj2 (mono_synthesis g fuel) input ident s) as H. rewrite Hok in H.
    destruct H as (_ & _ & H1 & H2 & _).
    split; intros addr [m Hm]; exists m; eapply lookup_weaken; eassumption.
Qed.

End SynthFacts.

(** ** The synthesizer: runs on the sample package *)

Section SynthRuns.

Import Gen.

Local Abbreviation g3 := (sampleGenerator 3).

(** The named interface [Reader] is ungeneratable:
    [func() Reader { return nil }()]; so is the interface that [io.Reader]
    resolves to: [func() io.Reader { return nil }()]. *)
Lemma nil_stub_for_ungeneratable_witness :
  (e (mkInput identReader "p" "") = Ident "Reader" (Some (TypeSpecDecl 3)) /\
   TypeSpecs g3 !! 3%nat = Some (mkTypeSpec "Reader" interfaceReader) /\
   ShouldReturnForInterface g3 interfaceReader (mkInput interfaceReader "p" "") = true /\
   TypeExprToValExpr g3 1 (mkInput identReader "p" "") (freshState 0) =
     Ok (mkRes
           (CallExpr
              (FuncLit (FuncType None (Some [mkField [] identReader]))
                 [ReturnStmt [Ident "nil" None]])
              [])
           [] [] [] [] []) (freshState 0)) /\
  (FindImport (importingGenerator 3) "" "io" "Reader" = (true, interfaceReader, "io") /\
   ShouldReturnForInterface (importingGenerator 3) interfaceReader
     (mkInput interfaceReader "p" "io") = true /\
   TypeExprToValExpr (importingGenerator 3) 1 (mkInput selectorReader "p" "") (freshState 0) =
     Ok (mkRes
           (CallExpr
              (FuncLit (FuncType None (Some [mkField [] selectorReader]))
                 [ReturnStmt [Ident "nil" None]])
              [])
           [] [] [] [] []) (freshState 0)).
Proof.
  split.
  - split; [reflexivity|]. split; [reflexivity|]. split; [reflexivity|].
    refine (proj1 (proj1 (nil_stub_for_ungeneratable g3 0 (mkInput identReader "p" "")
                            (freshState 0))
                     "Reader" 3%nat (mkTypeSpec "Reader" interfaceReader)
                     eq_refl eq_refl _) eq_refl).
    intros addr fields incomplete. discriminate.
  - split; [reflexivity|]. split; [reflexivity|].
    exact (proj2 (nil_stub_for_ungeneratable (importingGenerator 3) 0
                    (mkInput selectorReader "p" "") (freshState 0))
             "io" None "Reader" interfaceReader "io" eq_refl eq_refl eq_refl).
Defined.

(** The named function type [Handler] is ungeneratable: [Handler(nil)]. *)
Example handler_nil_stub :
  TypeExprToValExpr g3 1 (mkInput identHandler "p" "") (freshState 0) =
    Ok (mkRes (CallExpr identHandler [Ident "nil" None]) [] [] [] [] []) (freshState 0).
Proof. reflexivity. Qed.

(** C6 as stated fails on types written inline, which are not probed. The
    function type [func(chan<- unresolved)] is ungeneratable and its
    synthesis is a function literal, not a conversion of [nil]; the
    interface [interface { Read() unresolved }] is ungeneratable and its
    synthesis is the address of a literal of a new implementing type, with
    that type and its method declared, not a call of a function literal. *)
Lemma inline_types_are_not_probed :
  (ShouldReturnForFunc g3 funcHandler (mkInput funcHandler "p" "") = true /\
   TypeExprToValExpr g3 1 (mkInput funcHandler "p" "") (freshState 0) =
     Ok (mkRes (FuncLit funcHandler [ReturnStmt []]) [] [] [] [] []) (freshState 0) /\
   FuncLit funcHandler [ReturnStmt []] <> CallExpr funcHandler [Ident "nil" None]) /\
  (ShouldReturnForInterface g3 interfaceReader (mkInput interfaceReader "p" "") = true /\
   exists s',
     TypeExprToValExpr g3 4 (mkInput interfaceReader "p" "") (freshState 0) =
       Ok (mkRes
             (UnaryExpr AND (CompositeLit (Ident "a" None) []))
             []
             [GenDecl TYPE [TypeSpecS (mkTypeSpec "a" (StructType 100 [] false))];
              FuncDeclD
                (mkFuncDecl (Some [mkField ["s"] (StarExpr (Ident "a" None))]) "Read"
                   (FuncType (Some []) (Some [mkField [] (Ident "unresolved" None)]))
                   [AssignStmt [Ident "b" None] DEFINE [BasicLit ""];
                    ReturnStmt [Ident "b" None]])]
             [] [] []) s' /\
     UnaryExpr AND (CompositeLit (Ident "a" None) []) <>
       CallExpr
         (FuncLit (FuncType None (Some [mkField [] interfaceReader]))
            [ReturnStmt [Ident "nil" None]])
         []).
Proof.
  split.
  - split; [reflexivity|]. split; [reflexivity|]. discriminate.
  - split; [reflexivity|]. eexists. split; [vm_compute; reflexivity|]. discriminate.
Qed.

(** A function type behind a package-qualified reference: the selector case
    makes the interface probe only, and [io.Handler], an ungeneratable
    function type, is synthesized as a function literal. *)
Example function_behind_selector :
  ShouldReturnForFunc (importingGenerator 3) funcHandler (mkInput funcHandler "p" "io") =
    true /\
  TypeExprToValExpr (importingGenerator 3) 2 (mkInput selectorHandler "p" "") (freshState 0) =
    Ok (mkRes (FuncLit funcHandler [ReturnStmt []]) [] [] [] [] []) (freshState 0).
Proof. split; reflexivity. Qed.

(** [Server] in the root package: the embedded [Handler], [name] and [Port]
    are entered, and [h], a named field of an ungeneratable function type,
    is not. *)
Lemma struct_fields_kept_in_order_witness :
  e (mkInput structServer "Server" "") =
    StructType 5
      [mkField [] identHandler; mkField ["name"] (Ident "string" None);
       mkField ["Port"] (Ident "int" None); mkField ["h"] identHandler] false /\
  namesIndexable g3 (mkInput structServer "Server" "")
    [mkField [] identHandler; mkField ["name"] (Ident "string" None);
     mkField ["Port"] (Ident "int" None); mkField ["h"] identHandler] /\
  StructFieldsToKeyValExpr g3 (TypeExprToValExpr g3 2) (Ident "Server" None)
    (mkInput structServer "Server" "") (freshState 0) =
    bind (foldM (keptEntry (TypeExprToValExpr g3 2) (mkInput structServer "Server" ""))
            [("Handler", identHandler); ("name", Ident "string" None);
             ("Port", Ident "int" None)]
            (zeroRes, []))
      (fun acc => ret (withExpr (fst acc) (CompositeLit (Ident "Server" None) (snd acc))))
      (freshState 0).
Proof.
  split; [reflexivity|]. split; [left; reflexivity|].
  exact (proj1 (struct_fields_kept_in_order g3 (TypeExprToValExpr g3 2)
                  (mkInput structServer "Server" "") (Ident "Server" None) 5 _ false
                  (freshState 0) eq_refl (or_introl eq_refl))).
Defined.

(** [Server] in another package: the lower-case [name] and [h] are dropped. *)
Example unexported_fields_dropped :
  TypeExprToValExpr g3 3 (mkInput identServer "p" "other") (freshState 0) =
    Ok (mkRes
          (CompositeLit (Ident "Server" None)
             [KeyValueExpr (Ident "Handler" None) (CallExpr identHandler [Ident "nil" None]);
              KeyValueExpr (Ident "Port" None) (BasicLit "0")])
          [] [] [] [] [])
       (mkState
          (mkCycleInfo {["Serverother" := 1%Z]} ∅ ∅
             {[5%nat := CompositeLit (Ident "Server" None) []]} ∅)
          1 ["Serverother"]).
Proof. vm_compute. reflexivity. Qed.

(** C8 as stated fails on the embedded field of [Server]: its type is an
    ungeneratable function, and it is entered all the same. *)
Lemma embedded_function_field_kept :
  ShouldReturnForFunc g3 identHandler (mkInput identHandler "Server" "") = true /\
  map fst (flat_map (keptEntriesClaimed g3 (mkInput structServer "Server" ""))
             [mkField [] identHandler; mkField ["name"] (Ident "string" None);
              mkField ["Port"] (Ident "int" None); mkField ["h"] identHandler]) =
    ["name"; "Port"] /\
  exists s',
    StructFieldsToKeyValExpr g3 (TypeExprToValExpr g3 2) (Ident "Server" None)
      (mkInput structServer "Server" "") (freshState 0) =
      Ok (mkRes
            (CompositeLit (Ident "Server" None)
               [KeyValueExpr (Ident "Handler" None)
                  (CallExpr identHandler [Ident "nil" None]);
                KeyValueExpr (Ident "name" None) (BasicLit "0");
                KeyValueExpr (Ident "Port" None) (BasicLit "0")])
            [] [] [] [] []) s'.
Proof.
  split; [reflexivity|]. split; [reflexivity|].
  eexists. vm_compute. reflexivity.
Qed.

(** A map from [bool] to [int] of chosen length three: the third key repeats
    the first, and the literal has two entries. *)
Lemma map_keys_distinct_witness :
  e (mkInput (MapType (Ident "bool" None) (Ident "int" None)) "m" "") =
    MapType (Ident "bool" None) (Ident "int" None) /\
  MapExprToValExpr g3 (TypeExprToValExpr g3 1)
    (mkInput (MapType (Ident "bool" None) (Ident "int" None)) "m" "") (freshState 0) =
    Ok (mkRes
          (CompositeLit (MapType (Ident "bool" None) (Ident "int" None))
             [KeyValueExpr (BasicLit "true") (BasicLit "0");
              KeyValueExpr (BasicLit "false") (BasicLit "0")])
          [] [] [] [] [])
       (mkState FreshCycleInfo 5 []) /\
  exists elts,
    CompositeLit (MapType (Ident "bool" None) (Ident "int" None))
      [KeyValueExpr (BasicLit "true") (BasicLit "0");
       KeyValueExpr (BasicLit "false") (BasicLit "0")] =
      CompositeLit (MapType (Ident "bool" None) (Ident "int" None)) elts /\
    NoDup (map (fun x => PrintExpr g3 (entryKey x)) elts) /\
    (Z.of_nat (length elts) <= 3)%Z.
Proof.
  split; [reflexivity|]. split; [reflexivity|].
  destruct (map_keys_distinct g3 (TypeExprToValExpr g3 1)
              (mkInput (MapType (Ident "bool" None) (Ident "int" None)) "m" "")
              (Ident "bool" None) (Ident "int" None) (freshState 0)
              (mkState FreshCycleInfo 5 []) _ eq_refl eq_refl)
    as (elts & Hexpr & _ & Hnodup & Hlen).
  exists elts. split; [exact Hexpr|]. split; [exact Hnodup|exact Hlen].
Defined.

(** The first encounter of [A]: its fields are synthesized from a state that
    already holds the bare literal [A{}]. *)
Lemma memo_written_before_recursion_witness :
  e (mkInput structA "A" "") = StructType 1 [mkField ["B"] (StarExpr identB)] false /\
  StructMem (counter (freshState 0)) !! 1%nat = None /\
  exists s1,
    StructExprToValExpr g3 (TypeExprToValExpr g3 9) (mkInput structA "A" "") (freshState 0) =
      StructFieldsToKeyValExpr g3 (TypeExprToValExpr g3 9) (Ident "A" None)
        (mkInput structA "A" "") s1 /\
    StructMem (counter s1) !! 1%nat = Some (CompositeLit (Ident "A" None) []).
Proof.
  split; [reflexivity|]. split; [reflexivity|].
  exact (proj1 (memo_written_before_recursion g3 9) (mkInput structA "A" "") 1 _ false
           (freshState 0) eq_refl eq_refl).
Defined.

(** [A] contains [B] contains [A], with a maximum of one: the inner [A] is
    the memoized bare literal, found while the outer [A] is in progress. *)
Example mutual_recursion_finds_skeleton :
  match TypeExprToValExpr (sampleGenerator 1) 9 (mkInput identA "p" "") (freshState 0) with
  | Ok r s => Some (ResExpr r, Statements r, Expanded s)
  | _ => None
  end =
  Some (CompositeLit (Ident "A" None)
          [KeyValueExpr (Ident "B" None) (UnaryExpr AND (Ident "Ba" None))],
        [assignStmt (Ident "Ab" None) (CompositeLit (Ident "A" None) []);
         assignStmt (Ident "Ba" None)
           (CompositeLit (Ident "B" None)
              [KeyValueExpr (Ident "A" None) (UnaryExpr AND (Ident "Ab" None))])],
        ["B"; "A"]).
Proof. vm_compute. reflexivity. Qed.

End SynthRuns.

(** ** The synthesizer: termination over a closed universe *)

Section Termination.

Import Gen.

Context {Ptr G : Type}.

Local Abbreviation State := (@Gen.State G).
Local Abbreviation M := (@Gen.M G).
Local Abbreviation RecursionInput := (@Gen.RecursionInput Ptr).
Local Abbreviation Generator := (@Gen.Generator Ptr G).

Variable g : Generator.

(** *** Safe computations *)

Section Safe.

Variable P : State -> Prop.
Hypothesis P_oracle : forall s o, P s -> P (mkState (counter s) o (Expanded s)).

Lemma safe_ret {A} (a : A) : safe P (ret a).
Proof. intros s Hs. exact Hs. Qed.

Lemma safe_bind {A B} (m : M A) (k : A -> M B) :
  safe P m -> (forall a, safe P (k a)) -> safe P (bind m k).
Proof.
  intros Hm Hk s Hs. apply holds_bind. eapply holds_mono; [apply Hm, Hs|].
  intros a s' Hs'. apply Hk, Hs'.
Qed.

Lemma safe_draw {A} (f : G -> A * G) : safe P (draw f).
Proof. intros s Hs. apply holds_draw. intros a o _. apply P_oracle, Hs. Qed.

Lemma safe_foldM {X A} (body : A -> X -> M A) (l : list X) (a : A) :
  (forall a x, In x l -> safe P (body a x)) -> safe P (foldM body l a).
Proof.
  revert a; induction l as [|x l IH]; intros a Hbody; cbn [foldM].
  - apply safe_ret.
  - apply safe_bind; [apply Hbody; left; reflexivity|].
    intros a'. apply IH. intros a0 y Hy. apply Hbody. right. exact Hy.
Qed.

Lemma safe_forUpTo {A} (n : Z) (body : A -> M A) (a : A) :
  (forall a, safe P (body a)) -> safe P (forUpTo n body a).
Proof. intros Hbody. unfold forUpTo. apply safe_foldM. intros a0 _ _. apply Hbody. Qed.

Variable rec : RecursionInput -> M TypeExprToValExprRes.
Variable recImpl : RecursionInput -> string -> M TypeExprToValExprRes.

(** [rec] is safe on the type [x] at [p], under any variable name. *)
Local Abbreviation safeOn x p := (forall v, safe P (rec (mkInput x v p))).

Lemma safe_skipsUnexported (input : RecursionInput) (name : string) :
  IsRoot g (pkgPointer input) = true \/ name <> "" ->
  safe P (skipsUnexported g input name).
Proof.
  intros H s Hs. rewrite skipsUnexported_eq by exact H. exact Hs.
Qed.

Lemma safe_fieldEntry (input : RecursionInput) ty name acc :
  safeOn ty (pkgPointer input) -> safe P (fieldEntry rec input ty name acc).
Proof.
  intros H. unfold fieldEntry. apply safe_bind; [apply H|]. intros. apply safe_ret.
Qed.

Lemma safe_namedField (input : RecursionInput) field acc name :
  IsRoot g (pkgPointer input) = true \/ name <> "" ->
  safeOn (FType field) (pkgPointer input) ->
  safe P (namedField g rec input field acc name).
Proof.
  intros Hn H. unfold namedField.
  apply safe_bind; [apply safe_skipsUnexported, Hn|].
  intros [|]; [apply safe_ret|].
  destruct (ShouldReturnForFunc _ _ _); [apply safe_ret|].
  apply safe_fieldEntry, H.
Qed.

Lemma safe_structField (input : RecursionInput) acc field :
  (IsRoot g (pkgPointer input) = true \/
   (Names field = [] -> GetUnnamedStructIdent g (FType field) input <> "") /\
   (forall name, In name (Names field) -> name <> "")) ->
  safeOn (FType field) (pkgPointer input) ->
  safe P (structField g rec input acc field).
Proof.
  intros Hidx H. unfold structField.
  assert (Hnames : forall acc0 n, In n (Names field) ->
            safe P (namedField g rec input field acc0 n)).
  { intros acc0 n Hn. apply safe_namedField; [|exact H].
    destruct Hidx as [Hr|[_ Hne]]; [left; exact Hr | right; apply Hne, Hn]. }
  destruct (Names field) as [|n0 names] eqn:E; cbn [length Nat.eqb].
  - apply safe_bind.
    + apply safe_skipsUnexported.
      destruct Hidx as [Hr|[Hne _]]; [left; exact Hr | right; apply Hne; reflexivity].
    + intros [|]; [apply safe_ret|].
      apply safe_bind; [apply safe_fieldEntry, H|]. intros. apply safe_ret.
  - apply safe_foldM. intros. apply Hnames. assumption.
Qed.

Lemma safe_StructFieldsToKeyValExpr (input : RecursionInput) resType addr fields incomplete :
  e input = StructType addr fields incomplete ->
  fieldsIndexable g (pkgPointer input) fields ->
  (forall field, In field fields -> safeOn (FType field) (pkgPointer input)) ->
  safe P (StructFieldsToKeyValExpr g rec resType input).
Proof.
  intros He Hidx H. unfold StructFieldsToKeyValExpr. rewrite He.
  apply safe_bind; [|intros [? ?]; apply safe_ret].
  apply safe_foldM. intros acc field Hin. apply safe_structField; [|apply H, Hin].
  destruct Hidx as [Hr|Hf]; [left; exact Hr|right].
  destruct (Hf field Hin) as [H1 H2]. split; [intros Hn; apply H1, Hn | exact H2].
Qed.

Lemma safe_IdentWithNilObjectToValExpr_basic (input : RecursionInput) name :
  IsBasicLit g name = true \/ IsError g name = true ->
  safe P (IdentWithNilObjectToValExpr g rec name input).
Proof.
  intros H. unfold IdentWithNilObjectToValExpr.
  destruct (IsBasicLit g name).
  - apply safe_bind; [apply safe_draw|]. intros. apply safe_ret.
  - destruct H as [H|H]; [discriminate|]. rewrite H. apply safe_draw.
Qed.

Lemma safe_IdentWithNilObjectToValExpr_resolved (input : RecursionInput) name found x p' :
  FindInCurrent g (pkgPointer input) name = (found, x, p') ->
  safeOn x p' ->
  safe P (IdentWithNilObjectToValExpr g rec name input).
Proof.
  intros Hf H. unfold IdentWithNilObjectToValExpr.
  destruct (IsBasicLit g name).
  - apply safe_bind; [apply safe_draw|]. intros. apply safe_ret.
  - destruct (IsError g name); [apply safe_draw|]. rewrite Hf. apply H.
Qed.

Lemma safe_TypeSpecToValExpr_other (input : RecursionInput) t k ts :
  isStructType (SpecType ts) = false ->
  safeOn (SpecType ts) (pkgPointer input) ->
  safe P (TypeSpecToValExpr g rec t k ts input).
Proof.
  intros Hns H. unfold TypeSpecToValExpr.
  destruct (SpecType ts) eqn:E; try discriminate;
    (destruct (ShouldReturnForInterface _ _ _); [apply safe_ret|];
     destruct (ShouldReturnForFunc _ _ _); [apply safe_ret|];
     apply safe_bind; [apply H|]; intros; cbn [isInterfaceType]; apply safe_ret).
Qed.

Lemma safe_SelectorExprToValExpr (input : RecursionInput) x obj sel found y p' :
  e input = SelectorExpr (Ident x obj) sel ->
  FindImport g (pkgPointer input) x sel = (found, y, p') ->
  (found = true -> safeOn y p') ->
  safe P (SelectorExprToValExpr g rec input).
Proof.
  intros He Hf H. unfold SelectorExprToValExpr. rewrite He, Hf.
  destruct found; cbn [negb]; [|apply safe_ret].
  destruct (ShouldReturnForInterface _ _ _); [apply safe_ret|].
  apply safe_bind; [apply H; reflexivity|]. intros. apply safe_ret.
Qed.

Lemma safe_returnField (input : RecursionInput) res acc :
  safeOn (FType res) (pkgPointer input) ->
  safe P (returnField g rec res input acc).
Proof.
  intros H. unfold returnField, ReturnFieldToStmt.
  apply safe_bind; [|intros; apply safe_ret].
  apply safe_bind; [apply safe_draw|]. intros.
  apply safe_bind; [apply H|]. intros. apply safe_ret.
Qed.

Lemma safe_FuncReturnListToBodyStatements (input : RecursionInput) params results :
  e input = FuncType params results ->
  (forall list res, results = Some list -> In res list ->
     safeOn (FType res) (pkgPointer input)) ->
  safe P (FuncReturnListToBodyStatements g rec input).
Proof.
  intros He H. unfold FuncReturnListToBodyStatements. rewrite He.
  apply safe_bind; [|intros [? ?]; apply safe_ret].
  destruct results as [list|]; [|apply safe_ret].
  apply safe_foldM. intros acc res Hin.
  assert (Hres : forall acc0, safe P (returnField g rec res input acc0))
    by (intros; apply safe_returnField; eapply H; [reflexivity|exact Hin]).
  apply safe_bind.
  - destruct (_ =? _)%nat; [apply Hres | apply safe_ret].
  - intros. apply safe_foldM. intros. apply Hres.
Qed.

Lemma safe_FuncTypeToValExpr (input : RecursionInput) params results :
  e input = FuncType params results ->
  (forall list res, results = Some list -> In res list ->
     safeOn (FType res) (pkgPointer input)) ->
  safe P (FuncTypeToValExpr g rec input).
Proof.
  intros He H. unfold FuncTypeToValExpr.
  destruct (CorrectTypeExpr g (e input) input); try apply safe_ret.
  apply safe_bind; [|intros; apply safe_ret].
  eapply safe_FuncReturnListToBodyStatements; eassumption.
Qed.

Lemma safe_ChanTypeToValExpr (input : RecursionInput) t dir :
  safe P (ChanTypeToValExpr g t dir input).
Proof.
  unfold ChanTypeToValExpr. apply safe_bind; [apply safe_draw|]. intros.
  destruct dir; apply safe_ret.
Qed.

Lemma safe_ArrayExprToValExpr (input : RecursionInput) len elt :
  e input = ArrayType len elt ->
  safeOn elt (pkgPointer input) ->
  safe P (ArrayExprToValExpr g rec input).
Proof.
  intros He H. unfold ArrayExprToValExpr. rewrite He.
  apply safe_bind; [apply safe_draw|]. intros n.
  apply safe_bind; [|intros [? ?]; apply safe_ret].
  apply safe_forUpTo. intros acc. apply safe_bind; [apply H|]. intros. apply safe_ret.
Qed.

Lemma safe_MapExprToValExpr (input : RecursionInput) key value :
  e input = MapType key value ->
  safeOn key (pkgPointer input) -> safeOn value (pkgPointer input) ->
  safe P (MapExprToValExpr g rec input).
Proof.
  intros He Hk Hv. unfold MapExprToValExpr. rewrite He.
  apply safe_bind; [apply safe_draw|]. intros n.
  apply safe_bind; [|intros [[? ?] ?]; apply safe_ret].
  apply safe_forUpTo. intros [[result elts] d]. unfold mapEntry.
  apply safe_bind; [apply Hk|]. intros kr.
  destruct (IsDuplExpr g d (ResExpr kr)) as [[|] d']; [apply safe_ret|].
  apply safe_bind; [apply Hv|]. intros. apply safe_ret.
Qed.

Lemma safe_StarExprToValExpr (input : RecursionInput) x :
  e input = StarExpr x ->
  safeOn x (pkgPointer input) ->
  safe P (StarExprToValExpr g rec input).
Proof.
  intros He H. unfold StarExprToValExpr. rewrite He.
  apply safe_bind; [apply safe_draw|]. intros.
  apply safe_bind; [apply H|]. intros. apply safe_ret.
Qed.

Lemma safe_leaf (input : RecursionInput) :
  isLeafType (e input) = true ->
  safe P (TypeExprToValExpr_body g rec recImpl input).
Proof.
  intros H. unfold TypeExprToValExpr_body.
  destruct (e input) eqn:He; cbn in H; try discriminate; try apply safe_ret.
  - repeat match goal with
           | H : match ?x with _ => _ end = true |- _ => destruct x; try discriminate
           end.
    apply safe_ret.
  - apply safe_ChanTypeToValExpr.
  - unfold InterfaceTypeToValExpr. rewrite He.
    match goal with
    | H : match ?x with _ => _ end = true |- _ => destruct x; try discriminate
    end.
    apply safe_bind; [apply safe_draw|]. intros.
    apply safe_bind; [apply safe_draw|]. intros. apply safe_ret.
  - unfold SelectorExprToValExpr. rewrite He.
    match goal with
    | H : match ?x with _ => _ end = true |- _ => destruct x; try discriminate
    end; apply safe_ret.
Qed.

End Safe.

(** *** The budget *)

Lemma list_sum_map_le {X} (f f' : X -> nat) (l : list X) :
  (forall x, In x l -> (f' x <= f x)%nat) ->
  (list_sum (map f' l) <= list_sum (map f l))%nat.
Proof.
  unfold list_sum.
  induction l as [|x l IH]; intros H; cbn [map fold_right]; [lia|].
  pose proof (H x (or_introl eq_refl)).
  assert (fold_right Nat.add 0 (map f' l) <= fold_right Nat.add 0 (map f l))%nat
    by (apply IH; intros y Hy; apply H; right; exact Hy).
  lia.
Qed.

Lemma list_sum_map_lt {X} (f f' : X -> nat) (l : list X) (x0 : X) :
  (forall x, In x l -> (f' x <= f x)%nat) ->
  In x0 l -> (f' x0 < f x0)%nat ->
  (list_sum (map f' l) < list_sum (map f l))%nat.
Proof.
  induction l as [|x l IH]; intros H Hin Hlt; [destruct Hin|].
  pose proof (H x (or_introl eq_refl)).
  assert (Hl : (list_sum (map f' l) <= list_sum (map f l))%nat)
    by (apply list_sum_map_le; intros y Hy; apply H; right; exact Hy).
  unfold list_sum in *. cbn [map fold_right].
  destruct Hin as [->|Hin].
  - lia.
  - assert (fold_right Nat.add 0 (map f' l) < fold_right Nat.add 0 (map f l))%nat
      by (apply IH; [intros y Hy; apply H; right; exact Hy | exact Hin | exact Hlt]).
    lia.
Qed.

Section Budget.

Variable U : list RecursionInput.
Variable UI : list (nat * list Field * Ptr).

Lemma structBudget_mono (s s' : State) (u : RecursionInput) :
  le_state s s' -> (structBudget g s' u <= structBudget g s u)%nat.
Proof.
  intros (Hc & _ & Hm & _ & _). unfold structBudget.
  specialize (Hc (counterName g u)).
  destruct (StructMem (counter s) !! structAddr (e u)) as [x|] eqn:E.
  - rewrite (lookup_weaken _ _ _ _ E Hm). lia.
  - destruct (StructMem (counter s') !! structAddr (e u)); lia.
Qed.

Lemma interfaceBudget_mono (s s' : State) (i : nat * list Field * Ptr) :
  le_state s s' -> (interfaceBudget g s' i <= interfaceBudget g s i)%nat.
Proof.
  intros (_ & Hc & _ & Hm & _). unfold interfaceBudget.
  specialize (Hc (fst (fst i))).
  destruct (InterfaceMem (counter s) !! fst (fst i)) as [x|] eqn:E.
  - rewrite (lookup_weaken _ _ _ _ E Hm). lia.
  - destruct (InterfaceMem (counter s') !! fst (fst i)); lia.
Qed.

Lemma budget_mono (s s' : State) :
  le_state s s' -> (budget g U UI s' <= budget g U UI s)%nat.
Proof.
  intros H. unfold budget.
  pose proof (list_sum_map_le (structBudget g s) (structBudget g s') U
                (fun u _ => structBudget_mono s s' u H)).
  pose proof (list_sum_map_le (interfaceBudget g s) (interfaceBudget g s') UI
                (fun i _ => interfaceBudget_mono s s' i H)).
  lia.
Qed.

Lemma budget_struct_lt (s s' : State) (u : RecursionInput) :
  le_state s s' -> In u U ->
  (structBudget g s' u < structBudget g s u)%nat ->
  (budget g U UI s' < budget g U UI s)%nat.
Proof.
  intros H Hin Hlt. unfold budget.
  pose proof (list_sum_map_lt (structBudget g s) (structBudget g s') U u
                (fun u _ => structBudget_mono s s' u H) Hin Hlt).
  pose proof (list_sum_map_le (interfaceBudget g s) (interfaceBudget g s') UI
                (fun i _ => interfaceBudget_mono s s' i H)).
  lia.
Qed.

Lemma budget_interface_lt (s s' : State) (i : nat * list Field * Ptr) :
  le_state s s' -> In i UI ->
  (interfaceBudget g s' i < interfaceBudget g s i)%nat ->
  (budget g U UI s' < budget g U UI s)%nat.
Proof.
  intros H Hin Hlt. unfold budget.
  pose proof (list_sum_map_le (structBudget g s) (structBudget g s') U
                (fun u _ => structBudget_mono s s' u H)).
  pose proof (list_sum_map_lt (interfaceBudget g s) (interfaceBudget g s') UI i
                (fun i _ => interfaceBudget_mono s s' i H) Hin Hlt).
  lia.
Qed.

Lemma withinBudget_oracle (b : nat) (s : State) (o : G) :
  withinBudget g U UI b s -> withinBudget g U UI b (mkState (counter s) o (Expanded s)).
Proof. exact (fun H => H). Qed.

Lemma withinBudget_weaken (b b' : nat) (s : State) :
  (b' <= b)%nat -> withinBudget g U UI b' s -> withinBudget g U UI b s.
Proof. intros Hle (H1 & H2 & H3). split; [lia|]. split; assumption. Qed.

Hypothesis Hclosed : closedUniverse g U UI.

(** One more occurrence of a struct of [U], without an expansion. *)
Lemma withinBudget_occurrence (b : nat) (s s' : State) (u : RecursionInput) :
  In u U -> withinBudget g U UI b s -> le_state s s' ->
  count (Structs (counter s')) (counterName g u) =
    (count (Structs (counter s)) (counterName g u) + 1)%Z ->
  (forall n, n <> counterName g u ->
     count (Structs (counter s')) n = count (Structs (counter s)) n) ->
  is_Some (StructMem (counter s') !! structAddr (e u)) ->
  InterfaceMem (counter s') = InterfaceMem (counter s) ->
  Expanded s' = Expanded s ->
  withinBudget g U UI b s'.
Proof.
  intros Hin (Hb & HJ & Hshape) Hle Hc Hother Hmem Him Hexp.
  split; [|split].
  - pose proof (budget_mono s s' Hle). lia.
  - intros u' Hin'. destruct (HJ u' Hin') as [H1 H2].
    unfold expansionsOf in *. rewrite Hexp.
    destruct (decide (counterName g u' = counterName g u)) as [Heq|Hne].
    + rewrite Heq in *. rewrite Hc. split; [lia|]. intros _.
      rewrite (proj1 (proj2 (proj2 Hclosed)) u' u Hin' Hin Heq). exact Hmem.
    + rewrite (Hother _ Hne). split; [exact H1|]. intros Hge.
      destruct (H2 Hge) as [x Hx]. exists x.
      destruct Hle as (_ & _ & Hsub & _). exact (lookup_weaken _ _ _ _ Hx Hsub).
  - rewrite Him. exact Hshape.
Qed.

(** One more occurrence of a struct of [U], with an expansion: the budget
    goes down. *)
Lemma withinBudget_expansion (b : nat) (s s' : State) (u : RecursionInput) :
  In u U -> withinBudget g U UI b s -> le_state s s' ->
  count (Structs (counter s')) (counterName g u) =
    (count (Structs (counter s)) (counterName g u) + 1)%Z ->
  (forall n, n <> counterName g u ->
     count (Structs (counter s')) n = count (Structs (counter s)) n) ->
  is_Some (StructMem (counter s') !! structAddr (e u)) ->
  InterfaceMem (counter s') = InterfaceMem (counter s) ->
  Expanded s' = counterName g u :: Expanded s ->
  StructMem (counter s) !! structAddr (e u) = None \/
  (count (Structs (counter s)) (counterName g u) + 1 <= MaxRecursion g)%Z ->
  exists b', b = S b' /\ withinBudget g U UI b' s'.
Proof.
  intros Hin (Hb & HJ & Hshape) Hle Hc Hother Hmem Him Hexp Hwhy.
  assert (Hlt : (budget g U UI s' < budget g U UI s)%nat).
  { apply (budget_struct_lt s s' u Hle Hin). unfold structBudget. rewrite Hc.
    destruct Hmem as [x Hx]. rewrite Hx.
    destruct Hwhy as [Hnone|Hroom].
    - rewrite Hnone. lia.
    - destruct (StructMem (counter s) !! structAddr (e u)); lia. }
  destruct b as [|b']; [lia|]. exists b'. split; [reflexivity|].
  split; [lia|split].
  - intros u' Hin'. destruct (HJ u' Hin') as [H1 H2].
    unfold expansionsOf in *. rewrite Hexp.
    destruct (decide (counterName g u' = counterName g u)) as [Heq|Hne].
    + rewrite Heq in *. rewrite Hc.
      rewrite count_occ_cons_eq by reflexivity.
      split.
      * destruct Hwhy as [Hnone|Hroom]; [|lia].
        destruct (HJ u Hin) as [H1u H2u].
        assert (~ (1 <= count (Structs (counter s)) (counterName g u))%Z).
        { intros Hge. destruct (H2u Hge) as [x Hx]. congruence. }
        lia.
      * intros _.
        rewrite (proj1 (proj2 (proj2 Hclosed)) u' u Hin' Hin Heq). exact Hmem.
    + rewrite (Hother _ Hne).
      rewrite count_occ_cons_neq by (intros E; apply Hne; symmetry; exact E).
      split; [exact H1|]. intros Hge.
      destruct (H2 Hge) as [x Hx]. exists x.
      destruct Hle as (_ & _ & Hsub & _). exact (lookup_weaken _ _ _ _ Hx Hsub).
  - rewrite Him. exact Hshape.
Qed.

Lemma struct_prologue_facts (s : State) (name : string) (sm : gmap nat Expr)
    (ex : list string) (o : G) :
  StructMem (counter s) ⊆ sm -> Expanded s `suffix_of` ex ->
  let s' :=
    mkState
      (mkCycleInfo
         (<[name := (count (Structs (counter s)) name + 1)%Z]> (Structs (counter s)))
         (StructByStruct (counter s)) (Interfaces (counter s)) sm
         (InterfaceMem (counter s)))
      o ex in
  le_state s s' /\
  count (Structs (counter s')) name = (count (Structs (counter s)) name + 1)%Z /\
  (forall n, n <> name -> count (Structs (counter s')) n = count (Structs (counter s)) n) /\
  InterfaceMem (counter s') = InterfaceMem (counter s).
Proof.
  intros Hsm Hex s'. subst s'. cbn.
  split; [|split; [|split]].
  - unfold le_state; cbn.
    split; [|split; [intros; lia|split; [exact Hsm|split; [reflexivity|exact Hex]]]].
    intros n. rewrite count_insert. destruct (decide (name = n)) as [->|]; lia.
  - rewrite count_insert. destruct (decide (name = name)); [reflexivity|contradiction].
  - intros n Hn. rewrite count_insert.
    destruct (decide (name = n)) as [->|]; [contradiction|reflexivity].
  - reflexivity.
Qed.

Lemma safe_StructExprToValExpr (b : nat) (u : RecursionInput)
    (rec : RecursionInput -> M TypeExprToValExprRes) :
  In u U ->
  (forall b', b = S b' ->
     forall resType, safe (withinBudget g U UI b') (StructFieldsToKeyValExpr g rec resType u)) ->
  safe (withinBudget g U UI b) (StructExprToValExpr g rec u).
Proof.
  intros Hin Hexp s Hs.
  destruct (proj1 Hclosed u Hin) as (addr & fields & inc & He & _).
  assert (Haddr : structAddr (e u) = addr) by (rewrite He; reflexivity).
  unfold StructExprToValExpr. rewrite He.
  apply holds_bind. unfold memoStruct.
  destruct (StructMem (counter s) !! addr) as [m|] eqn:Hmem; cbn [holds].
  - apply holds_bind. unfold countStruct. cbn [holds].
    destruct (_ <? _)%Z eqn:Hguard.
    + destruct (struct_prologue_facts s (counterName g u) (StructMem (counter s))
                  (Expanded s) (oracle s)) as (Hle & Hc & Hother & Him);
        [reflexivity|reflexivity|].
      cbn [ret holds].
      eapply (withinBudget_occurrence b s _ u Hin Hs Hle Hc Hother); cbn.
      * rewrite Haddr, Hmem. eauto.
      * reflexivity.
      * reflexivity.
    + apply holds_bind. cbn [noteExpansion holds].
      destruct (struct_prologue_facts s (counterName g u) (StructMem (counter s))
                  (counterName g u :: Expanded s) (oracle s))
        as (Hle & Hc & Hother & Him);
        [reflexivity|apply suffix_cons_r; reflexivity|].
      edestruct (withinBudget_expansion b s _ u Hin Hs Hle Hc Hother)
        as (b' & -> & Hb'); cbn.
      * rewrite Haddr, Hmem. eauto.
      * reflexivity.
      * reflexivity.
      * right. apply Z.ltb_ge in Hguard. exact Hguard.
      * eapply holds_mono; [apply (Hexp b' eq_refl), Hb'|].
        intros a s' H. cbn beta in H. eapply withinBudget_weaken; [|exact H]. lia.
  - apply holds_bind. unfold countStruct. cbn [holds].
    apply holds_bind. cbn [noteExpansion holds].
    match goal with
    | |- context [<[addr := ?x]> (StructMem (counter s))] =>
        destruct (struct_prologue_facts s (counterName g u)
                    (<[addr := x]> (StructMem (counter s)))
                    (counterName g u :: Expanded s) (oracle s))
          as (Hle & Hc & Hother & Him);
          [apply insert_subseteq; exact Hmem|apply suffix_cons_r; reflexivity|]
    end.
    edestruct (withinBudget_expansion b s _ u Hin Hs Hle Hc Hother)
      as (b' & -> & Hb'); cbn.
    * rewrite Haddr, lookup_insert_eq. eauto.
    * reflexivity.
    * reflexivity.
    * left. rewrite Haddr. exact Hmem.
    * eapply holds_mono; [apply (Hexp b' eq_refl), Hb'|].
      intros a s' H. cbn beta in H. eapply withinBudget_weaken; [|exact H]. lia.
Qed.

(** A step that leaves the struct maps and the expansions as they are. *)
Lemma withinBudget_interface_step (b : nat) (s s' : State) :
  withinBudget g U UI b s -> le_state s s' ->
  Structs (counter s') = Structs (counter s) ->
  StructMem (counter s') = StructMem (counter s) ->
  Expanded s' = Expanded s ->
  (forall addr d, InterfaceMem (counter s') !! addr = Some d ->
     exists tok y rest, d = GenDecl tok (TypeSpecS y :: rest)) ->
  withinBudget g U UI (b - (budget g U UI s - budget g U UI s')) s'.
Proof.
  intros (Hb & HJ & _) Hle Hst Hsm Hex Hshape.
  pose proof (budget_mono s s' Hle).
  split; [lia|split; [|exact Hshape]].
  intros u Hin. unfold expansionsOf. rewrite Hst, Hsm, Hex. exact (HJ u Hin).
Qed.

Lemma safe_InterfaceTypeToValExpr (b : nat) (input : RecursionInput)
    (recImpl : RecursionInput -> string -> M TypeExprToValExprRes)
    addr method methods incomplete :
  e input = InterfaceType addr (method :: methods) incomplete ->
  In (addr, method :: methods, pkgPointer input) UI ->
  (forall b', b = S b' ->
     forall ident, safe (withinBudget g U UI b') (recImpl input ident)) ->
  safe (withinBudget g U UI b) (InterfaceTypeToValExpr g recImpl input).
Proof.
  intros He Hin Hexp s Hs.
  assert (Himpl : forall b' s1 ident,
            (b' < b)%nat -> withinBudget g U UI b' s1 ->
            holds False (implementInterface g recImpl input ident s1)
              (fun _ s' => withinBudget g U UI b s')).
  { intros b' s1 ident Hlt Hs1. destruct b as [|b0]; [lia|].
    unfold implementInterface. apply holds_bind.
    eapply holds_mono;
      [apply (Hexp b0 eq_refl ident s1); eapply withinBudget_weaken; [|exact Hs1]; lia|].
    intros r s2 H. cbn. eapply withinBudget_weaken; [|exact H]. lia. }
  unfold InterfaceTypeToValExpr. rewrite He.
  apply holds_bind. unfold countInterface. cbn [holds].
  apply holds_bind. apply holds_draw. intros name o _.
  apply holds_bind. unfold memoInterface. cbn [counter withCounter InterfaceMem].
  set (c' := (countAt (Interfaces (counter s)) addr + 1)%Z).
  destruct (InterfaceMem (counter s) !! addr) as [d|] eqn:Hmem; cbn [holds].
  - (* a memo is there *)
    destruct (proj2 (proj2 Hs) addr d Hmem) as (tok & y & rest & ->).
    match goal with |- holds _ (_ ?s1) _ => set (s1' := s1) end.
    assert (Hle : le_state s s1').
    { unfold le_state; cbn.
      split; [intros; lia|split; [|split; [reflexivity|split; reflexivity]]].
      intros a. rewrite countAt_insert. destruct (decide (addr = a)) as [->|]; lia. }
    pose proof (withinBudget_interface_step b s s1' Hs Hle eq_refl eq_refl eq_refl
                  (proj2 (proj2 Hs))) as Hs1.
    destruct (MaxRecursion g <? c')%Z eqn:Hguard.
    + cbn. eapply withinBudget_weaken; [|exact Hs1]. lia.
    + apply Z.ltb_ge in Hguard.
      assert (Hlt : (budget g U UI s1' < budget g U UI s)%nat).
      { apply (budget_interface_lt s s1' _ Hle Hin). unfold interfaceBudget. cbn.
        rewrite countAt_insert, Hmem.
        destruct (decide (addr = addr)); [|contradiction]. fold c'. subst c'. lia. }
      pose proof (proj1 Hs).
      refine (Himpl _ s1' _ _ Hs1). lia.
  - (* the first encounter *)
    match goal with |- holds _ (_ ?s1) _ => set (s1' := s1) end.
    assert (Hle : le_state s s1').
    { unfold le_state; cbn.
      split; [intros; lia|split; [|split; [reflexivity|split; [|reflexivity]]]].
      - intros a. rewrite countAt_insert. destruct (decide (addr = a)) as [->|]; lia.
      - apply insert_subseteq. exact Hmem. }
    assert (Hshape : forall a d, InterfaceMem (counter s1') !! a = Some d ->
              exists tok y rest, d = GenDecl tok (TypeSpecS y :: rest)).
    { intros a d. cbn. rewrite lookup_insert.
      destruct (decide (addr = a)) as [->|].
      - intros [= <-]. apply (proj2 (proj2 (proj2 Hclosed))).
      - apply (proj2 (proj2 Hs)). }
    pose proof (withinBudget_interface_step b s s1' Hs Hle eq_refl eq_refl eq_refl
                  Hshape) as Hs1.
    assert (Hlt : (budget g U UI s1' < budget g U UI s)%nat).
    { apply (budget_interface_lt s s1' _ Hle Hin). unfold interfaceBudget. cbn.
      rewrite countAt_insert, lookup_insert_eq, Hmem.
      destruct (decide (addr = addr)); [|contradiction]. lia. }
    pose proof (proj1 Hs).
    refine (Himpl _ s1' _ _ Hs1). lia.
Qed.

(** *** The induction *)

Lemma TypeExprToValExpr_S (fuel : nat) (input : RecursionInput) :
  TypeExprToValExpr g (S fuel) input =
    TypeExprToValExpr_body g (TypeExprToValExpr g fuel) (InterfaceTypeToFuncImpl g fuel) input.
Proof. reflexivity. Qed.

Lemma InterfaceTypeToFuncImpl_S (fuel : nat) (input : RecursionInput) (ident : string) :
  InterfaceTypeToFuncImpl g (S fuel) input ident =
    InterfaceTypeToFuncImpl_body g (TypeExprToValExpr g fuel)
      (InterfaceTypeToFuncImpl g fuel) input ident.
Proof. reflexivity. Qed.

Lemma fuel_for_all {X} (l : list X) (Q : X -> nat -> Prop) :
  (forall x, In x l -> exists N, forall fuel, (N <= fuel)%nat -> Q x fuel) ->
  exists N, forall fuel, (N <= fuel)%nat -> forall x, In x l -> Q x fuel.
Proof.
  induction l as [|x l IH]; intros H.
  - exists O. intros fuel _ y [].
  - destruct (H x (or_introl eq_refl)) as [N1 H1].
    destruct IH as [N2 H2]; [intros y Hy; apply H; right; exact Hy|].
    exists (Nat.max N1 N2). intros fuel Hf y [<-|Hy].
    + apply H1. lia.
    + apply H2; [lia|exact Hy].
Qed.

Lemma fuel_for_results (results : option (list Field)) (Q : Field -> nat -> Prop) :
  (forall list res, results = Some list -> In res list ->
     exists N, forall fuel, (N <= fuel)%nat -> Q res fuel) ->
  exists N, forall fuel, (N <= fuel)%nat ->
    forall list res, results = Some list -> In res list -> Q res fuel.
Proof.
  intros H. destruct results as [l|].
  - destruct (fuel_for_all l Q) as [N HN]; [intros x Hx; eapply H; [reflexivity|exact Hx]|].
    exists N. intros fuel Hf list res [= <-] Hin. apply HN; assumption.
  - exists O. intros fuel _ list res [=].
Qed.

Ltac spend_fuel fuel :=
  let Hf := fresh "Hf" in
  intros fuel Hf; destruct fuel as [|fuel]; [lia|];
  intros ?; rewrite TypeExprToValExpr_S; unfold TypeExprToValExpr_body;
  cbn [e pkgPointer varName].

Lemma guarded_safe (b : nat) :
  forall c, Guarded g U UI c ->
  exists N, forall fuel, (N <= fuel)%nat -> safeCall g (withinBudget g U UI b) fuel c.
Proof.
  induction b as [b IHb] using lt_wf_ind. intros c Hc.
  pose proof (withinBudget_oracle b) as Po.
  induction Hc as
    [ x p Hleaf
    | name p Hbasic
    | name p found x p' Hfind Hc IH
    | name k p Hk
    | name k ts p Hk Hst Hin
    | name k ts p Hk Hns Hc IH
    | x p Hc IH
    | len elt p Hc IH
    | key value p Hck IHk Hcv IHv
    | elt p Hc IH
    | params results p Hres IH
    | addr method methods incomplete p Hin
    | x obj sel p found y p' Hfind Hc IH
    | addr fields incomplete p Hidx Hfields IH
    | p
    | method rest p params results Hty Hnames Hres IHres Hrest IHrest
    | method rest p name k Hty Hemb IHemb Hrest IHrest
    | method rest p x obj sel found y p' Hty Hfind Hsel IHsel Hrest IHrest
    | method rest p Hskip Hrest IHrest ]; cbn [safeCall].
  - (* a leaf *)
    exists 1%nat. intros fuel Hf. destruct fuel as [|fuel]; [lia|]. intros v.
    rewrite TypeExprToValExpr_S. apply safe_leaf; try exact Po. exact Hleaf.
  - (* a basic identifier or the error interface *)
    exists 1%nat. spend_fuel fuel.
    apply safe_IdentWithNilObjectToValExpr_basic; try exact Po. exact Hbasic.
  - (* an identifier of another file *)
    destruct IH as [N HN]. exists (S N). spend_fuel fuel.
    eapply safe_IdentWithNilObjectToValExpr_resolved; try exact Po; try exact Hfind.
    intros v'. apply (HN fuel); lia.
  - exists 1%nat. spend_fuel fuel. rewrite Hk. apply safe_ret.
  - (* a named struct *)
    destruct (proj1 Hclosed _ Hin) as (addr & fields & inc & He & Hidx & Hfields).
    cbn [e pkgPointer] in He, Hidx, Hfields.
    assert (Hfuel : exists N, forall fuel, (N <= fuel)%nat ->
              forall b', b = S b' -> forall field, In field fields ->
                safeCall g (withinBudget g U UI b') fuel (TypeCall (FType field) p)).
    { destruct b as [|b'].
      - exists O. intros fuel _ b' [=].
      - destruct (fuel_for_all fields
                    (fun field fuel =>
                       safeCall g (withinBudget g U UI b') fuel (TypeCall (FType field) p)))
          as [N HN].
        + intros field Hf. apply (IHb b'); [lia|]. apply Hfields, Hf.
        + exists N. intros fuel Hf b'' [= <-]. apply HN, Hf. }
    destruct Hfuel as [N HN]. exists (S N). spend_fuel fuel. rewrite Hk.
    unfold TypeSpecToValExpr. rewrite He.
    rewrite He in Hin. apply safe_StructExprToValExpr; [exact Hin|].
    intros b' Hb' resType.
    eapply safe_StructFieldsToKeyValExpr;
      try exact (withinBudget_oracle b'); try reflexivity; try exact Hidx.
    intros field Hfield v'. apply (HN fuel ltac:(lia) b' Hb' field Hfield).
  - (* a named type that is not a struct *)
    destruct IH as [N HN]. exists (S N). spend_fuel fuel. rewrite Hk.
    apply safe_TypeSpecToValExpr_other; try exact Po; try exact Hns.
    intros v'. apply (HN fuel); lia.
  - destruct IH as [N HN]. exists (S N). spend_fuel fuel.
    eapply safe_StarExprToValExpr; try exact Po; try reflexivity.
    intros v'. apply (HN fuel); lia.
  - destruct IH as [N HN]. exists (S N). spend_fuel fuel.
    eapply safe_ArrayExprToValExpr; try exact Po; try reflexivity.
    intros v'. apply (HN fuel); lia.
  - destruct IHk as [N1 HN1]. destruct IHv as [N2 HN2].
    exists (S (Nat.max N1 N2)). spend_fuel fuel.
    eapply safe_MapExprToValExpr; try exact Po; try reflexivity;
      intros v'; [apply (HN1 fuel)|apply (HN2 fuel)]; lia.
  - destruct IH as [N HN]. exists (S N). spend_fuel fuel.
    apply (HN fuel); lia.
  - (* a function type *)
    destruct (fuel_for_results results
                (fun res fuel =>
                   safeCall g (withinBudget g U UI b) fuel (TypeCall (FType res) p)) IH)
      as [N HN].
    exists (S N). spend_fuel fuel.
    eapply safe_FuncTypeToValExpr; try exact Po; try reflexivity.
    intros list res Hl Hres' v'. apply (HN fuel ltac:(lia) list res Hl Hres').
  - (* an interface with methods *)
    assert (Hfuel : exists N, forall fuel, (N <= fuel)%nat ->
              forall b', b = S b' ->
                safeCall g (withinBudget g U UI b') fuel (ImplCall (method :: methods) p)).
    { destruct b as [|b'].
      - exists O. intros fuel _ b' [=].
      - destruct (IHb b' ltac:(lia) _ (proj1 (proj2 Hclosed) _ _ _ Hin)) as [N HN].
        exists N. intros fuel Hf b'' [= <-]. apply HN, Hf. }
    destruct Hfuel as [N HN]. exists (S (S N)). spend_fuel fuel.
    eapply safe_InterfaceTypeToValExpr; [reflexivity|exact Hin|].
    intros b' Hb' ident. destruct fuel as [|fuel]; [lia|].
    rewrite InterfaceTypeToFuncImpl_S. unfold InterfaceTypeToFuncImpl_body. cbn [e].
    apply (HN fuel ltac:(lia) b' Hb'). reflexivity.
  - (* a package-qualified reference *)
    destruct found.
    + destruct (IH eq_refl) as [N HN]. exists (S N). spend_fuel fuel.
      eapply safe_SelectorExprToValExpr; try exact Po; try reflexivity; try exact Hfind.
      intros _ v'. apply (HN fuel); lia.
    + exists 1%nat. spend_fuel fuel.
      eapply safe_SelectorExprToValExpr; try exact Po; try reflexivity; try exact Hfind.
      intros [=].
  - (* an unnamed struct *)
    destruct (fuel_for_all fields
                (fun field fuel =>
                   safeCall g (withinBudget g U UI b) fuel (TypeCall (FType field) p)) IH)
      as [N HN].
    exists (S N). spend_fuel fuel. unfold UnnamedStructToValExpr.
    eapply safe_StructFieldsToKeyValExpr; try exact Po; try reflexivity; try exact Hidx.
    intros field Hfield v'. apply (HN fuel ltac:(lia) field Hfield).
  - (* no method left *)
    exists O. intros fuel _ input ident result _. apply safe_ret.
  - (* a method *)
    destruct (fuel_for_results results
                (fun res fuel =>
                   safeCall g (withinBudget g U UI b) fuel (TypeCall (FType res) p)) IHres)
      as [N1 HN1].
    destruct IHrest as [N2 HN2]. exists (Nat.max N1 N2).
    intros fuel Hf input ident result Hp. cbn [methodsLoop]. rewrite Hty.
    apply safe_bind.
    + eapply safe_FuncReturnListToBodyStatements; try exact Po; try reflexivity.
      intros list res Hl Hres' v'. cbn [pkgPointer]. rewrite Hp.
      apply (HN1 fuel ltac:(lia) list res Hl Hres').
    + intros r. destruct (Names method) as [|n ns]; [contradiction|].
      apply HN2; [lia|exact Hp].
  - (* an embedded interface of the file *)
    destruct IHrest as [N2 HN2].
    destruct (TypeSpecs g !! k) as [ts|] eqn:Hk.
    + destruct (SpecType ts) eqn:Hst;
        try (exists N2; intros fuel Hf input ident result Hp; cbn [methodsLoop];
             rewrite Hty, Hk, Hst; apply HN2; [lia|exact Hp]).
      destruct (IHemb ts _ _ _ eq_refl Hst) as [N1 HN1].
      exists (Nat.max (S N1) N2). intros fuel Hf input ident result Hp.
      cbn [methodsLoop]. rewrite Hty, Hk, Hst.
      apply safe_bind.
      * destruct fuel as [|fuel]; [lia|].
        rewrite InterfaceTypeToFuncImpl_S. unfold InterfaceTypeToFuncImpl_body. cbn [e].
        apply HN1; [lia|exact Hp].
      * intros r. apply HN2; [lia|exact Hp].
    + exists N2. intros fuel Hf input ident result Hp. cbn [methodsLoop].
      rewrite Hty, Hk. apply HN2; [lia|exact Hp].
  - (* an embedded interface of another package *)
    destruct found.
    + destruct (IHrest eq_refl) as [N2 HN2].
      assert (Hy : exists N1, forall fuel, (N1 <= fuel)%nat ->
                forall v ident,
                  safe (withinBudget g U UI b)
                    (InterfaceTypeToFuncImpl g fuel (mkInput y v p) ident)).
      { destruct y eqn:Hy;
          try (exists 1%nat; intros fuel Hf v ident; destruct fuel as [|fuel]; [lia|];
               rewrite InterfaceTypeToFuncImpl_S; apply safe_ret).
        destruct (IHsel _ _ _ eq_refl eq_refl) as [N1 HN1].
        exists (S N1). intros fuel Hf v ident. destruct fuel as [|fuel]; [lia|].
        rewrite InterfaceTypeToFuncImpl_S. unfold InterfaceTypeToFuncImpl_body. cbn [e].
        apply HN1; [lia|reflexivity]. }
      destruct Hy as [N1 HN1]. exists (Nat.max N1 N2).
      intros fuel Hf input ident result Hp. cbn [methodsLoop]. rewrite Hty.
      rewrite Hp, Hfind. cbn [negb].
      apply safe_bind.
      * rewrite <- Hp. rewrite Hp. apply HN1. lia.
      * intros r. apply HN2; [lia|exact Hp].
    + exists O. intros fuel _ input ident result Hp. cbn [methodsLoop]. rewrite Hty.
      rewrite Hp, Hfind. apply safe_ret.
  - (* an entry that is passed over *)
    destruct IHrest as [N2 HN2]. exists N2.
    intros fuel Hf input ident result Hp. cbn [methodsLoop].
    destruct (FType method) eqn:Hty; cbn in Hskip; try discriminate;
      try (apply HN2; [lia|exact Hp]).
    repeat match goal with
           | H : match ?x with _ => _ end = true |- _ => destruct x; try discriminate
           end.
    apply HN2; [lia|exact Hp].
Qed.

End Budget.


End Termination.

(** ** The synthesizer: containers, functions and interfaces *)

Section SynthShapes.

Import Gen.

Context {Ptr G : Type}.

Local Abbreviation State := (@Gen.State G).
Local Abbreviation M := (@Gen.M G).
Local Abbreviation RecursionInput := (@Gen.RecursionInput Ptr).
Local Abbreviation Generator := (@Gen.Generator Ptr G).

Variable g : Generator.
Variable rec : RecursionInput -> M TypeExprToValExprRes.
Variable recImpl : RecursionInput -> string -> M TypeExprToValExprRes.

(** X10. When [ArrayExprToValExpr] returns, its expression is a literal of
    the corrected array type with as many elements as the length policy
    chose, and none when the policy chose a negative length. *)
Theorem array_literal_length (input : RecursionInput) (len elt : Expr)
    (s s' : State) (r : TypeExprToValExprRes) :
  e input = ArrayType len elt ->
  ArrayExprToValExpr g rec input s = Ok r s' ->
  exists elts,
    ResExpr r =
      CompositeLit (ArrayType (CorrectTypeExpr g len input) (CorrectTypeExpr g elt input))
        elts /\
    length elts =
      Z.to_nat (fst (ValGenerator_ArrayLen g (getArrayLen g len) (oracle s))).
Proof.
  intros He. unfold ArrayExprToValExpr. rewrite He. unfold bind at 1, draw.
  destruct (ValGenerator_ArrayLen g (getArrayLen g len) (oracle s)) as [n o].
  cbn [fst]. unfold bind, forUpTo.
  pose proof (holds_foldM True
                (fun (acc : TypeExprToValExprRes * list Expr) (_ : nat) =>
                   bind (rec (mkInput elt (varName input) (pkgPointer input)))
                     (fun recursionResult =>
                        ret (Merge (fst acc) recursionResult,
                             snd acc ++ [ResExpr recursionResult])))
                (fun seen acc _ => length (snd acc) = length seen)) as H.
  cbn beta in H.
  assert (Hbody : forall (seen : list nat) (x : nat)
                    (a : TypeExprToValExprRes * list Expr) (s0 : State),
             length (snd a) = length seen ->
             holds True
               (bind (rec (mkInput elt (varName input) (pkgPointer input)))
                  (fun recursionResult =>
                     ret (Merge (fst a) recursionResult,
                          snd a ++ [ResExpr recursionResult])) s0)
               (fun a' _ => length (snd a') = length (seen ++ [x]))).
  { intros seen x a s0 Ha. apply holds_bind.
    destruct (rec _ s0) as [rr s1| |]; cbn [holds ret snd]; [|exact I..].
    rewrite !length_app. cbn [length]. lia. }
  specialize (H Hbody (seq 0 (Z.to_nat n)) [] (zeroRes, [])
                (mkState (counter s) o (Expanded s)) eq_refl).
  destruct (foldM _ _ _ _) as [[result exprRes] s1| |]; [|discriminate..].
  cbn in H. intros [= <- <-]. exists exprRes. split; [reflexivity|].
  rewrite H, length_seq. reflexivity.
Qed.

(** X16. When [StarExprToValExpr] returns, its expression is the address of
    a temporary whose name is the variable's name, put through
    [lowerCaseFirstLetter], followed by a generated name; its statements are
    those of the pointee followed by the definition of the temporary, which
    is the last statement. *)
Theorem pointer_is_address_of_temporary (input : RecursionInput) (x : Expr)
    (s s' : State) (r : TypeExprToValExprRes) :
  e input = StarExpr x ->
  StarExprToValExpr g rec input s = Ok r s' ->
  exists pointee s1,
    let tempVarName :=
      lowerCaseFirstLetter g (varName input) +:+
      fst (VarGenerator_Generate g (oracle s)) in
    rec (mkInput x tempVarName (pkgPointer input)) s1 = Ok pointee s' /\
    ResExpr r = UnaryExpr AND (Ident tempVarName None) /\
    Statements r =
      Statements pointee ++ [assignStmt (Ident tempVarName None) (ResExpr pointee)] /\
    Declarations r = Declarations pointee.
Proof.
  intros He. unfold StarExprToValExpr. rewrite He. unfold bind, draw.
  destruct (VarGenerator_Generate g (oracle s)) as [name o]. cbn [fst].
  destruct (rec _ _) as [pointee s1| |] eqn:E; [|discriminate..].
  intros [= <- <-]. exists pointee, (mkState (counter s) o (Expanded s)).
  cbn zeta. split; [exact E|]. repeat split.
Qed.

(** X12. The guard of interfaces: at an interface with methods whose memo
    is a declaration that starts with a type specification and whose
    occurrence counter, once incremented, exceeds the maximum,
    [InterfaceTypeToValExpr] returns the address of an empty literal of the
    memoized type, without a declaration or a statement and without
    generating any method; the counter is incremented, one name is drawn and
    the memo stays. *)
Theorem interface_guard (input : RecursionInput) (addr : nat) (method : Field)
    (methods : list Field) (incomplete : bool) (s : State) (tok : Token)
    (y : TypeSpec) (specs : list Spec) :
  e input = InterfaceType addr (method :: methods) incomplete ->
  InterfaceMem (counter s) !! addr = Some (GenDecl tok (TypeSpecS y :: specs)) ->
  (MaxRecursion g < countAt (Interfaces (counter s)) addr + 1)%Z ->
  exists s',
    InterfaceTypeToValExpr g recImpl input s =
      Ok (mkRes (UnaryExpr AND (CompositeLit (Ident (SpecName y) None) [])) [] [] [] [] [])
         s' /\
    countAt (Interfaces (counter s')) addr =
      (countAt (Interfaces (counter s)) addr + 1)%Z /\
    InterfaceMem (counter s') = InterfaceMem (counter s) /\
    oracle s' = snd (VarGenerator_Generate g (oracle s)).
Proof.
  intros He Hmem Hmax. unfold InterfaceTypeToValExpr. rewrite He.
  unfold bind, countInterface, draw, memoInterface.
  cbv beta iota zeta. cbn [oracle counter withCounter InterfaceMem Interfaces Expanded].
  destruct (VarGenerator_Generate g (oracle s)) as [name o].
  cbn [oracle counter withCounter InterfaceMem Interfaces Expanded snd].
  rewrite Hmem.
  destruct (_ <? _)%Z eqn:E; [|apply Z.ltb_ge in E; lia].
  eexists. split; [reflexivity|]. cbn [counter Interfaces InterfaceMem oracle].
  split; [|split; reflexivity].
  unfold countAt. rewrite lookup_insert_eq. reflexivity.
Qed.

(** The invariant of the loops of [FuncReturnListToBodyStatements]: every
    return variable gathered so far is an identifier that one of the
    statements gathered so far defines. *)
Lemma yields_ReturnFieldToStmt (res : Field) (input : RecursionInput) :
  yields (ReturnFieldToStmt g rec res input)
    (fun r => exists name v,
       ResExpr r = Ident name None /\
       In (assignStmt (Ident name None) v) (Statements r)).
Proof.
  unfold ReturnFieldToStmt.
  eapply yields_bind; [apply yields_any|]. intros name _.
  eapply yields_bind; [apply yields_any|]. intros rr _.
  apply yields_ret. eexists _, _. cbn [ResExpr withStatements Merge Statements].
  split; [reflexivity|]. apply in_or_app. right. left. reflexivity.
Qed.

Lemma yields_returnField (res : Field) (input : RecursionInput)
    (acc : TypeExprToValExprRes * list Expr) :
  Forall (fun x => exists name v,
            x = Ident name None /\
            In (assignStmt (Ident name None) v) (Statements (fst acc))) (snd acc) ->
  yields (returnField g rec res input acc)
    (fun acc' =>
       Forall (fun x => exists name v,
                 x = Ident name None /\
                 In (assignStmt (Ident name None) v) (Statements (fst acc'))) (snd acc') /\
       length (snd acc') = S (length (snd acc))).
Proof.
  intros Hacc. unfold returnField.
  eapply yields_bind; [apply yields_ReturnFieldToStmt|].
  cbn beta. intros rr (name & v & Hexpr & Hin). apply yields_ret.
  cbn [fst snd Merge Statements]. split; [|rewrite length_app; cbn [length]; lia].
  apply Forall_app. split.
  - eapply Forall_impl; [exact Hacc|]. intros x (n & w & -> & Hw).
    exists n, w. split; [reflexivity|]. apply in_or_app. left. exact Hw.
  - constructor; [|constructor]. exists name, v. split; [exact Hexpr|].
    apply in_or_app. right. exact Hin.
Qed.

Lemma yields_FuncReturnListToBodyStatements (input : RecursionInput)
    (params results : option (list Field)) :
  e input = FuncType params results ->
  yields (FuncReturnListToBodyStatements g rec input)
    (fun r => returnsDefined (Statements r) (resultArity results)).
Proof.
  intros He. unfold FuncReturnListToBodyStatements. rewrite He.
  set (J := fun acc : TypeExprToValExprRes * list Expr =>
              Forall (fun x => exists name v,
                        x = Ident name None /\
                        In (assignStmt (Ident name None) v) (Statements (fst acc)))
                (snd acc)).
  eapply yields_bind with
    (P := fun acc => J acc /\ length (snd acc) = resultArity results).
  - destruct results as [fields|]; [|apply yields_ret; split; [constructor|reflexivity]].
    cbn [resultArity].
    apply (yields_foldM _
             (fun seen acc =>
                J acc /\
                length (snd acc) =
                  list_sum (map (fun res => Nat.max 1 (length (Names res))) seen)))
      with (seen := []); [|split; [constructor|reflexivity]].
    intros seen res acc [HJ Hlen].
    eapply yields_bind with
      (P := fun acc' => J acc' /\
              length (snd acc') =
                (length (snd acc) + (if (length (Names res) =? 0)%nat then 1 else 0))%nat).
    + destruct (length (Names res) =? 0)%nat.
      * eapply yields_weaken; [apply yields_returnField, HJ|].
        cbn beta. intros acc' [HJ' Hlen']. split; [exact HJ'|lia].
      * apply yields_ret. split; [exact HJ|lia].
    + intros acc' [HJ' Hlen'].
      eapply yields_weaken.
      * apply (yields_foldM _
                 (fun (seenNames : list string) acc'' =>
                    J acc'' /\
                    length (snd acc'') = (length (snd acc') + length seenNames)%nat))
          with (seen := []); [|split; [exact HJ'|cbn [length]; lia]].
        intros seenNames name acc'' [HJ'' Hlen''].
        eapply yields_weaken; [apply yields_returnField, HJ''|].
        cbn beta. intros a [Ha Hl]. split; [exact Ha|].
        rewrite length_app. cbn [length]. lia.
      * cbn beta. intros a [Ha Hl]. split; [exact Ha|].
        rewrite map_app, list_sum_app. cbn [map list_sum fold_right app length] in *.
        rewrite Hl, Hlen', Hlen.
        destruct (Nat.eqb_spec (length (Names res)) 0) as [->|Hne]; cbn; lia.
  - intros [result retVars] [HJ Hlen]. apply yields_ret.
    exists (Statements result), retVars. cbn [Statements withStatements].
    split; [reflexivity|]. split; [exact Hlen|exact HJ].
Qed.

(** X11. When [FuncTypeToValExpr] returns on a function type whose corrected
    type is a function type, its expression is a function literal of the
    corrected type whose body ends by returning as many identifiers as the
    function type has results (one for each name, one for a result without a
    name), each defined in the body; the body's statements are not among the
    statements of the result, which has none. *)
Theorem function_literal_returns_results (input : RecursionInput)
    (params results params' results' : option (list Field))
    (s s' : State) (r : TypeExprToValExprRes) :
  e input = FuncType params results ->
  CorrectTypeExpr g (e input) input = FuncType params' results' ->
  FuncTypeToValExpr g rec input s = Ok r s' ->
  exists body,
    ResExpr r = FuncLit (FuncType params' results') body /\
    returnsDefined body (resultArity results) /\
    Statements r = [].
Proof.
  intros He Hc E.
  refine (yields_Ok _ (fun r => exists body, _ /\ _ /\ _) _ _ _ _ E). clear E.
  unfold FuncTypeToValExpr. rewrite Hc.
  eapply yields_bind; [apply (yields_FuncReturnListToBodyStatements _ _ _ He)|].
  cbn beta. intros rr Hrr. apply yields_ret.
  exists (Statements rr). repeat split. exact Hrr.
Qed.

Lemma yields_methodsLoop_plain (input : RecursionInput) (interfaceImplIdent : string)
    (methods : list Field) (result : TypeExprToValExprRes) :
  Forall (fun method => isFuncType (FType method) = true) methods ->
  Statements result = [] ->
  yields (methodsLoop g rec recImpl input interfaceImplIdent methods result)
    (fun r =>
       Statements r = [] /\
       (forall dcl, In dcl (Declarations result) -> In dcl (Declarations r)) /\
       Forall (implementsMethod g input interfaceImplIdent (Declarations r)) methods).
Proof.
  intros Hplain. revert result.
  induction Hplain as [|method rest Hmethod Hrest IH]; intros result Hstmts.
  - apply yields_ret. split; [exact Hstmts|]. split; [auto|constructor].
  - cbn [methodsLoop].
    destruct (FType method) as [| | | | | | |params results| | | | | | | | | |] eqn:Hty;
      try discriminate.
    eapply yields_bind;
      [apply (yields_FuncReturnListToBodyStatements
                (mkInput (FuncType params results) (varName input) (pkgPointer input))
                params results eq_refl)|].
    cbn beta. intros rr Hrr.
    destruct (Names method) as [|name names] eqn:Hnames; [apply yields_panic|].
    eapply yields_weaken; [apply IH; reflexivity|].
    cbn beta. cbn [Declarations withDeclarations withStatements Merge].
    intros r (Hs & Hkeep & Hall). split; [exact Hs|]. split.
    + intros dcl Hd. apply Hkeep. apply in_or_app. left. apply in_or_app. left. exact Hd.
    + constructor; [|exact Hall].
      exists name, names, params, results, (Statements rr).
      split; [exact Hnames|]. split; [exact Hty|]. split; [|exact Hrr].
      apply Hkeep. apply in_or_app. right. left. rewrite Hty. reflexivity.
Qed.

End SynthShapes.

(** *** The statements of a result are definitions *)

Section SynthStatements.

Import Gen.

Context {Ptr G : Type}.

Local Abbreviation State := (@Gen.State G).
Local Abbreviation M := (@Gen.M G).
Local Abbreviation RecursionInput := (@Gen.RecursionInput Ptr).
Local Abbreviation Generator := (@Gen.Generator Ptr G).

Lemma yields_draw {A} (f : G -> A * G) (Q : A -> Prop) :
  (forall o, Q (fst (f o))) -> yields (draw f) Q.
Proof.
  intros H s. unfold draw. specialize (H (oracle s)).
  destruct (f (oracle s)). exact H.
Qed.

Lemma yields_foldM_inv {X A} (body : A -> X -> M A) (Q : A -> Prop) (l : list X) (a : A) :
  (forall a x, Q a -> yields (body a x) Q) -> Q a -> yields (foldM body l a) Q.
Proof.
  intros Hbody Ha.
  apply (yields_foldM body (fun _ a => Q a)) with (seen := []); [|exact Ha].
  intros seen x a' Ha'. apply Hbody, Ha'.
Qed.

Lemma definesOnly_Merge (a b : TypeExprToValExprRes) :
  definesOnly a -> definesOnly b -> definesOnly (Merge a b).
Proof. intros Ha Hb. apply Forall_app. split; assumption. Qed.

Lemma definesOnly_nil (x : Expr) (decls : list Decl) (ci : list string) (cs cd : list Stmt) :
  definesOnly (mkRes x [] decls ci cs cd).
Proof. constructor. Qed.

Ltac dnil :=
  unfold definesOnly, InterfaceNilFunc, FuncNilFunc, EmptyResult, zeroRes;
  cbn [Statements]; constructor.

Variable g : Generator.
Variable rec : RecursionInput -> M TypeExprToValExprRes.
Variable recImpl : RecursionInput -> string -> M TypeExprToValExprRes.

Hypothesis Hrec : forall i, yields (rec i) definesOnly.
Hypothesis HrecImpl : forall i n, yields (recImpl i n) (fun r => Statements r = []).
Hypothesis Herr : forall o, definesOnly (fst (ErrExprToValExpr g o)).

Lemma defines_fieldEntry input ty name (acc : TypeExprToValExprRes * list Expr) :
  definesOnly (fst acc) ->
  yields (fieldEntry rec input ty name acc) (fun acc' => definesOnly (fst acc')).
Proof.
  intros Hacc. unfold fieldEntry.
  eapply yields_bind; [apply Hrec|]. cbn beta. intros rr Hrr.
  apply yields_ret. apply definesOnly_Merge; assumption.
Qed.

Lemma defines_namedField input field (acc : TypeExprToValExprRes * list Expr) name :
  definesOnly (fst acc) ->
  yields (namedField g rec input field acc name) (fun acc' => definesOnly (fst acc')).
Proof.
  intros Hacc. unfold namedField.
  eapply yields_bind; [apply yields_any|]. intros [|] _; [apply yields_ret, Hacc|].
  destruct (ShouldReturnForFunc g _ _); [apply yields_ret, Hacc|].
  apply defines_fieldEntry, Hacc.
Qed.

Lemma defines_structField input (acc : TypeExprToValExprRes * list Expr) field :
  definesOnly (fst acc) ->
  yields (structField g rec input acc field) (fun acc' => definesOnly (fst acc')).
Proof.
  intros Hacc. unfold structField.
  destruct (length (Names field) =? 0)%nat.
  - eapply yields_bind; [apply yields_any|]. intros [|] _; [apply yields_ret, Hacc|].
    eapply yields_bind; [apply defines_fieldEntry, Hacc|]. cbn beta. intros acc' Hacc'.
    apply yields_foldM_inv; [|exact Hacc'].
    intros a x Ha. apply defines_namedField, Ha.
  - apply yields_foldM_inv; [|exact Hacc].
    intros a x Ha. apply defines_namedField, Ha.
Qed.

Lemma defines_StructFieldsToKeyValExpr resType input :
  yields (StructFieldsToKeyValExpr g rec resType input) definesOnly.
Proof.
  unfold StructFieldsToKeyValExpr.
  destruct (e input); try (apply yields_ret; dnil).
  eapply yields_bind.
  - apply (yields_foldM_inv _ (fun acc => definesOnly (fst acc)));
      [|constructor].
    intros a x Ha. apply defines_structField, Ha.
  - cbn beta. intros [result elts] Hres. apply yields_ret. exact Hres.
Qed.

Lemma defines_StructExprToValExpr input :
  yields (StructExprToValExpr g rec input) definesOnly.
Proof.
  unfold StructExprToValExpr.
  destruct (e input); try (apply yields_ret; dnil).
  eapply yields_bind; [apply yields_any|]. intros mem _.
  eapply yields_bind; [apply yields_any|]. intros occurrences _.
  destruct mem as [m|].
  - destruct (_ <? _)%Z; [apply yields_ret; dnil|].
    eapply yields_bind; [apply yields_any|]. intros _ _.
    apply defines_StructFieldsToKeyValExpr.
  - eapply yields_bind; [apply yields_any|]. intros _ _.
    apply defines_StructFieldsToKeyValExpr.
Qed.

Lemma defines_TypeSpecToValExpr t k ts input :
  yields (TypeSpecToValExpr g rec t k ts input) definesOnly.
Proof.
  unfold TypeSpecToValExpr.
  destruct (SpecType ts); try apply defines_StructExprToValExpr;
    (destruct (ShouldReturnForInterface g _ _); [apply yields_ret; dnil|];
     destruct (ShouldReturnForFunc g _ _); [apply yields_ret; dnil|];
     eapply yields_bind; [apply Hrec|]; cbn beta; intros rr Hrr;
     cbn [isInterfaceType]; apply yields_ret; unfold definesOnly;
     cbn [Statements withExpr Merge zeroRes app]; exact Hrr).
Qed.

Lemma defines_IdentWithNilObjectToValExpr name input :
  yields (IdentWithNilObjectToValExpr g rec name input) definesOnly.
Proof.
  unfold IdentWithNilObjectToValExpr.
  destruct (IsBasicLit g name).
  - eapply yields_bind; [apply yields_any|]. intros v _. apply yields_ret. dnil.
  - destruct (IsError g name); [apply yields_draw, Herr|].
    destruct (FindInCurrent g _ _) as [[found expr] newPointer]. apply Hrec.
Qed.

Lemma defines_SelectorExprToValExpr input :
  yields (SelectorExprToValExpr g rec input) definesOnly.
Proof.
  unfold SelectorExprToValExpr.
  destruct (e input) as [| | | | | | | | | |x sel| | | | | | |];
    try (apply yields_ret; dnil).
  destruct x; try (apply yields_ret; dnil).
  destruct (FindImport g _ _ _) as [[found expr] newPointer].
  destruct (negb found); [apply yields_ret; dnil|].
  destruct (ShouldReturnForInterface g _ _); [apply yields_ret; dnil|].
  eapply yields_bind; [apply Hrec|]. cbn beta. intros rr Hrr.
  apply yields_ret. unfold definesOnly.
  cbn [Statements withExpr Merge zeroRes app]. exact Hrr.
Qed.

Lemma defines_FuncTypeToValExpr input :
  yields (FuncTypeToValExpr g rec input) definesOnly.
Proof.
  unfold FuncTypeToValExpr.
  destruct (CorrectTypeExpr g (e input) input); try (apply yields_ret; dnil).
  eapply yields_bind; [apply yields_any|]. intros rr _. apply yields_ret. dnil.
Qed.

Lemma defines_ChanTypeToValExpr t dir input :
  yields (ChanTypeToValExpr g t dir input) definesOnly.
Proof.
  unfold ChanTypeToValExpr.
  eapply yields_bind; [apply yields_any|]. intros name _.
  destruct dir; apply yields_ret; repeat constructor.
Qed.

Lemma defines_ArrayExprToValExpr input :
  yields (ArrayExprToValExpr g rec input) definesOnly.
Proof.
  unfold ArrayExprToValExpr.
  destruct (e input); try (apply yields_ret; dnil).
  eapply yields_bind; [apply yields_any|]. intros n _.
  eapply yields_bind.
  - unfold forUpTo.
    apply (yields_foldM_inv _ (fun acc => definesOnly (fst acc))); [|constructor].
    intros a x Ha. eapply yields_bind; [apply Hrec|]. cbn beta. intros rr Hrr.
    apply yields_ret. apply definesOnly_Merge; assumption.
  - cbn beta. intros [result exprRes] Hres. apply yields_ret. exact Hres.
Qed.

Lemma defines_mapEntry key value input
    (acc : TypeExprToValExprRes * list Expr * DuplMapChecker) :
  definesOnly (fst (fst acc)) ->
  yields (mapEntry g rec key value input acc) (fun acc' => definesOnly (fst (fst acc'))).
Proof.
  destruct acc as [[result elts] duplCheck]. cbn [fst]. intros Hacc. unfold mapEntry.
  eapply yields_bind; [apply Hrec|]. cbn beta. intros kr Hkr.
  destruct (IsDuplExpr g duplCheck (ResExpr kr)) as [[|] duplCheck'];
    [apply yields_ret; exact Hacc|].
  eapply yields_bind; [apply Hrec|]. cbn beta. intros vr Hvr.
  apply yields_ret. cbn [fst].
  apply definesOnly_Merge; [apply definesOnly_Merge|]; assumption.
Qed.

Lemma defines_MapExprToValExpr input :
  yields (MapExprToValExpr g rec input) definesOnly.
Proof.
  unfold MapExprToValExpr.
  destruct (e input); try (apply yields_ret; dnil).
  eapply yields_bind; [apply yields_any|]. intros n _.
  eapply yields_bind.
  - unfold forUpTo.
    apply (yields_foldM_inv _ (fun acc => definesOnly (fst (fst acc)))); [|constructor].
    intros a x Ha. apply defines_mapEntry, Ha.
  - cbn beta. intros [[result elts] duplCheck] Hres. apply yields_ret. exact Hres.
Qed.

Lemma defines_StarExprToValExpr input :
  yields (StarExprToValExpr g rec input) definesOnly.
Proof.
  unfold StarExprToValExpr.
  destruct (e input); try (apply yields_ret; dnil).
  eapply yields_bind; [apply yields_any|]. intros name _.
  eapply yields_bind; [apply Hrec|]. cbn beta. intros rr Hrr.
  apply yields_ret. unfold definesOnly.
  cbn [Statements withStatements withExpr Merge zeroRes app].
  apply Forall_app. split; [exact Hrr|]. repeat constructor.
Qed.

Lemma statements_methodsLoop input ident methods result :
  Statements result = [] ->
  yields (methodsLoop g rec recImpl input ident methods result)
    (fun r => Statements r = []).
Proof.
  revert result. induction methods as [|method rest IH]; intros result Hres.
  - apply yields_ret. exact Hres.
  - cbn [methodsLoop].
    destruct (FType method) as [|name obj| | | | | |params results| | |x sel| | | | | | |];
      try (apply IH, Hres).
    + destruct obj as [[k|]|]; [|apply IH, Hres|apply yields_panic].
      destruct (TypeSpecs g !! k) as [typeSpec|]; [|apply IH, Hres].
      destruct (SpecType typeSpec); try (apply IH, Hres).
      eapply yields_bind; [apply HrecImpl|]. cbn beta. intros rr Hrr.
      apply IH. cbn [Statements Merge]. rewrite Hres, Hrr. reflexivity.
    + eapply yields_bind; [apply yields_any|]. intros rr _.
      destruct (Names method); [apply yields_panic|]. apply IH. reflexivity.
    + destruct x; try apply yields_panic.
      destruct (FindImport g _ _ _) as [[found expr] newPointer].
      destruct (negb found); [apply yields_ret; reflexivity|].
      eapply yields_bind; [apply HrecImpl|]. cbn beta. intros rr Hrr.
      apply IH. cbn [Statements Merge]. rewrite Hres, Hrr. reflexivity.
Qed.

Lemma statements_InterfaceTypeToFuncImpl_body input ident :
  yields (InterfaceTypeToFuncImpl_body g rec recImpl input ident)
    (fun r => Statements r = []).
Proof.
  unfold InterfaceTypeToFuncImpl_body.
  destruct (e input); try (apply yields_ret; reflexivity).
  apply statements_methodsLoop. reflexivity.
Qed.

Lemma defines_implementInterface input ident :
  yields (implementInterface g recImpl input ident) definesOnly.
Proof.
  unfold implementInterface.
  eapply yields_bind; [apply HrecImpl|]. cbn beta. intros rr Hrr.
  apply yields_ret. unfold definesOnly.
  cbn [Statements withExpr Merge withDeclarations zeroRes app]. rewrite Hrr. constructor.
Qed.

Lemma defines_InterfaceTypeToValExpr input :
  yields (InterfaceTypeToValExpr g recImpl input) definesOnly.
Proof.
  unfold InterfaceTypeToValExpr.
  destruct (e input) as [| | | | | | | |addr methods incomplete| | | | | | | | |];
    try (apply yields_ret; dnil).
  destruct methods as [|method methods].
  - eapply yields_bind; [apply yields_any|]. intros ty _.
    eapply yields_bind; [apply yields_any|]. intros v _. apply yields_ret. dnil.
  - eapply yields_bind; [apply yields_any|]. intros occurrences _.
    eapply yields_bind; [apply yields_any|]. intros name _.
    eapply yields_bind; [apply yields_any|]. intros mem _.
    destruct mem as [[tok specs|f]|]; try apply defines_implementInterface.
    destruct (_ <? _)%Z; [|apply defines_implementInterface].
    destruct specs as [|[y|] specs];
      [apply yields_panic|apply yields_ret; dnil|apply defines_implementInterface].
Qed.

Lemma defines_TypeExprToValExpr_body input :
  yields (TypeExprToValExpr_body g rec recImpl input) definesOnly.
Proof.
  unfold TypeExprToValExpr_body.
  destruct (e input) as [|name obj| | | | | | | | | | | | | | | |];
    try (apply yields_ret; dnil).
  - destruct obj as [[k|]|]; [|apply yields_ret; dnil|
                              apply defines_IdentWithNilObjectToValExpr].
    destruct (TypeSpecs g !! k); [apply defines_TypeSpecToValExpr|
                                  apply yields_ret; dnil].
  - apply defines_StarExprToValExpr.
  - apply defines_ArrayExprToValExpr.
  - apply defines_MapExprToValExpr.
  - apply defines_ChanTypeToValExpr.
  - apply defines_FuncTypeToValExpr.
  - apply defines_InterfaceTypeToValExpr.
  - unfold UnnamedStructToValExpr. apply defines_StructFieldsToKeyValExpr.
  - apply defines_SelectorExprToValExpr.
  - apply Hrec.
Qed.

End SynthStatements.

Section SynthWhole.

Import Gen.

Context {Ptr G : Type}.

Local Abbreviation State := (@Gen.State G).
Local Abbreviation RecursionInput := (@Gen.RecursionInput Ptr).
Local Abbreviation Generator := (@Gen.Generator Ptr G).

Variable g : Generator.

Lemma interface_methods_implemented_aux (fuel : nat) (input : RecursionInput)
    (interfaceImplIdent : string) (addr : nat) (methods : list Field)
    (incomplete : bool) (s s' : State) (r : TypeExprToValExprRes) :
  e input = InterfaceType addr methods incomplete ->
  Forall (fun method => isFuncType (FType method) = true) methods ->
  InterfaceTypeToFuncImpl g fuel input interfaceImplIdent s = Ok r s' ->
  Forall (implementsMethod g input interfaceImplIdent (Declarations r)) methods /\
  Statements r = [].
Proof.
  intros He Hplain E. destruct fuel as [|fuel]; [discriminate|].
  cbn [InterfaceTypeToFuncImpl] in E. unfold InterfaceTypeToFuncImpl_body in E.
  rewrite He in E.
  pose proof (yields_Ok _ _ _ _ _
                (yields_methodsLoop_plain g (TypeExprToValExpr g fuel)
                   (InterfaceTypeToFuncImpl g fuel) input interfaceImplIdent methods
                   zeroRes Hplain eq_refl) E) as (Hs & _ & Hall).
  split; assumption.
Qed.

(** X13. When [InterfaceTypeToFuncImpl] returns on an interface all of whose
    methods have function types, the declarations it returns hold, for every
    method of the interface, a method on the pointer to the implementing type
    with that method's first name and its corrected type, whose body ends by
    returning as many identifiers as the method has results, each defined in
    the body; and it returns no statements. *)
Theorem interface_methods_implemented (fuel : nat) (input : RecursionInput)
    (interfaceImplIdent : string) (addr : nat) (methods : list Field)
    (incomplete : bool) (s s' : State) (r : TypeExprToValExprRes) :
  e input = InterfaceType addr methods incomplete ->
  Forall (fun method => isFuncType (FType method) = true) methods ->
  InterfaceTypeToFuncImpl g fuel input interfaceImplIdent s = Ok r s' ->
  Forall (implementsMethod g input interfaceImplIdent (Declarations r)) methods /\
  Statements r = [].
Proof.
  intros He Hplain E. destruct fuel as [|fuel]; [discriminate|].
  cbn [InterfaceTypeToFuncImpl] in E. unfold InterfaceTypeToFuncImpl_body in E.
  rewrite He in E.
  pose proof (yields_Ok _ _ _ _ _
                (yields_methodsLoop_plain g (TypeExprToValExpr g fuel)
                   (InterfaceTypeToFuncImpl g fuel) input interfaceImplIdent methods
                   zeroRes Hplain eq_refl) E) as (Hs & _ & Hall).
  split; assumption.
Qed.

Lemma defines_synthesis (fuel : nat) :
  (forall o, definesOnly (fst (ErrExprToValExpr g o))) ->
  (forall input, yields (TypeExprToValExpr g fuel input) definesOnly) /\
  (forall input ident,
     yields (InterfaceTypeToFuncImpl g fuel input ident) (fun r => Statements r = [])).
Proof.
  intros Herr. induction fuel as [|fuel [IH1 IH2]].
  - split; intros; intros s; exact I.
  - split; intros; cbn [TypeExprToValExpr InterfaceTypeToFuncImpl].
    + apply defines_TypeExprToValExpr_body; assumption.
    + apply statements_InterfaceTypeToFuncImpl_body; assumption.
Qed.

(** X14. Over an error-value generator whose statements are definitions,
    every statement that [TypeExprToValExpr] returns defines one identifier
    ([x := v]): the statements of a function body, with their return
    statement, stay in the function literal; and [InterfaceTypeToFuncImpl]
    returns no statement at all. *)
Theorem statements_are_definitions (fuel : nat) :
  (forall o, definesOnly (fst (ErrExprToValExpr g o))) ->
  (forall (input : RecursionInput) (s s' : State) r,
     TypeExprToValExpr g fuel input s = Ok r s' ->
     Forall (fun stmt => isDefine stmt = true) (Statements r)) /\
  (forall (input : RecursionInput) ident (s s' : State) r,
     InterfaceTypeToFuncImpl g fuel input ident s = Ok r s' -> Statements r = []).
Proof.
  intros Herr. destruct (defines_synthesis fuel Herr) as [H1 H2]. split.
  - intros input s s' r E. exact (yields_Ok _ _ _ _ _ (H1 input) E).
  - intros input ident s s' r E. exact (yields_Ok _ _ _ _ _ (H2 input ident) E).
Qed.

(** X15. A synthesis never decreases an occurrence counter, of a struct name
    or of an interface; and every synthesis of an identifier that names a
    struct type adds at least one to the counter of that struct's name. *)
Theorem counters_never_decrease (fuel : nat) (input : RecursionInput)
    (s s' : State) (r : TypeExprToValExprRes) :
  TypeExprToValExpr g fuel input s = Ok r s' ->
  (forall name,
     (count (Structs (counter s)) name <= count (Structs (counter s')) name)%Z) /\
  (forall addr,
     (countAt (Interfaces (counter s)) addr <=
      countAt (Interfaces (counter s')) addr)%Z) /\
  (forall name k ts addr fields incomplete,
     e input = Ident name (Some (TypeSpecDecl k)) ->
     TypeSpecs g !! k = Some ts ->
     SpecType ts = StructType addr fields incomplete ->
     (count (Structs (counter s))
        (counterName g (mkInput (SpecType ts) (SpecName ts) (pkgPointer input))) + 1 <=
      count (Structs (counter s'))
        (counterName g (mkInput (SpecType ts) (SpecName ts) (pkgPointer input))))%Z).
Proof.
  intros E.
  pose proof (proj1 (mono_synthesis g fuel) input s) as Hmono.
  rewrite E in Hmono. destruct Hmono as (Hs & Hi & _).
  split; [exact Hs|]. split; [exact Hi|].
  intros name k ts addr fields incomplete He Hk Hty.
  destruct fuel as [|fuel]; [discriminate|].
  cbn [TypeExprToValExpr] in E. unfold TypeExprToValExpr_body in E.
  rewrite He, Hk in E. unfold TypeSpecToValExpr in E. rewrite Hty in E.
  unfold StructExprToValExpr in E. cbn [e varName pkgPointer] in E.
  set (u := mkInput (StructType addr fields incomplete) (SpecName ts) (pkgPointer input))
    in *.
  set (ident := CorrectTypeExpr g (Ident (SpecName ts) None) u) in *.
  unfold bind at 1 in E.
  destruct (memoStruct addr (CompositeLit ident []) s) as [mem s1| |] eqn:E1;
    [|discriminate..].
  unfold bind at 1 in E. unfold countStruct in E.
  set (s2 := withCounter s1 _) in E.
  set (occurrences := (count (Structs (counter s1)) (counterName g u) + 1)%Z) in *.
  assert (H1 : (count (Structs (counter s)) (counterName g u) <=
                count (Structs (counter s1)) (counterName g u))%Z).
  { pose proof (mono_memoStruct (G:=G) addr (CompositeLit ident []) s) as H.
    rewrite E1 in H. destruct H as (H & _). apply H. }
  assert (H2 : count (Structs (counter s2)) (counterName g u) = occurrences).
  { subst s2. cbn [counter withCounter Structs]. unfold count at 1.
    rewrite lookup_insert_eq. reflexivity. }
  assert (Hrest : forall m : @M G TypeExprToValExprRes,
             mono m -> m s2 = Ok r s' ->
             (count (Structs (counter s2)) (counterName g u) <=
              count (Structs (counter s')) (counterName g u))%Z).
  { intros m Hm Em. specialize (Hm s2). rewrite Em in Hm. destruct Hm as (H & _).
    apply H. }
  assert (Hfields : mono (bind (noteExpansion (counterName g u))
                            (fun _ => StructFieldsToKeyValExpr g (TypeExprToValExpr g fuel)
                                        ident u))).
  { apply mono_bind; [apply mono_noteExpansion|]. intros _.
    apply mono_StructFieldsToKeyValExpr. apply (mono_synthesis g fuel). }
  assert (Hfinal : (count (Structs (counter s2)) (counterName g u) <=
                    count (Structs (counter s')) (counterName g u))%Z).
  { destruct mem as [m|].
    - destruct (MaxRecursion g <? occurrences)%Z.
      + apply (Hrest _ (mono_ret _) E).
      + apply (Hrest _ Hfields E).
    - apply (Hrest _ Hfields E). }
  rewrite Hty. fold u. lia.
Qed.

(** X17. What [TypeExprToValExpr] has no answer for gets the empty result,
    and the state stays as it was: an expression that it has no case for; a
    selector whose import is not found; and an identifier without object
    that is neither basic nor the error type and that the resolver answers
    with an expression that there is no case for. *)
Theorem unresolved_gets_empty_result (fuel : nat) (input : RecursionInput) (s : State) :
  (isUnsupported (e input) = true ->
   TypeExprToValExpr g (S fuel) input s = Ok EmptyResult s) /\
  (forall x obj sel expr p',
     e input = SelectorExpr (Ident x obj) sel ->
     FindImport g (pkgPointer input) x sel = (false, expr, p') ->
     TypeExprToValExpr g (S fuel) input s = Ok EmptyResult s) /\
  (forall name found expr p',
     e input = Ident name None ->
     IsBasicLit g name = false -> IsError g name = false ->
     FindInCurrent g (pkgPointer input) name = (found, expr, p') ->
     isUnsupported expr = true ->
     TypeExprToValExpr g (S (S fuel)) input s = Ok EmptyResult s).
Proof.
  assert (Hunsupported : forall fuel' (i : RecursionInput),
             isUnsupported (e i) = true ->
             TypeExprToValExpr g (S fuel') i s = Ok EmptyResult s).
  { intros fuel' i H. cbn [TypeExprToValExpr]. unfold TypeExprToValExpr_body.
    destruct (e i) as [|name [[k|]|]| | | | | | | | | | | | | | | |];
      try discriminate; reflexivity. }
  split; [apply Hunsupported|]. split.
  - intros x obj sel expr p' He Hfind.
    cbn [TypeExprToValExpr]. unfold TypeExprToValExpr_body. rewrite He.
    unfold SelectorExprToValExpr. rewrite He, Hfind. reflexivity.
  - intros name found expr p' He Hbasic Herror Hfind Hexpr.
    cbn [TypeExprToValExpr]. unfold TypeExprToValExpr_body. rewrite He.
    unfold IdentWithNilObjectToValExpr. rewrite Hbasic, Herror, Hfind.
    apply (Hunsupported fuel (mkInput expr name p')). exact Hexpr.
Qed.

(** X18. [InterfaceTypeToFuncImpl] panics on an interface whose first method
    entry is an embedded identifier that has no object (the parser leaves the
    object of an identifier nil when it cannot resolve it in the file), and
    on one whose first method entry is a function type without a name. *)
Theorem embedded_unresolved_interface_panics (fuel : nat) (input : RecursionInput)
    (ident : string) (addr : nat) (method : Field) (rest : list Field)
    (incomplete : bool) (s : State) :
  e input = InterfaceType addr (method :: rest) incomplete ->
  (forall name, FType method = Ident name None ->
     InterfaceTypeToFuncImpl g (S fuel) input ident s = Panic) /\
  (forall params results r s1,
     FType method = FuncType params results -> Names method = [] ->
     FuncReturnListToBodyStatements g (TypeExprToValExpr g fuel)
       (mkInput (FuncType params results) (varName input) (pkgPointer input)) s =
       Ok r s1 ->
     InterfaceTypeToFuncImpl g (S fuel) input ident s = Panic).
Proof.
  intros He. split.
  - intros name Hty. cbn [InterfaceTypeToFuncImpl]. unfold InterfaceTypeToFuncImpl_body.
    rewrite He. cbn [methodsLoop]. rewrite Hty. reflexivity.
  - intros params results r s1 Hty Hnames Hbody.
    change (InterfaceTypeToFuncImpl g (S fuel) input ident)
      with (InterfaceTypeToFuncImpl_body g (TypeExprToValExpr g fuel)
              (InterfaceTypeToFuncImpl g fuel) input ident).
    unfold InterfaceTypeToFuncImpl_body.
    rewrite He. cbn [methodsLoop]. rewrite Hty. unfold bind at 1.
    rewrite Hbody, Hnames. reflexivity.
Qed.

(** X26. The first encounter of an interface all of whose methods have
    function types: when [InterfaceTypeToValExpr] returns, its expression is
    the address of an empty literal of a type named by a generated name in
    title case; the first declaration it returns is the declaration of that
    type, and the declarations after it hold a method on the pointer to that
    type for every method of the interface; it returns no statements. *)
Theorem interface_value_implements (fuel : nat) (input : RecursionInput) (addr : nat)
    (method : Field) (methods : list Field) (incomplete : bool)
    (s s' : State) (r : TypeExprToValExprRes) :
  e input = InterfaceType addr (method :: methods) incomplete ->
  Forall (fun m => isFuncType (FType m) = true) (method :: methods) ->
  InterfaceMem (counter s) !! addr = None ->
  InterfaceTypeToValExpr g (InterfaceTypeToFuncImpl g fuel) input s = Ok r s' ->
  let ident := strings_Title g (fst (VarGenerator_Generate g (oracle s))) in
  ResExpr r = UnaryExpr AND (CompositeLit (Ident ident None) []) /\
  (exists decls,
     Declarations r = InterfaceGenDecl g input ident :: decls /\
     Forall (implementsMethod g input ident decls) (method :: methods)) /\
  Statements r = [].
Proof.
  intros He Hplain Hmem E. cbn zeta.
  unfold InterfaceTypeToValExpr in E. rewrite He in E.
  unfold bind at 1 2 3, countInterface, draw, memoInterface in E.
  cbv beta iota zeta in E.
  cbn [oracle counter withCounter InterfaceMem Interfaces Expanded] in E.
  destruct (VarGenerator_Generate g (oracle s)) as [name o].
  cbn [oracle counter withCounter InterfaceMem Interfaces Expanded fst] in E.
  rewrite Hmem in E. unfold implementInterface, bind in E.
  destruct (InterfaceTypeToFuncImpl g fuel input (strings_Title g name) _)
    as [impl s1| |] eqn:Eimpl; [|discriminate..].
  injection E as <- <-.
  destruct (interface_methods_implemented_aux fuel input (strings_Title g name) addr
              (method :: methods) incomplete _ _ _ He Hplain Eimpl) as [Hall Hstmts].
  cbn [ResExpr Declarations Statements withExpr Merge withDeclarations zeroRes app].
  split; [reflexivity|]. split; [|exact Hstmts].
  exists (Declarations impl). split; [reflexivity|exact Hall].
Qed.

(** X22. A function type with one unnamed result of a channel type that is
    not receive-only: [FuncTypeToValExpr] returns a function literal whose
    body makes the channel, and reports the channel's identifier among the
    channel identifiers of the result, while the statement that defines that
    identifier is in the body of the literal and not among the statements of
    the result, which has none. *)
Theorem channel_of_function_result_escapes (fuel : nat) (input : RecursionInput)
    (params params' results' : option (list Field)) (dir : ChanDir) (value : Expr)
    (s : State) :
  e input = FuncType params (Some [mkField [] (ChanType dir value)]) ->
  dir <> RECV ->
  CorrectTypeExpr g (e input) input = FuncType params' results' ->
  let resName := lowerCaseFirstLetter g (fst (VarGenerator_Generate g (oracle s))) in
  let chanName :=
    lowerCaseFirstLetter g
      (fst (VarGenerator_Generate g (snd (VarGenerator_Generate g (oracle s))))) in
  exists r s',
    FuncTypeToValExpr g (TypeExprToValExpr g (S fuel)) input s = Ok r s' /\
    ResExpr r =
      FuncLit (FuncType params' results')
        [assignStmt (Ident chanName None)
           (CallExpr (Ident "make" None) [ChanType dir value]);
         assignStmt (Ident resName None) (Ident chanName None);
         ReturnStmt [Ident resName None]] /\
    ChanIdents r = [chanName] /\
    Statements r = [].
Proof.
  intros He Hdir Hc. cbn zeta.
  unfold FuncTypeToValExpr. rewrite Hc.
  unfold FuncReturnListToBodyStatements. rewrite He.
  cbn [foldM Names length Nat.eqb].
  unfold returnField, ReturnFieldToStmt.
  change (TypeExprToValExpr g (S fuel)) with
    (fun i => TypeExprToValExpr_body g (TypeExprToValExpr g fuel)
                (InterfaceTypeToFuncImpl g fuel) i).
  unfold TypeExprToValExpr_body. cbn [e FType]. unfold ChanTypeToValExpr.
  unfold bind, draw, ret. cbn [oracle counter Expanded].
  destruct (VarGenerator_Generate g (oracle s)) as [name1 o1]. cbn [fst snd oracle].
  destruct (VarGenerator_Generate g o1) as [name2 o2]. cbn [fst snd].
  destruct dir; [|congruence|]; eexists _, _; repeat split.
Qed.

End SynthWhole.

(** ** The synthesizer: further runs on the sample package *)

Section SynthShapeRuns.

Import Gen.

Local Abbreviation g3 := (sampleGenerator DefaultAmountRecursion).

(** [[]int]: the sample policy chooses two elements. *)
Lemma array_literal_length_witness :
  exists r s',
    ArrayExprToValExpr g3 (TypeExprToValExpr g3 1)
      (mkInput (ArrayType NilExpr (Ident "int" None)) "xs" "") (freshState 0) = Ok r s' /\
    exists elts,
      ResExpr r = CompositeLit (ArrayType NilExpr (Ident "int" None)) elts /\
      length elts = 2%nat.
Proof.
  assert (E : exists r s',
             ArrayExprToValExpr g3 (TypeExprToValExpr g3 1)
               (mkInput (ArrayType NilExpr (Ident "int" None)) "xs" "") (freshState 0) =
               Ok r s')
    by (eexists _, _; vm_compute; reflexivity).
  destruct E as (r & s' & E). exists r, s'. split; [exact E|].
  exact (array_literal_length g3 (TypeExprToValExpr g3 1)
           (mkInput (ArrayType NilExpr (Ident "int" None)) "xs" "")
           NilExpr (Ident "int" None) _ _ _ eq_refl E).
Defined.

(** [*int] for the variable [p]. *)
Lemma pointer_is_address_of_temporary_witness :
  exists r s',
    StarExprToValExpr g3 (TypeExprToValExpr g3 1)
      (mkInput (StarExpr (Ident "int" None)) "p" "") (freshState 0) = Ok r s' /\
    exists pointee s1,
      TypeExprToValExpr g3 1 (mkInput (Ident "int" None) "pa" "") s1 = Ok pointee s' /\
      ResExpr r = UnaryExpr AND (Ident "pa" None) /\
      Statements r =
        Statements pointee ++ [assignStmt (Ident "pa" None) (ResExpr pointee)] /\
      Declarations r = Declarations pointee.
Proof.
  assert (E : exists r s',
             StarExprToValExpr g3 (TypeExprToValExpr g3 1)
               (mkInput (StarExpr (Ident "int" None)) "p" "") (freshState 0) = Ok r s')
    by (eexists _, _; vm_compute; reflexivity).
  destruct E as (r & s' & E). exists r, s'. split; [exact E|].
  exact (pointer_is_address_of_temporary g3 (TypeExprToValExpr g3 1)
           (mkInput (StarExpr (Ident "int" None)) "p" "")
           (Ident "int" None) _ _ _ eq_refl E).
Defined.

(** The fourth encounter of the interface at address 9. *)
Lemma interface_guard_witness :
  e (mkInput interfaceReadCloser "r" "") =
    InterfaceType 9
      [mkField ["Read"]
         (FuncType (Some []) (Some [mkField [] (Ident "int" None);
                                    mkField [] (Ident "error" None)]));
       mkField ["Close"] (FuncType (Some []) None)] false /\
  InterfaceMem (counter stateAfterThree) !! 9%nat =
    Some (GenDecl TYPE [TypeSpecS (mkTypeSpec "Impl" (StructType 100 [] false))]) /\
  (MaxRecursion g3 < countAt (Interfaces (counter stateAfterThree)) 9 + 1)%Z /\
  exists s',
    InterfaceTypeToValExpr g3 (InterfaceTypeToFuncImpl g3 5)
      (mkInput interfaceReadCloser "r" "") stateAfterThree =
      Ok (mkRes (UnaryExpr AND (CompositeLit (Ident "Impl" None) [])) [] [] [] [] []) s' /\
    countAt (Interfaces (counter s')) 9 =
      (countAt (Interfaces (counter stateAfterThree)) 9 + 1)%Z /\
    InterfaceMem (counter s') = InterfaceMem (counter stateAfterThree) /\
    oracle s' = snd (VarGenerator_Generate g3 (oracle stateAfterThree)).
Proof.
  assert (Hmem : InterfaceMem (counter stateAfterThree) !! 9%nat =
                 Some (GenDecl TYPE [TypeSpecS (mkTypeSpec "Impl" (StructType 100 [] false))]))
    by (vm_compute; reflexivity).
  assert (Hmax : (MaxRecursion g3 < countAt (Interfaces (counter stateAfterThree)) 9 + 1)%Z)
    by (vm_compute; reflexivity).
  split; [reflexivity|]. split; [exact Hmem|]. split; [exact Hmax|].
  exact (interface_guard g3 (InterfaceTypeToFuncImpl g3 5)
           (mkInput interfaceReadCloser "r" "") 9 _ _ false stateAfterThree TYPE
           (mkTypeSpec "Impl" (StructType 100 [] false)) [] eq_refl Hmem Hmax).
Defined.

(** [func() (a, b int, bool)]: the literal returns three identifiers. *)
Lemma function_literal_returns_results_witness :
  exists r s',
    FuncTypeToValExpr g3 (TypeExprToValExpr g3 1) (mkInput funcThreeResults "f" "")
      (freshState 0) = Ok r s' /\
    exists body,
      ResExpr r = FuncLit funcThreeResults body /\
      returnsDefined body 3 /\
      Statements r = [].
Proof.
  assert (E : exists r s',
             FuncTypeToValExpr g3 (TypeExprToValExpr g3 1)
               (mkInput funcThreeResults "f" "") (freshState 0) = Ok r s')
    by (eexists _, _; vm_compute; reflexivity).
  destruct E as (r & s' & E). exists r, s'. split; [exact E|].
  exact (function_literal_returns_results g3 (TypeExprToValExpr g3 1)
           (mkInput funcThreeResults "f" "") _ _ _ _ _ _ _ eq_refl eq_refl E).
Defined.

Example function_literal_body :
  match FuncTypeToValExpr g3 (TypeExprToValExpr g3 1) (mkInput funcThreeResults "f" "")
          (freshState 0) with
  | Ok r _ => Some (ResExpr r)
  | _ => None
  end =
  Some (FuncLit funcThreeResults
          [assignStmt (Ident "a" None) (BasicLit "0");
           assignStmt (Ident "c" None) (BasicLit "0");
           assignStmt (Ident "e" None) (BasicLit "true");
           ReturnStmt [Ident "a" None; Ident "c" None; Ident "e" None]]).
Proof. vm_compute. reflexivity. Qed.

(** The interface [ReadCloser]: both methods are implemented on [*Impl]. *)
Lemma interface_methods_implemented_witness :
  exists r s',
    InterfaceTypeToFuncImpl g3 3 (mkInput interfaceReadCloser "r" "") "Impl"
      (freshState 0) = Ok r s' /\
    Forall (implementsMethod g3 (mkInput interfaceReadCloser "r" "") "Impl"
              (Declarations r))
      [mkField ["Read"]
         (FuncType (Some []) (Some [mkField [] (Ident "int" None);
                                    mkField [] (Ident "error" None)]));
       mkField ["Close"] (FuncType (Some []) None)] /\
    Statements r = [].
Proof.
  assert (E : exists r s',
             InterfaceTypeToFuncImpl g3 3 (mkInput interfaceReadCloser "r" "") "Impl"
               (freshState 0) = Ok r s')
    by (eexists _, _; vm_compute; reflexivity).
  destruct E as (r & s' & E). exists r, s'. split; [exact E|].
  exact (interface_methods_implemented g3 3 (mkInput interfaceReadCloser "r" "") "Impl"
           9 _ false _ _ _ eq_refl
           ltac:(repeat constructor) E).
Defined.

Example read_closer_methods :
  match InterfaceTypeToFuncImpl g3 3 (mkInput interfaceReadCloser "r" "") "Impl"
          (freshState 0) with
  | Ok r _ => Some (Declarations r)
  | _ => None
  end =
  Some [FuncDeclD
          (mkFuncDecl (Some [mkField ["s"] (StarExpr (Ident "Impl" None))]) "Read"
             (FuncType (Some []) (Some [mkField [] (Ident "int" None);
                                        mkField [] (Ident "error" None)]))
             [assignStmt (Ident "a" None) (BasicLit "0");
              assignStmt (Ident "c" None) (Ident "nil" None);
              ReturnStmt [Ident "a" None; Ident "c" None]]);
        FuncDeclD
          (mkFuncDecl (Some [mkField ["s"] (StarExpr (Ident "Impl" None))]) "Close"
             (FuncType (Some []) None) [ReturnStmt []])].
Proof. vm_compute. reflexivity. Qed.

(** The sample error value has no statements; the statements of a [Node]. *)
Lemma statements_are_definitions_witness :
  (forall o, definesOnly (fst (ErrExprToValExpr g3 o))) /\
  exists r s',
    TypeExprToValExpr g3 7 (mkInput identNode "p" "") (freshState 0) = Ok r s' /\
    Forall (fun stmt => isDefine stmt = true) (Statements r).
Proof.
  assert (Herr : forall o : nat, definesOnly (fst (ErrExprToValExpr g3 o)))
    by (intros o; constructor).
  split; [exact Herr|].
  assert (E : exists r s',
             TypeExprToValExpr g3 7 (mkInput identNode "p" "") (freshState 0) = Ok r s')
    by (eexists _, _; vm_compute; reflexivity).
  destruct E as (r & s' & E). exists r, s'. split; [exact E|].
  exact (proj1 (statements_are_definitions g3 7 Herr) _ _ _ _ E).
Defined.

(** [Node] from a fresh state: its counter is at least one afterwards. *)
Lemma counters_never_decrease_witness :
  exists r s',
    TypeExprToValExpr g3 7 (mkInput identNode "p" "") (freshState 0) = Ok r s' /\
    (count (Structs (counter (freshState 0%nat))) "Node" + 1 <=
     count (Structs (counter s')) "Node")%Z.
Proof.
  assert (E : exists r s',
             TypeExprToValExpr g3 7 (mkInput identNode "p" "") (freshState 0) = Ok r s')
    by (eexists _, _; vm_compute; reflexivity).
  destruct E as (r & s' & E). exists r, s'. split; [exact E|].
  exact (proj2 (proj2 (counters_never_decrease g3 7 _ _ _ _ E))
           "Node" 0%nat (mkTypeSpec "Node" structNode) 0%nat _ false
           eq_refl eq_refl eq_refl).
Defined.

(** An identifier that the resolver does not find. *)
Lemma unresolved_gets_empty_result_witness :
  e (mkInput (Ident "unresolved" None) "x" "") = Ident "unresolved" None /\
  IsBasicLit g3 "unresolved" = false /\ IsError g3 "unresolved" = false /\
  FindInCurrent g3 "" "unresolved" = (false, NilExpr, "") /\
  isUnsupported NilExpr = true /\
  TypeExprToValExpr g3 2 (mkInput (Ident "unresolved" None) "x" "") (freshState 0) =
    Ok EmptyResult (freshState 0).
Proof.
  repeat (split; [reflexivity|]).
  exact (proj2 (proj2 (unresolved_gets_empty_result g3 0
                         (mkInput (Ident "unresolved" None) "x" "") (freshState 0)))
           "unresolved" false NilExpr "" eq_refl eq_refl eq_refl eq_refl eq_refl).
Defined.

(** An interface that embeds [Stringer], declared in another file. *)
Lemma embedded_unresolved_interface_panics_witness :
  e (mkInput interfaceEmbedding "x" "") =
    InterfaceType 10 [mkField [] (Ident "Stringer" None)] false /\
  InterfaceTypeToFuncImpl g3 1 (mkInput interfaceEmbedding "x" "") "Impl" (freshState 0) =
    Panic.
Proof.
  split; [reflexivity|].
  exact (proj1 (embedded_unresolved_interface_panics g3 0
                  (mkInput interfaceEmbedding "x" "") "Impl" 10 _ [] false (freshState 0)
                  eq_refl) "Stringer" eq_refl).
Defined.

(** [func() chan<- int] *)
Lemma channel_of_function_result_escapes_witness :
  e (mkInput funcReturningChan "f" "") =
    FuncType (Some []) (Some [mkField [] (ChanType SEND (Ident "int" None))]) /\
  SEND <> RECV /\
  CorrectTypeExpr g3 (e (mkInput funcReturningChan "f" "")) (mkInput funcReturningChan "f" "") =
    FuncType (Some []) (Some [mkField [] (ChanType SEND (Ident "int" None))]) /\
  exists r s',
    FuncTypeToValExpr g3 (TypeExprToValExpr g3 1) (mkInput funcReturningChan "f" "")
      (freshState 0) = Ok r s' /\
    ResExpr r =
      FuncLit funcReturningChan
        [assignStmt (Ident "b" None)
           (CallExpr (Ident "make" None) [ChanType SEND (Ident "int" None)]);
         assignStmt (Ident "a" None) (Ident "b" None);
         ReturnStmt [Ident "a" None]] /\
    ChanIdents r = ["b"] /\
    Statements r = [].
Proof.
  assert (Hdir : SEND <> RECV) by discriminate.
  split; [reflexivity|]. split; [exact Hdir|]. split; [reflexivity|].
  exact (channel_of_function_result_escapes g3 0 (mkInput funcReturningChan "f" "")
           (Some []) (Some []) (Some [mkField [] (ChanType SEND (Ident "int" None))])
           SEND (Ident "int" None) (freshState 0) eq_refl Hdir eq_refl).
Defined.

(** The first encounter of [ReadCloser]. *)
Lemma interface_value_implements_witness :
  InterfaceMem (counter (freshState 0%nat)) !! 9%nat = None /\
  exists r s',
    InterfaceTypeToValExpr g3 (InterfaceTypeToFuncImpl g3 3)
      (mkInput interfaceReadCloser "r" "") (freshState 0) = Ok r s' /\
    ResExpr r = UnaryExpr AND (CompositeLit (Ident "a" None) []) /\
    (exists decls,
       Declarations r =
         InterfaceGenDecl g3 (mkInput interfaceReadCloser "r" "") "a" :: decls /\
       Forall (implementsMethod g3 (mkInput interfaceReadCloser "r" "") "a" decls)
         [mkField ["Read"]
            (FuncType (Some []) (Some [mkField [] (Ident "int" None);
                                       mkField [] (Ident "error" None)]));
          mkField ["Close"] (FuncType (Some []) None)]) /\
    Statements r = [].
Proof.
  assert (Hmem : InterfaceMem (counter (freshState (G:=nat) 0)) !! 9%nat = None)
    by reflexivity.
  split; [exact Hmem|].
  assert (E : exists r s',
             InterfaceTypeToValExpr g3 (InterfaceTypeToFuncImpl g3 3)
               (mkInput interfaceReadCloser "r" "") (freshState 0) = Ok r s')
    by (eexists _, _; vm_compute; reflexivity).
  destruct E as (r & s' & E). exists r, s'. split; [exact E|].
  exact (interface_value_implements g3 3 (mkInput interfaceReadCloser "r" "") 9 _ _ false
           _ _ _ eq_refl ltac:(repeat constructor) Hmem E).
Defined.

End SynthShapeRuns.

(** ** The driver returns *)

Section DriverTermination.

Import Gen.

Context {Ptr G : Type}.

Local Abbreviation State := (@Gen.State G).
Local Abbreviation M := (@Gen.M G).
Local Abbreviation RecursionInput := (@Gen.RecursionInput Ptr).

Lemma total_ret {A} (a : A) : total (G:=G) (ret a).
Proof. intros s. exists a, s. reflexivity. Qed.

Lemma total_bind {A B} (m : M A) (k : A -> M B) :
  total m -> (forall a, total (k a)) -> total (bind m k).
Proof.
  intros Hm Hk s. destruct (Hm s) as (a & s1 & E).
  destruct (Hk a s1) as (b & s2 & E'). exists b, s2. unfold bind. rewrite E. exact E'.
Qed.

Lemma total_bind_ret {A B} (a : A) (k : A -> M B) :
  total (k a) -> total (bind (ret a) k).
Proof. intros H s. exact (H s). Qed.

Lemma total_bind_yields {A B} (m : M A) (k : A -> M B) (P : A -> Prop) :
  total m -> yields m P -> (forall a, P a -> total (k a)) -> total (bind m k).
Proof.
  intros Hm Hy Hk s. destruct (Hm s) as (a & s1 & E).
  pose proof (Hy s) as Ha. rewrite E in Ha. cbn in Ha.
  destruct (Hk a Ha s1) as (b & s2 & E'). exists b, s2. unfold bind. rewrite E. exact E'.
Qed.

Lemma total_draw {A} (f : G -> A * G) : total (draw f).
Proof.
  intros s. unfold draw. destruct (f (oracle s)) as [a o]. eexists _, _. reflexivity.
Qed.

Lemma total_foldM {X A} (body : A -> X -> M A) (l : list X) (a : A) :
  (forall a x, In x l -> total (body a x)) -> total (foldM body l a).
Proof.
  revert a. induction l as [|x l IH]; intros a Hbody; cbn [foldM].
  - apply total_ret.
  - apply total_bind; [apply Hbody; left; reflexivity|].
    intros a'. apply IH. intros a'' y Hy. apply Hbody. right. exact Hy.
Qed.

Lemma total_forUpTo {A} (n : Z) (body : A -> M A) (a : A) :
  (forall a, total (body a)) -> total (forUpTo n body a).
Proof. intros H. unfold forUpTo. apply total_foldM. intros a' x _. apply H. Qed.

Variable g : @Generator Ptr G.
Variable d : @Driver Ptr G.
Variable U : list RecursionInput.
Variable UI : list (nat * list Field * Ptr).

Hypothesis Hmax : (1 <= MaxRecursion g)%Z.
Hypothesis Hclosed : closedUniverse g U UI.
Hypothesis Hdeco : decoratorsInRange d.

Lemma budget_fresh (o : G) :
  (budget g U UI (mkState FreshCycleInfo o []) <=
   (length U + length UI) * (Z.to_nat (MaxRecursion g) + 1))%nat.
Proof.
  unfold budget.
  assert (HU : forall l : list RecursionInput,
             (list_sum (map (structBudget g (mkState FreshCycleInfo o [])) l) <=
              length l * (Z.to_nat (MaxRecursion g) + 1))%nat).
  { induction l as [|u l IH]; [cbn; lia|].
    cbn [map list_sum fold_right length]. unfold list_sum in IH.
    unfold structBudget at 1, count. cbn [counter Structs StructMem FreshCycleInfo].
    rewrite !lookup_empty. cbn [default]. lia. }
  assert (HI : forall l : list (nat * list Field * Ptr),
             (list_sum (map (interfaceBudget g (mkState FreshCycleInfo o [])) l) <=
              length l * (Z.to_nat (MaxRecursion g) + 1))%nat).
  { induction l as [|i l IH]; [cbn; lia|].
    cbn [map list_sum fold_right length]. unfold list_sum in IH.
    unfold interfaceBudget at 1, countAt.
    cbn [counter Interfaces InterfaceMem FreshCycleInfo].
    rewrite !lookup_empty. cbn [default]. lia. }
  specialize (HU U). specialize (HI UI). lia.
Qed.

(** A synthesis on a fresh cycle info returns, at every sufficient depth. *)
Lemma fresh_synthesis_returns (x : Expr) (p : Ptr) :
  Guarded g U UI (TypeCall x p) ->
  exists N, forall fuel, (N <= fuel)%nat ->
    forall v, total (NewRecursionInput (TypeExprToValExpr g fuel (mkInput x v p))).
Proof.
  intros Hguarded.
  destruct (guarded_safe g U UI Hclosed
              ((length U + length UI) * (Z.to_nat (MaxRecursion g) + 1))%nat _ Hguarded)
    as [N HN].
  exists N. intros fuel Hf v s. cbn [safeCall] in HN.
  specialize (HN fuel Hf v (mkState FreshCycleInfo (oracle s) [])).
  assert (Hfresh : withinBudget g U UI
                     ((length U + length UI) * (Z.to_nat (MaxRecursion g) + 1))
                     (mkState FreshCycleInfo (oracle s) [])).
  { split; [apply budget_fresh|split].
    - intros u Hu. unfold expansionsOf, count. cbn. rewrite lookup_empty. cbn.
      rewrite (Z.max_r 1 (MaxRecursion g) Hmax).
      split; [lia|]. intros Hge. lia.
    - intros addr dcl. cbn. rewrite lookup_empty. discriminate. }
  apply HN in Hfresh. apply holds_Ok in Hfresh. destruct Hfresh as (r & s' & Hok & _).
  unfold NewRecursionInput. rewrite Hok. eexists _, _. reflexivity.
Qed.

Lemma total_decoratorValue (values : list Expr) :
  (forall o, (0 <= fst (ValGenerator_DecoratorIndex d (Z.of_nat (length values)) o) <
              Z.of_nat (length values))%Z) ->
  total (decoratorValue d values).
Proof.
  intros Hrange s. unfold decoratorValue, bind, draw.
  specialize (Hrange (oracle s)).
  destruct (ValGenerator_DecoratorIndex d _ (oracle s)) as [idx o]. cbn [fst] in Hrange.
  destruct (0 <=? idx)%Z eqn:E; [|apply Z.leb_gt in E; lia].
  destruct (values !! Z.to_nat idx) as [v|] eqn:Hv.
  - eexists _, _. reflexivity.
  - apply lookup_ge_None in Hv. lia.
Qed.

Lemma total_useDecorator (hasVal : bool) : total (useDecorator d hasVal).
Proof. destruct hasVal; [apply total_draw|apply total_ret]. Qed.

Section AtDepth.

Variable fuel : nat.
Variable pointer : Ptr.
Variable fields : list Field.

Hypothesis Hfields :
  forall field, In field fields ->
    forall v, total (NewRecursionInput
                       (TypeExprToValExpr g fuel (mkInput (FType field) v pointer))).

Lemma total_FieldToAssignStmt (p : Field) funcName :
  In p fields -> total (FieldToAssignStmt g d fuel p funcName pointer).
Proof.
  intros Hp. unfold FieldToAssignStmt. apply total_foldM. intros acc param _.
  unfold assignParam.
  apply total_bind; [apply total_draw|]. intros name.
  destruct (Deco_HasVal d (fileNameOf d pointer) funcName param) eqn:Hhas.
  - apply total_bind; [apply total_useDecorator|]. intros [|].
    + apply total_bind; [|intros value; apply total_ret].
      apply total_decoratorValue. intros o. apply (proj1 Hdeco), Hhas.
    + apply total_bind; [apply Hfields, Hp|]. intros r. apply total_ret.
  - cbn [useDecorator]. apply total_bind_ret.
    apply total_bind; [apply Hfields, Hp|]. intros r. apply total_ret.
Qed.

Lemma total_assignFields (l : list Field) funcName :
  (forall p, In p l -> In p fields) ->
  total (assignFields g d fuel l funcName pointer).
Proof.
  intros Hl. unfold assignFields. apply total_foldM. intros result p Hp.
  apply total_bind; [apply total_FieldToAssignStmt, Hl, Hp|].
  intros res. apply total_ret.
Qed.

Lemma total_GetFuncReceiverStmts (recv : option (list Field)) funcName :
  (forall p, In p (default [] recv) -> In p fields) ->
  total (GetFuncReceiverStmts g d fuel recv funcName pointer).
Proof.
  intros Hrecv. unfold GetFuncReceiverStmts. destruct recv as [l|]; [|apply total_ret].
  destruct (Deco_HasReceiverVal d (fileNameOf d pointer) funcName) eqn:Hhas.
  - apply total_bind; [apply total_useDecorator|]. intros [|].
    + apply total_bind; [apply total_draw|]. intros name.
      apply total_bind; [|intros value; apply total_ret].
      apply total_decoratorValue. intros o. apply (proj2 Hdeco), Hhas.
    + apply total_assignFields. exact Hrecv.
  - cbn [useDecorator]. apply total_bind_ret. apply total_assignFields. exact Hrecv.
Qed.

Lemma total_FuncDeclToTestCase (f : FuncDecl) :
  signatureFields f = Some fields ->
  total (FuncDeclToTestCase g d fuel f pointer).
Proof.
  unfold signatureFields. intros Hsig.
  destruct (FuncTyp f) as [| | | | | | |[params|] results| | | | | | | | | |] eqn:Hty;
    try discriminate.
  injection Hsig as Heq.
  unfold FuncDeclToTestCase. rewrite Hty.
  apply total_bind_yields with
    (P := fun r => hasNamedReceiver f = true -> length (Idents r) = 1%nat).
  - apply total_GetFuncReceiverStmts. intros p Hp. rewrite <- Heq.
    apply in_or_app. left. exact Hp.
  - unfold hasNamedReceiver.
    destruct (Recv f) as [[|[[|n [|n' ns]] ty] [|field2 rest]]|];
      try (eapply yields_weaken; [apply yields_any|]; intros; discriminate).
    eapply yields_weaken; [apply yields_GetFuncReceiverStmts_named|].
    cbn beta. intros r Hr _. exact Hr.
  - intros receiverResult Hrecv.
    apply total_bind.
    + unfold FieldToAssignStmts. apply total_assignFields.
      intros p Hp. rewrite <- Heq. apply in_or_app. right. exact Hp.
    + intros fieldToAssignResult.
      apply total_bind; [apply total_draw|]. intros [[identsPrint resultStmts] resultUsages].
      assert (Hcall : exists funcStmt funcPrintStmt,
                 FuncDeclToExprStmt f (Idents receiverResult) (Idents fieldToAssignResult)
                   identsPrint = Some (funcStmt, funcPrintStmt)).
      { revert Hrecv. unfold FuncDeclToExprStmt, callExprOf, hasNamedReceiver.
        destruct (Recv f) as [[|[[|n [|n' ns]] ty] [|field2 rest]]|];
          try (intros _; eexists _, _; reflexivity).
        intros Hlen. specialize (Hlen eq_refl).
        destruct (Idents receiverResult); [discriminate Hlen|].
        eexists _, _. reflexivity. }
      destruct Hcall as (funcStmt & funcPrintStmt & ->). apply total_ret.
Qed.

End AtDepth.

Lemma total_TypeToPrefix (x : Expr) : total (TypeToPrefix g x).
Proof.
  induction x; cbn [TypeToPrefix]; try assumption; try apply total_ret;
    (apply total_bind; [apply total_draw|intros name; apply total_ret]).
Qed.

Lemma total_TestCasePrefix (t : FuncDecl) : total (TestCasePrefix g t).
Proof.
  unfold TestCasePrefix.
  destruct (Recv t) as [[|field [|field' rest]]|];
    try apply total_ret; try apply total_TypeToPrefix;
    (apply total_bind; [apply total_draw|intros name; apply total_ret]).
Qed.

Lemma signature_returns (f : FuncDecl) (pointer : Ptr) (fields : list Field) :
  signatureFields f = Some fields ->
  (forall field, In field fields -> Guarded g U UI (TypeCall (FType field) pointer)) ->
  exists N, forall fuel, (N <= fuel)%nat -> total (FuncDeclToTestCase g d fuel f pointer).
Proof.
  intros Hsig Hguarded.
  destruct (fuel_for_all fields
              (fun field fuel =>
                 forall v, total (NewRecursionInput
                                    (TypeExprToValExpr g fuel
                                       (mkInput (FType field) v pointer)))))
    as [N HN].
  { intros field Hfield. apply fresh_synthesis_returns, Hguarded, Hfield. }
  exists N. intros fuel Hf.
  apply (total_FuncDeclToTestCase fuel pointer fields (HN fuel Hf) f Hsig).
Qed.

(** X23. Over a closed type graph, with a maximum of at least one and
    decorator indices in range: when the types of the receiver and of the
    parameters of a function are guarded, [FuncDeclToTestCase] returns a test
    case from every state, at every sufficient call depth: it neither panics
    nor recurses without end. *)
Theorem FuncDeclToTestCase_terminates (f : FuncDecl) (pointer : Ptr)
    (fields : list Field) :
  signatureFields f = Some fields ->
  (forall field, In field fields -> Guarded g U UI (TypeCall (FType field) pointer)) ->
  exists N, forall fuel, (N <= fuel)%nat ->
    forall s, exists t s', FuncDeclToTestCase g d fuel f pointer s = Ok t s'.
Proof.
  intros Hsig Hguarded.
  destruct (signature_returns f pointer fields Hsig Hguarded) as [N HN].
  exists N. intros fuel Hf s. exact (HN fuel Hf s).
Qed.

(** X24. Under the same conditions on every function declaration of a file,
    [GetTestCasesForFunctionsInFile] returns the test cases of the file from
    every state, at every sufficient call depth. *)
Theorem GetTestCasesForFunctionsInFile_terminates (decls : list Decl) (pointer : Ptr) :
  (forall t, In (FuncDeclD t) decls ->
     exists fields,
       signatureFields t = Some fields /\
       forall field, In field fields ->
         Guarded g U UI (TypeCall (FType field) pointer)) ->
  exists N, forall fuel, (N <= fuel)%nat ->
    forall s, exists res s',
      GetTestCasesForFunctionsInFile g d fuel decls pointer s = Ok res s'.
Proof.
  intros Hdecls.
  destruct (fuel_for_all decls
              (fun decl fuel =>
                 match decl with
                 | FuncDeclD t => total (FuncDeclToTestCase g d fuel t pointer)
                 | _ => True
                 end)) as [N HN].
  { intros [tok specs|t] Hin; [exists O; intros; exact I|].
    destruct (Hdecls t Hin) as (fields & Hsig & Hguarded).
    apply (signature_returns t pointer fields Hsig Hguarded). }
  exists N. intros fuel Hf.
  unfold GetTestCasesForFunctionsInFile. apply total_foldM.
  intros res [tok specs|t] Hin; [apply total_ret|].
  apply total_bind.
  - unfold testCasesOf. apply total_forUpTo. intros testCases.
    destruct (FuncName t =? "main"); [apply total_ret|].
    destruct (Deco_ShouldIgnoreFunc d _ _); [apply total_ret|].
    apply total_bind; [exact (HN fuel Hf _ Hin)|]. intros testCase. apply total_ret.
  - intros testCases. apply total_bind; [apply total_TestCasePrefix|].
    intros prefix. apply total_ret.
Qed.

End DriverTermination.

(** ** The statements of a test case *)

Section DriverStatements.

Import Gen.

Context {Ptr G : Type}.

Local Abbreviation State := (@Gen.State G).

Variable g : @Generator Ptr G.
Variable d : @Driver Ptr G.
Variable fuel : nat.

Hypothesis Herr : forall o, definesOnly (fst (ErrExprToValExpr g o)).

Lemma definitions_assignFields fields funcName pointer :
  yields (assignFields g d fuel fields funcName pointer)
    (fun r => Forall (fun stmt => isDefine stmt = true) (AssignStatements r)).
Proof.
  unfold assignFields.
  apply (yields_foldM _
           (fun _ r => Forall (fun stmt => isDefine stmt = true) (AssignStatements r)))
    with (seen := []); [|constructor].
  intros seen p result Hresult.
  eapply yields_bind with
    (P := fun r => Forall (fun stmt => isDefine stmt = true) (AssignStatements r)).
  - unfold FieldToAssignStmt.
    apply (yields_foldM _
             (fun _ r => Forall (fun stmt => isDefine stmt = true) (AssignStatements r)))
      with (seen := []); [|constructor].
    intros seenNames param acc Hacc. unfold assignParam.
    eapply yields_bind; [apply yields_any|]. intros name _.
    eapply yields_bind; [apply yields_any|]. intros [|] _.
    + eapply yields_bind; [apply yields_any|]. intros value _.
      apply yields_ret. cbn [AssignStatements]. apply Forall_app.
      split; [exact Hacc|]. repeat constructor.
    + eapply yields_bind.
      * apply yields_NewRecursionInput.
        apply (proj1 (defines_synthesis g fuel Herr)).
      * cbn beta. intros r Hr. apply yields_ret. cbn [AssignStatements].
        apply Forall_app. split; [apply Forall_app; split; assumption|].
        repeat constructor.
  - cbn beta. intros res Hres. apply yields_ret.
    unfold AppendRes, Append. cbn [AssignStatements]. apply Forall_app. split; assumption.
Qed.

(** X27. Over an error-value generator whose statements are definitions:
    every statement that [FieldToAssignStmts] returns defines one identifier
    ([x := v]), those taken from the synthesis of a parameter's value and
    those that assign the parameters' identifiers alike. *)
Theorem FieldToAssignStmts_definitions (params : list Field) funcName pointer
    (s s' : State) (r : FieldToAssignRes) :
  FieldToAssignStmts g d fuel (Some params) funcName pointer s = Ok r s' ->
  Forall (fun stmt => isDefine stmt = true) (AssignStatements r).
Proof.
  intros E.
  exact (yields_Ok _ _ _ _ _ (definitions_assignFields params funcName pointer) E).
Qed.

End DriverStatements.

(** ** The synthesizer: cycles of the sample package *)

Section TerminationRuns.

Import Gen.

Local Abbreviation g3 := (sampleGenerator DefaultAmountRecursion).

(** Scenario C: [Node] has a field of type [*Node]. *)
Lemma sample_universe_closed :
  closedUniverse g3 [mkInput structNode "Node" ""] [].
Proof.
  split; [|split; [|split]].
  - intros u [<-|[]].
    exists 0%nat,
      [mkField ["Next"] (StarExpr identNode); mkField ["Val"] (Ident "int" None)], false.
    split; [reflexivity|]. split; [left; reflexivity|].
    intros field [<-|[<-|[]]].
    + apply Guarded_star.
      eapply Guarded_named_struct; [reflexivity|reflexivity|left; reflexivity].
    + apply Guarded_basic. left. reflexivity.
  - intros addr methods p [].
  - intros u1 u2 [<-|[]] [<-|[]] _. reflexivity.
  - intros input name. eexists _, _, _. reflexivity.
Defined.

Lemma sample_root_guarded :
  Guarded g3 [mkInput structNode "Node" ""] [] (TypeCall identNode "").
Proof.
  eapply Guarded_named_struct; [reflexivity|reflexivity|left; reflexivity].
Defined.


(** The run itself: three expansions of [Node], the deepest construction
    being the memoized bare literal. *)
Example scenario_C :
  match TypeExprToValExpr g3 7 (mkInput identNode "p" "") (freshState 0) with
  | Ok r s => Some (ResExpr r, Statements r, Expanded s)
  | _ => None
  end =
  Some (CompositeLit (Ident "Node" None)
          [KeyValueExpr (Ident "Next" None) (UnaryExpr AND (Ident "Nexta" None));
           KeyValueExpr (Ident "Val" None) (BasicLit "0")],
        [assignStmt (Ident "Nextc" None) (CompositeLit (Ident "Node" None) []);
         assignStmt (Ident "Nextb" None)
           (CompositeLit (Ident "Node" None)
              [KeyValueExpr (Ident "Next" None) (UnaryExpr AND (Ident "Nextc" None));
               KeyValueExpr (Ident "Val" None) (BasicLit "0")]);
         assignStmt (Ident "Nexta" None)
           (CompositeLit (Ident "Node" None)
              [KeyValueExpr (Ident "Next" None) (UnaryExpr AND (Ident "Nextb" None));
               KeyValueExpr (Ident "Val" None) (BasicLit "0")])],
        ["Node"; "Node"; "Node"]).
Proof. vm_compute. reflexivity. Qed.

(** Fan-out: [Tree] refers to itself three times over; it is expanded three
    times in all. *)
Example fan_out_bounded :
  match TypeExprToValExpr g3 9 (mkInput identTree "p" "") (freshState 0) with
  | Ok _ s => Some (Expanded s, count (Structs (counter s)) "Tree")
  | _ => None
  end = Some (["Tree"; "Tree"; "Tree"], 13%Z).
Proof. vm_compute. reflexivity. Qed.

(** The sample package is closed whatever the maximum. *)
Lemma sample_universe_closed_at (maxRecursion : Z) :
  closedUniverse (sampleGenerator maxRecursion) [mkInput structNode "Node" ""] [] /\
  Guarded (sampleGenerator maxRecursion) [mkInput structNode "Node" ""] []
    (TypeCall identNode "").
Proof.
  assert (Hroot : Guarded (sampleGenerator maxRecursion) [mkInput structNode "Node" ""] []
                    (TypeCall identNode ""))
    by (eapply Guarded_named_struct; [reflexivity|reflexivity|left; reflexivity]).
  split; [|exact Hroot].
  split; [|split; [|split]].
  - intros u [<-|[]].
    exists 0%nat,
      [mkField ["Next"] (StarExpr identNode); mkField ["Val"] (Ident "int" None)], false.
    split; [reflexivity|]. split; [left; reflexivity|].
    intros field [<-|[<-|[]]].
    + apply Guarded_star. exact Hroot.
    + apply Guarded_basic. left. reflexivity.
  - intros addr methods p [].
  - intros u1 u2 [<-|[]] [<-|[]] _. reflexivity.
  - intros input name. eexists _, _, _. reflexivity.
Qed.


(** With a maximum of zero a struct is still expanded once, on its first
    encounter. *)
Example first_encounter_expands :
  match TypeExprToValExpr (sampleGenerator 0) 5 (mkInput identNode "p" "") (freshState 0) with
  | Ok _ s => Some (Expanded s)
  | _ => None
  end = Some ["Node"].
Proof. vm_compute. reflexivity. Qed.

End TerminationRuns.

(** ** The driver returns on the sample file *)

Section DriverTerminationRuns.

Import Gen.

Local Abbreviation g3 := (sampleGenerator DefaultAmountRecursion).

Lemma sample_decorators_in_range : decoratorsInRange sampleDriver.
Proof.
  split.
  - intros fileName funcName param o _. cbn. lia.
  - intros fileName funcName o H. discriminate H.
Defined.

Lemma sample_method_guarded (field : Field) :
  In field [mkField ["n"] (StarExpr identNode);
            mkField ["depth"; "fixed"] (Ident "int" None);
            mkField [] (Ident "int" None)] ->
  Guarded g3 [mkInput structNode "Node" ""] [] (TypeCall (FType field) "").
Proof.
  intros [<-|[<-|[<-|[]]]].
  - apply Guarded_star.
    eapply Guarded_named_struct; [reflexivity|reflexivity|left; reflexivity].
  - apply Guarded_basic. left. reflexivity.
  - apply Guarded_basic. left. reflexivity.
Defined.

Lemma FuncDeclToTestCase_terminates_witness :
  (1 <= MaxRecursion g3)%Z /\
  closedUniverse g3 [mkInput structNode "Node" ""] [] /\
  decoratorsInRange sampleDriver /\
  signatureFields sampleMethod =
    Some [mkField ["n"] (StarExpr identNode);
          mkField ["depth"; "fixed"] (Ident "int" None);
          mkField [] (Ident "int" None)] /\
  exists N, forall fuel, (N <= fuel)%nat ->
    forall s, exists t s', FuncDeclToTestCase g3 sampleDriver fuel sampleMethod "" s = Ok t s'.
Proof.
  assert (Hmax : (1 <= MaxRecursion g3)%Z) by (vm_compute; discriminate).
  split; [exact Hmax|]. split; [exact sample_universe_closed|].
  split; [exact sample_decorators_in_range|]. split; [reflexivity|].
  exact (FuncDeclToTestCase_terminates g3 sampleDriver [mkInput structNode "Node" ""] []
           Hmax sample_universe_closed sample_decorators_in_range sampleMethod "" _
           eq_refl sample_method_guarded).
Defined.

Lemma GetTestCasesForFunctionsInFile_terminates_witness :
  (1 <= MaxRecursion g3)%Z /\
  closedUniverse g3 [mkInput structNode "Node" ""] [] /\
  decoratorsInRange sampleDriver /\
  exists N, forall fuel, (N <= fuel)%nat ->
    forall s, exists res s',
      GetTestCasesForFunctionsInFile g3 sampleDriver fuel sampleDecls "" s = Ok res s'.
Proof.
  assert (Hmax : (1 <= MaxRecursion g3)%Z) by (vm_compute; discriminate).
  split; [exact Hmax|]. split; [exact sample_universe_closed|].
  split; [exact sample_decorators_in_range|].
  apply (GetTestCasesForFunctionsInFile_terminates g3 sampleDriver
           [mkInput structNode "Node" ""] []
           Hmax sample_universe_closed sample_decorators_in_range sampleDecls "").
  intros t [Ht|[Ht|[Ht|[Ht|[Ht|[]]]]]]; try discriminate; injection Ht as <-.
  - exists []. split; [reflexivity|]. intros field [].
  - exists []. split; [reflexivity|]. intros field [].
  - exists []. split; [reflexivity|]. intros field [].
  - eexists. split; [reflexivity|]. exact sample_method_guarded.
Defined.

(** The statements for the parameters of [Walk] and for a pointer to a
    [Node]. *)
Lemma FieldToAssignStmts_definitions_witness :
  (forall o, definesOnly (fst (ErrExprToValExpr g3 o))) /\
  exists r s',
    FieldToAssignStmts g3 sampleDriver 9
      (Some [mkField ["n"] (StarExpr identNode);
             mkField ["depth"; "fixed"] (Ident "int" None)])
      "Walk" "" (freshState 0) = Ok r s' /\
    Forall (fun stmt => isDefine stmt = true) (AssignStatements r).
Proof.
  assert (Herr : forall o : nat, definesOnly (fst (ErrExprToValExpr g3 o)))
    by (intros o; constructor).
  split; [exact Herr|].
  assert (E : exists r s',
             FieldToAssignStmts g3 sampleDriver 9
               (Some [mkField ["n"] (StarExpr identNode);
                      mkField ["depth"; "fixed"] (Ident "int" None)])
               "Walk" "" (freshState 0) = Ok r s')
    by (eexists _, _; vm_compute; reflexivity).
  destruct E as (r & s' & E). exists r, s'. split; [exact E|].
  exact (FieldToAssignStmts_definitions g3 sampleDriver 9 Herr _ "Walk" "" _ _ _ E).
Defined.

End DriverTerminationRuns.
